(** * MC-Pricer: Black-Scholes analytics and the Monte Carlo engine

    A shallow embedding of [src/src/Option.cpp], [src/src/BlackScholes.cpp],
    [src/src/MonteCarloEngine.cpp] with the setters of its header, and
    [src/src/VolatilityPredictor.cpp].

    The C++ sources compute on [double].  The embedding is written once, over
    two interfaces: [Arith], the operations of the language and [std::sqrt],
    and [Cmath], the transcendental functions [std::exp], [std::log] and
    [std::erfc].  It is read in two ways:

    - [binary64]: IEEE 754 double precision, through the kernel's primitive
      floats.  Addition, subtraction, multiplication, division, square root
      and the comparisons are the correctly rounded IEEE operations.  The
      C++ standard leaves the results of the transcendental functions to the
      implementation, so statements about binary64 hold for every [Cmath]
      on [float].
    - [exact] and [exact_cmath]: the real numbers, where every operation is
      the mathematical one and [erfc] is one minus the Maclaurin series of
      the error function.

    Exceptions are values of a sum type, the random generator of the engine
    is threaded explicitly through every function that draws from it, and
    [std::vector] is [list], read with [nth] and written with stdpp's
    [alter] and insert. *)

From Stdlib Require Import ZArith Reals Lra Lia List String Floats.
From stdpp Require Import base list.

Set Warnings "-inexact-float,-notation-for-abbreviation".

(** ** The arithmetic of the sources *)

Class Arith (T : Type) := {
  lit : float -> T;          (* a floating literal of the source text *)
  of_int : Z -> T;           (* conversion of an [int] operand to [double] *)
  add : T -> T -> T;
  sub : T -> T -> T;
  mul : T -> T -> T;
  div : T -> T -> T;
  opp : T -> T;
  fabs : T -> T;             (* std::abs *)
  sqrt : T -> T;             (* std::sqrt *)
  ltb : T -> T -> bool;      (* a < b *)
  leb : T -> T -> bool       (* a <= b *)
}.

Class Cmath (T : Type) := {
  exp : T -> T;              (* std::exp *)
  log : T -> T;              (* std::log *)
  erfc : T -> T              (* std::erfc *)
}.

Declare Scope arith_scope.
Delimit Scope arith_scope with A.
Infix "+" := add : arith_scope.
Infix "-" := sub : arith_scope.
Infix "*" := mul : arith_scope.
Infix "/" := div : arith_scope.
Notation "- x" := (opp x) : arith_scope.
Infix "<?" := ltb (at level 70) : arith_scope.
Infix "<=?" := leb (at level 70) : arith_scope.

(** *** IEEE 754 binary64 *)

(** Conversion of an [int] to [double]; exact, an [int] has 32 bits. *)
Definition float_of_int (z : Z) : float :=
  match z with
  | Z0 => 0%float
  | Zpos _ => PrimFloat.of_uint63 (Uint63.of_Z z)
  | Zneg _ => PrimFloat.opp (PrimFloat.of_uint63 (Uint63.of_Z (Z.opp z)))
  end.

#[export] Instance binary64 : Arith float := {|
  lit := fun x => x;
  of_int := float_of_int;
  add := PrimFloat.add;
  sub := PrimFloat.sub;
  mul := PrimFloat.mul;
  div := PrimFloat.div;
  opp := PrimFloat.opp;
  fabs := PrimFloat.abs;
  sqrt := PrimFloat.sqrt;
  ltb := PrimFloat.ltb;
  leb := PrimFloat.leb
|}.

(** A [double] that is neither finite nor zero: an infinity or a NaN. *)
Definition nonfinite (x : float) : bool :=
  match Prim2SF x with
  | S754_nan | S754_infinity _ => true
  | _ => false
  end.

(** *** Exact real arithmetic *)

(** The real number a binary64 literal denotes. *)
Definition SF2R (x : spec_float) : R :=
  match x with
  | S754_finite s m e =>
      if (0 <=? e)%Z then (IZR (cond_Zopp s (Zpos m)) * IZR (2 ^ e))%R
      else (IZR (cond_Zopp s (Zpos m)) / IZR (2 ^ (- e)))%R
  | _ => 0%R
  end.

Definition F2R (x : float) : R := SF2R (Prim2SF x).

(** Coefficients of the series erf x = 2/sqrt(pi) * sum_n (-1)^n x^(2n+1) / (n! (2n+1)),
    as a power series in x^2. *)
Definition erf_coeff (n : nat) : R :=
  ((-1) ^ n / (INR (fact n) * INR (2 * n + 1)))%R.

Lemma erf_coeff_neq_0 (n : nat) : erf_coeff n <> 0%R.
Proof.
  unfold erf_coeff. apply Rmult_integral_contrapositive_currified.
  - apply pow_nonzero. lra.
  - apply Rinv_neq_0_compat. apply Rmult_integral_contrapositive_currified.
    + apply INR_fact_neq_0.
    + apply not_0_INR. lia.
Qed.

Lemma erf_coeff_ratio (n : nat) :
  (Rabs (erf_coeff (S n) / erf_coeff n) <= / INR (S n))%R.
Proof.
  assert (Hf : (0 < INR (fact n))%R) by apply INR_fact_lt_0.
  assert (Hn : (0 < INR (S n))%R) by (apply lt_0_INR; lia).
  assert (H1 : (0 < INR (2 * n + 1))%R) by (apply lt_0_INR; lia).
  assert (H3 : (0 < INR (2 * S n + 1))%R) by (apply lt_0_INR; lia).
  assert (Hp : ((-1) ^ n <> 0)%R) by (apply pow_nonzero; lra).
  replace (erf_coeff (S n) / erf_coeff n)%R
    with (- (INR (2 * n + 1) / (INR (S n) * INR (2 * S n + 1))))%R.
  - rewrite Rabs_Ropp, Rabs_pos_eq.
    + apply (Rmult_le_reg_r (INR (S n) * INR (2 * S n + 1))).
      * apply Rmult_lt_0_compat; assumption.
      * replace (INR (2 * n + 1) / (INR (S n) * INR (2 * S n + 1)) *
                 (INR (S n) * INR (2 * S n + 1)))%R with (INR (2 * n + 1))
          by (field; lra).
        replace (/ INR (S n) * (INR (S n) * INR (2 * S n + 1)))%R
          with (INR (2 * S n + 1)) by (field; lra).
        apply le_INR. lia.
    + apply Rlt_le, Rdiv_lt_0_compat; [assumption|].
      apply Rmult_lt_0_compat; assumption.
  - unfold erf_coeff. rewrite fact_simpl, mult_INR. simpl pow.
    field. repeat split; lra.
Qed.

Lemma erf_coeff_cv : Un_cv (fun n => Rabs (erf_coeff (S n) / erf_coeff n)) 0.
Proof.
  intros eps Heps.
  destruct (archimed (/ eps)) as [Hup _].
  assert (Hpos : (0 < IZR (up (/ eps)))%R).
  { apply Rlt_trans with (/ eps)%R; [apply Rinv_0_lt_compat|]; assumption. }
  assert (Hz : (0 < up (/ eps))%Z) by (apply lt_IZR; assumption).
  exists (Z.to_nat (up (/ eps))). intros n Hn.
  unfold Rdist. rewrite Rminus_0_r, Rabs_Rabsolu.
  apply Rle_lt_trans with (1 := erf_coeff_ratio n).
  assert (Hb : (/ eps < INR (S n))%R).
  { apply Rlt_le_trans with (1 := Hup).
    rewrite <- (Z2Nat.id (up (/ eps))) by lia.
    rewrite <- INR_IZR_INZ. apply le_INR. lia. }
  rewrite <- (Rinv_inv eps).
  apply Rinv_lt_contravar; [|assumption].
  apply Rmult_lt_0_compat; [apply Rinv_0_lt_compat; assumption|].
  apply Rlt_trans with (/ eps)%R; [apply Rinv_0_lt_compat|]; assumption.
Qed.

(** The error function and its complement on the reals. *)
Definition erf_series (y : R) : R :=
  proj1_sig (Alembert_C3 erf_coeff y erf_coeff_neq_0 erf_coeff_cv).

Definition Rerf (x : R) : R :=
  (2 / R_sqrt.sqrt PI * (x * erf_series (x * x)))%R.
Definition Rerfc (x : R) : R := (1 - Rerf x)%R.

#[export] Instance exact : Arith R := {|
  lit := F2R;
  of_int := IZR;
  add := Rplus;
  sub := Rminus;
  mul := Rmult;
  div := Rdiv;
  opp := Ropp;
  fabs := Rabs;
  sqrt := R_sqrt.sqrt;
  ltb := fun x y => if Rlt_dec x y then true else false;
  leb := fun x y => if Rle_dec x y then true else false
|}.

#[export] Instance exact_cmath : Cmath R := {|
  exp := Rtrigo_def.exp;
  log := ln;
  erfc := Rerfc
|}.

(** ** Exceptions of the sources *)

(** The two exception classes the sources throw, each with its message. *)
Inductive exn :=
| invalid_argument (what : string)
| runtime_error (what : string).

(** The two failures of [impliedVolatility], told apart by their message. *)
Definition VegaTooSmall : exn :=
  runtime_error "Vega too small, cannot compute implied volatility".
Definition ConvergenceFailure : exn :=
  runtime_error "Implied volatility did not converge".

(** The result of a call that may throw. *)
Definition throws (A : Type) : Type := (exn + A)%type.
Definition throw {A} (e : exn) : throws A := inl e.
Definition ret {A} (a : A) : throws A := inr a.

(** ** Option.h, Option.cpp *)

Inductive OptionType := CALL | PUT.
Inductive ExerciseStyle := EUROPEAN | AMERICAN.

Section Sources.
Context {T : Type} {arith : Arith T} {cmath : Cmath T}.
Local Open Scope arith_scope.

(** [std::max(a, b)] is [(a < b) ? b : a], [std::min(a, b)] is
    [(b < a) ? b : a]. *)
Definition std_max (a b : T) : T := if a <? b then b else a.
Definition std_min (a b : T) : T := if b <? a then b else a.

Record Option_ := {
  strike_ : T;
  maturity_ : T;
  type_ : OptionType;
  style_ : ExerciseStyle
}.

Definition Option_new (strike maturity : T) (type : OptionType)
    (style : ExerciseStyle) : throws Option_ :=
  if strike <=? of_int 0 then throw (invalid_argument "Strike price must be positive")
  else if maturity <=? of_int 0 then throw (invalid_argument "Maturity must be positive")
  else ret {| strike_ := strike; maturity_ := maturity; type_ := type; style_ := style |}.

Definition EuropeanOption_new (strike maturity : T) (type : OptionType) :=
  Option_new strike maturity type EUROPEAN.
Definition AmericanOption_new (strike maturity : T) (type : OptionType) :=
  Option_new strike maturity type AMERICAN.

(** [EuropeanOption::payoff] and [AmericanOption::payoff] have the same body. *)
Definition payoff (o : Option_) (spot : T) : T :=
  match type_ o with
  | CALL => std_max (spot - strike_ o) (lit 0.0)
  | PUT => std_max (strike_ o - spot) (lit 0.0)
  end.

(** ** BlackScholes.h, BlackScholes.cpp *)

Record BlackScholes := {
  S_ : T;
  K_ : T;
  r_ : T;
  T_ : T;
  sigma_ : T
}.

Definition BlackScholes_new (S K r T_mat sigma : T) : throws BlackScholes :=
  if (S <=? of_int 0) || (K <=? of_int 0) || (T_mat <=? of_int 0)
     || (sigma <=? of_int 0)
  then throw (invalid_argument "All parameters must be positive")
  else ret {| S_ := S; K_ := K; r_ := r; T_ := T_mat; sigma_ := sigma |}.

Definition M_SQRT1_2 : T := lit 0.70710678118654752440.
Definition M_PI : T := lit 3.14159265358979323846.

Definition normalCDF (x : T) : T := lit 0.5 * erfc (- x * M_SQRT1_2).

Definition normalPDF (x : T) : T :=
  exp (- lit 0.5 * x * x) / sqrt (lit 2.0 * M_PI).

Definition d1 (bs : BlackScholes) : T :=
  (log (S_ bs / K_ bs)
   + (r_ bs + lit 0.5 * sigma_ bs * sigma_ bs) * T_ bs)
  / (sigma_ bs * sqrt (T_ bs)).

Definition d2 (bs : BlackScholes) : T :=
  d1 bs - sigma_ bs * sqrt (T_ bs).

Definition callPrice (bs : BlackScholes) : T :=
  let d1_val := d1 bs in
  let d2_val := d2 bs in
  S_ bs * normalCDF d1_val
  - K_ bs * exp (- r_ bs * T_ bs) * normalCDF d2_val.

Definition putPrice (bs : BlackScholes) : T :=
  let d1_val := d1 bs in
  let d2_val := d2 bs in
  K_ bs * exp (- r_ bs * T_ bs) * normalCDF (- d2_val)
  - S_ bs * normalCDF (- d1_val).

Definition BlackScholes_price (bs : BlackScholes) (type : OptionType) : T :=
  match type with CALL => callPrice bs | PUT => putPrice bs end.

Definition vega (bs : BlackScholes) : T :=
  let d1_val := d1 bs in
  S_ bs * normalPDF d1_val * sqrt (T_ bs).

(** The Greeks. *)
Definition delta (bs : BlackScholes) (type : OptionType) : T :=
  let d1_val := d1 bs in
  match type with
  | CALL => normalCDF d1_val
  | PUT => normalCDF d1_val - lit 1.0
  end.

Definition gamma (bs : BlackScholes) : T :=
  let d1_val := d1 bs in
  normalPDF d1_val / (S_ bs * sigma_ bs * sqrt (T_ bs)).

Definition theta (bs : BlackScholes) (type : OptionType) : T :=
  let d1_val := d1 bs in
  let d2_val := d2 bs in
  let term1 := - (S_ bs * normalPDF d1_val * sigma_ bs) / (lit 2.0 * sqrt (T_ bs)) in
  match type with
  | CALL =>
      let term2 := r_ bs * K_ bs * exp (- r_ bs * T_ bs) * normalCDF d2_val in
      term1 - term2
  | PUT =>
      let term2 := r_ bs * K_ bs * exp (- r_ bs * T_ bs) * normalCDF (- d2_val) in
      term1 + term2
  end.

Definition rho (bs : BlackScholes) (type : OptionType) : T :=
  let d2_val := d2 bs in
  match type with
  | CALL => K_ bs * T_ bs * exp (- r_ bs * T_ bs) * normalCDF d2_val
  | PUT => - K_ bs * T_ bs * exp (- r_ bs * T_ bs) * normalCDF (- d2_val)
  end.

(** *** [BlackScholes::impliedVolatility] *)

(** The last statement of the loop body: [std::max(0.001, std::min(sigma, 5.0))]. *)
Definition clamp (sigma : T) : T :=
  std_max (lit 0.001) (std_min sigma (lit 5.0)).

Section ImpliedVolatility.
Variables (marketPrice S K r T_mat : T) (type : OptionType) (tolerance : T).

(** The loop of [impliedVolatility] with [n] iterations left and the current
    value of the local [sigma]; leaving the loop throws. *)
Fixpoint newton (n : nat) (sigma : T) : throws T :=
  match n with
  | O => throw ConvergenceFailure
  | Datatypes.S n' =>
      match BlackScholes_new S K r T_mat sigma with
      | inl e => throw e
      | inr bs =>
          let price_ := BlackScholes_price bs type in
          let diff := price_ - marketPrice in
          if fabs diff <? tolerance then ret sigma
          else
            let vega_ := vega bs in
            if vega_ <? lit 1e-10 then throw VegaTooSmall
            else
              let sigma' := sigma - diff / vega_ in
              newton n' (clamp sigma')
      end
  end.

Definition impliedVolatility (maxIterations : Z) : throws T :=
  newton (Z.to_nat maxIterations) (lit 0.2).

(** What one iteration that starts with [sigma] observes. *)
Definition constructed (sigma : T) (bs : BlackScholes) : Prop :=
  BlackScholes_new S K r T_mat sigma = inr bs.
Definition meets_tolerance (bs : BlackScholes) : bool :=
  fabs (BlackScholes_price bs type - marketPrice) <? tolerance.
Definition vega_too_small (bs : BlackScholes) : bool :=
  vega bs <? lit 1e-10.
Definition newton_update (sigma : T) (bs : BlackScholes) : T :=
  clamp (sigma - (BlackScholes_price bs type - marketPrice) / vega bs).

(** [enters k sigma]: the loop begins its iteration number [k] (from 0) with
    the local [sigma] holding this value.  An iteration is followed by
    another one only when its pricer was constructed, the tolerance test
    failed and the vega test failed. *)
Inductive enters : nat -> T -> Prop :=
| enters_first : enters 0 (lit 0.2)
| enters_next k sigma bs :
    enters k sigma ->
    constructed sigma bs ->
    meets_tolerance bs = false ->
    vega_too_small bs = false ->
    enters (Datatypes.S k) (newton_update sigma bs).

(** The iteration that ends the loop, and what the call then yields: the
    constructor throws, or the tolerance is met and [sigma] is returned, or
    vega is too small. *)
Definition halts_at (k : nat) (out : throws T) : Prop :=
  exists sigma, enters k sigma /\
    match BlackScholes_new S K r T_mat sigma with
    | inl e => out = inl e
    | inr bs =>
        if meets_tolerance bs then out = inr sigma
        else vega_too_small bs = true /\ out = inl VegaTooSmall
    end.

End ImpliedVolatility.

(** ** MonteCarloEngine.h, MonteCarloEngine.cpp *)

Record MCResult := {
  price : T;
  standardError : T;
  confidence95Lower : T;
  confidence95Upper : T;
  numSimulations : Z
}.

Section Engine.
(** The state of the members [generator_] and [distribution_] together, the
    seeding [generator_(seed), distribution_(0.0, 1.0)] of the constructor,
    and one draw [distribution_(generator_)], which returns a number and
    leaves the members in a new state. *)
Context {G : Type}.
Variable seed_generator : Z -> G.
Variable normal : G -> T * G.

Record MonteCarloEngine := {
  numSimulations_ : Z;
  numSteps_ : Z;
  seed_ : Z;
  generator_ : G
}.

Definition MonteCarloEngine_new (numSimulations numSteps seed : Z)
    : throws MonteCarloEngine :=
  if (numSimulations <=? 0)%Z || (numSteps <=? 0)%Z
  then throw (invalid_argument "Number of simulations and steps must be positive")
  else ret {| numSimulations_ := numSimulations; numSteps_ := numSteps;
              seed_ := seed; generator_ := seed_generator seed |}.

(** The state of the members after one draw. *)
Definition advance (g : G) : G := snd (normal g).

(** The loop of [generatePath]: [n] more points after [prev].  The vectors of
    the engine are constructed with the sizes [numSteps_ + 1] and
    [numSimulations_], which the constructor keeps positive; the setters do
    not, and with a negative count the constructor of the vector throws
    [std::length_error] or, for [numSteps_ = -1], [path[0]] lies outside the
    vector.  The embedding follows the calls whose counts are not
    negative. *)
Fixpoint path_steps (n : nat) (drift diffusion prev : T) (g : G) : list T * G :=
  match n with
  | O => ([], g)
  | Datatypes.S n' =>
      let '(z, g1) := normal g in
      let next := prev * exp (drift + diffusion * z) in
      let '(rest, g2) := path_steps n' drift diffusion next g1 in
      (next :: rest, g2)
  end.

Definition generatePath (numSteps : Z) (S0 r sigma T_mat : T) (g : G)
    : list T * G :=
  let dt := T_mat / of_int numSteps in
  let drift := (r - lit 0.5 * sigma * sigma) * dt in
  let diffusion := sigma * sqrt dt in
  let '(rest, g') := path_steps (Z.to_nat numSteps) drift diffusion S0 g in
  (S0 :: rest, g').

(** [v[i]] of a vector of doubles and [paths[i][t]]. *)
Definition at_ (v : list T) (i : nat) : T := nth i v (lit 0.0).
Definition at2 (paths : list (list T)) (i t : nat) : T := at_ (nth i paths []) t.

(** [std::accumulate(v.begin(), v.end(), 0.0)]. *)
Definition accumulate (v : list T) : T := fold_left add v (lit 0.0).

(** The loop that adds up the squared differences to [mean]. *)
Definition sumSquaredDiff (v : list T) (mean : T) : T :=
  fold_left (fun sumSquared p => let diff := p - mean in sumSquared + diff * diff)
            v (lit 0.0).

(** *** [priceEuropean] *)

(** The first loop of [priceEuropean]: [n] more payoffs. *)
Fixpoint europeanPayoffs (n : nat) (numSteps : Z) (option : Option_)
    (S0 r sigma : T) (g : G) : list T * G :=
  match n with
  | O => ([], g)
  | Datatypes.S n' =>
      let '(path, g1) := generatePath numSteps S0 r sigma (maturity_ option) g in
      let finalPrice := at_ path (Z.to_nat numSteps) in
      let '(rest, g2) := europeanPayoffs n' numSteps option S0 r sigma g1 in
      (payoff option finalPrice :: rest, g2)
  end.

(** The rest of [priceEuropean], from the payoffs and the discount factor on. *)
Definition europeanResult (numSimulations : Z) (payoffs : list T) (discount : T)
    : MCResult :=
  let sum := accumulate payoffs in
  let mean := sum / of_int numSimulations in
  let price := discount * mean in
  let sumSquared := sumSquaredDiff payoffs mean in
  let variance := sumSquared / of_int (numSimulations - 1) in
  let standardError := discount * sqrt (variance / of_int numSimulations) in
  {| price := price;
     standardError := standardError;
     confidence95Lower := price - lit 1.96 * standardError;
     confidence95Upper := price + lit 1.96 * standardError;
     numSimulations := numSimulations |}.

Definition with_generator (e : MonteCarloEngine) (g : G) : MonteCarloEngine :=
  {| numSimulations_ := numSimulations_ e; numSteps_ := numSteps_ e;
     seed_ := seed_ e; generator_ := g |}.

(** The setters and getters of the header; a setter assigns the member and
    tests nothing. *)
Definition setNumSimulations (e : MonteCarloEngine) (n : Z) : MonteCarloEngine :=
  {| numSimulations_ := n; numSteps_ := numSteps_ e;
     seed_ := seed_ e; generator_ := generator_ e |}.

Definition setNumSteps (e : MonteCarloEngine) (n : Z) : MonteCarloEngine :=
  {| numSimulations_ := numSimulations_ e; numSteps_ := n;
     seed_ := seed_ e; generator_ := generator_ e |}.

Definition getNumSimulations (e : MonteCarloEngine) : Z := numSimulations_ e.
Definition getNumSteps (e : MonteCarloEngine) : Z := numSteps_ e.

Definition priceEuropean (e : MonteCarloEngine) (option : Option_)
    (S0 r sigma : T) : MCResult * MonteCarloEngine :=
  let '(payoffs, g) :=
    europeanPayoffs (Z.to_nat (numSimulations_ e)) (numSteps_ e) option
                    S0 r sigma (generator_ e) in
  let T_mat := maturity_ option in
  let discount := exp (- r * T_mat) in
  (europeanResult (numSimulations_ e) payoffs discount, with_generator e g).

(** *** [priceAmerican] *)

(** The loop that generates all paths. *)
Fixpoint generatePaths (n : nat) (numSteps : Z) (S0 r sigma T_mat : T) (g : G)
    : list (list T) * G :=
  match n with
  | O => ([], g)
  | Datatypes.S n' =>
      let '(path, g1) := generatePath numSteps S0 r sigma T_mat g in
      let '(rest, g2) := generatePaths n' numSteps S0 r sigma T_mat g1 in
      (path :: rest, g2)
  end.

Section BackwardInduction.
Variables (option : Option_) (paths : list (list T)) (discount : T).
Variable numSims : nat.

(** The vectors [itmIndices], [X] and [Y] of one time step. *)
Record itm := {
  itmIndices : list nat;
  X : list T;
  Y : list T
}.

Definition collectITM (cashFlows : list T) (t : nat) : itm :=
  fold_left
    (fun acc i =>
       let spot := at2 paths i t in
       let exerciseValue := payoff option spot in
       if of_int 0 <? exerciseValue
       then {| itmIndices := itmIndices acc ++ [i];
               X := X acc ++ [spot];
               Y := Y acc ++ [at_ cashFlows i * discount] |}
       else acc)
    (seq 0 numSims)
    {| itmIndices := []; X := []; Y := [] |}.

(** The seven sums of the regression branch. *)
Record sums := {
  sum_x : T; sum_x2 : T; sum_x3 : T; sum_x4 : T;
  sum_y : T; sum_xy : T; sum_x2y : T
}.

Definition regressionSums (X Y : list T) : sums :=
  fold_left
    (fun s i =>
       let x := at_ X i in
       let y := at_ Y i in
       let x2 := x * x in
       {| sum_x := sum_x s + x;
          sum_x2 := sum_x2 s + x2;
          sum_x3 := sum_x3 s + x2 * x;
          sum_x4 := sum_x4 s + x2 * x2;
          sum_y := sum_y s + y;
          sum_xy := sum_xy s + x * y;
          sum_x2y := sum_x2y s + x2 * y |})
    (seq 0 (length X))
    {| sum_x := of_int 0; sum_x2 := of_int 0; sum_x3 := of_int 0;
       sum_x4 := of_int 0; sum_y := of_int 0; sum_xy := of_int 0;
       sum_x2y := of_int 0 |}.

(** [cashFlows[i] *= discount]. *)
Definition discountAt (cashFlows : list T) (i : nat) : list T :=
  alter (fun cf => cf * discount) i cashFlows.

(** The exercise loop of the regression branch. *)
Definition exerciseLoop (itmIndices : list nat) (meanY : T) (t : nat)
    (cashFlows : list T) : list T :=
  fold_left
    (fun cashFlows j =>
       let i := nth j itmIndices 0%nat in
       let spot := at2 paths i t in
       let exerciseValue := payoff option spot in
       let continuationValue := meanY in
       if continuationValue <? exerciseValue
       then <[ i := exerciseValue ]> cashFlows
       else discountAt cashFlows i)
    (seq 0 (length itmIndices))
    cashFlows.

(** The loop that discounts the paths that are not in [itmIndices]. *)
Definition discountOTM (itmIndices : list nat) (cashFlows : list T) : list T :=
  fold_left
    (fun cashFlows i =>
       let isITM := existsb (fun idx => Nat.eqb idx i) itmIndices in
       if negb isITM then discountAt cashFlows i else cashFlows)
    (seq 0 numSims)
    cashFlows.

(** One iteration of the backward induction, at time step [t]. *)
Definition backwardStep (cashFlows : list T) (t : nat) : list T :=
  let c := collectITM cashFlows t in
  let cashFlows1 :=
    if (10 <? length (itmIndices c))%nat
    then
      let n := Z.of_nat (length (X c)) in
      let s := regressionSums (X c) (Y c) in
      let meanY := sum_y s / of_int n in
      exerciseLoop (itmIndices c) meanY t cashFlows
    else
      fold_left discountAt (itmIndices c) cashFlows in
  discountOTM (itmIndices c) cashFlows1.

(** The test of the collecting loop, [option.payoff(paths[i][t]) > 0], and
    the indices that pass it. *)
Definition inTheMoney (t i : nat) : bool :=
  of_int 0 <? payoff option (at2 paths i t).

Definition itmPaths (t : nat) : list nat :=
  List.filter (inTheMoney t) (seq 0 numSims).

End BackwardInduction.

(** The rest of [priceAmerican], from the final cash flows on. *)
Definition americanResult (numSimulations : Z) (cashFlows : list T) (discount : T)
    : MCResult :=
  let sum := accumulate cashFlows in
  let mean := sum / of_int numSimulations in
  let price := mean * discount in
  let sumSquared := sumSquaredDiff cashFlows mean in
  let variance := sumSquared / of_int (numSimulations - 1) in
  let standardError := discount * sqrt (variance / of_int numSimulations) in
  {| price := price;
     standardError := standardError;
     confidence95Lower := price - lit 1.96 * standardError;
     confidence95Upper := price + lit 1.96 * standardError;
     numSimulations := numSimulations |}.

(** The time steps of the backward induction: [numSteps_ - 1] down to 1. *)
Definition backwardTimes (numSteps : Z) : list nat :=
  rev (seq 1 (Z.to_nat (numSteps - 1))).

Definition priceAmerican (e : MonteCarloEngine) (option : Option_)
    (S0 r sigma : T) : MCResult * MonteCarloEngine :=
  let T_mat := maturity_ option in
  let dt := T_mat / of_int (numSteps_ e) in
  let discount := exp (- r * dt) in
  let numSims := Z.to_nat (numSimulations_ e) in
  let '(paths, g) :=
    generatePaths numSims (numSteps_ e) S0 r sigma T_mat (generator_ e) in
  let cashFlows0 :=
    map (fun i => payoff option (at2 paths i (Z.to_nat (numSteps_ e))))
        (seq 0 numSims) in
  let cashFlows :=
    fold_left (backwardStep option paths discount numSims)
              (backwardTimes (numSteps_ e)) cashFlows0 in
  (americanResult (numSimulations_ e) cashFlows discount, with_generator e g).

Definition MonteCarloEngine_price (e : MonteCarloEngine) (option : Option_)
    (S0 r sigma : T) : MCResult * MonteCarloEngine :=
  match style_ option with
  | EUROPEAN => priceEuropean e option S0 r sigma
  | AMERICAN => priceAmerican e option S0 r sigma
  end.

End Engine.
End Sources.

(** ** VolatilityPredictor.h, VolatilityPredictor.cpp *)

Section Predictors.
Context {T : Type} {arith : Arith T}.
Local Open Scope arith_scope.

(** The abstract class [VolatilityPredictor]. *)
Class VolatilityPredictor (P : Type) := {
  predict : P -> list T -> throws T;
  getModelName : P -> string
}.

Record HistoricalVolatility := { windowSize_ : Z }.

Definition HistoricalVolatility_new (windowSize : Z) : throws HistoricalVolatility :=
  if (windowSize <=? 1)%Z
  then throw (invalid_argument "Window size must be greater than 1")
  else ret {| windowSize_ := windowSize |}.

(** The indices [returns.size() - n], ..., [returns.size() - 1] of the two
    loops of [HistoricalVolatility::predict]. *)
Definition window (size n : Z) : list nat :=
  seq (Z.to_nat (size - n)) (Z.to_nat n).

Definition HistoricalVolatility_predict (h : HistoricalVolatility)
    (returns : list T) : throws T :=
  if (length returns =? 0)%nat
  then throw (invalid_argument "Returns vector is empty")
  else
    let size := Z.of_nat (length returns) in
    let n := if (size <? windowSize_ h)%Z then size else windowSize_ h in
    let sum := fold_left (fun sum i => sum + at_ returns i) (window size n) (lit 0.0) in
    let mean := sum / of_int n in
    let variance :=
      fold_left (fun variance i =>
                   let diff := at_ returns i - mean in
                   variance + diff * diff)
                (window size n) (lit 0.0) in
    let variance := variance / of_int (n - 1) in
    ret (sqrt (variance * lit 252.0)).

Record EWMAVolatility := { lambda_ : T }.

Definition EWMAVolatility_new (lambda : T) : throws EWMAVolatility :=
  if (lambda <=? of_int 0) || (of_int 1 <=? lambda)
  then throw (invalid_argument "Lambda must be between 0 and 1")
  else ret {| lambda_ := lambda |}.

(** The recursion of [EWMAVolatility::predict] over the indices 1, ...,
    [returns.size() - 1], from the square of the first return. *)
Definition ewmaVariance (lambda : T) (returns : list T) : T :=
  fold_left
    (fun variance i =>
       lambda * variance + (lit 1.0 - lambda) * at_ returns i * at_ returns i)
    (seq 1 (length returns - 1))
    (at_ returns 0 * at_ returns 0).

Definition EWMAVolatility_predict (w : EWMAVolatility) (returns : list T)
    : throws T :=
  if (length returns =? 0)%nat
  then throw (invalid_argument "Returns vector is empty")
  else
    let variance := ewmaVariance (lambda_ w) returns in
    ret (sqrt (variance * lit 252.0)).

Record MLVolatilityPredictor := {
  pythonModulePath_ : string;
  isPythonInitialized_ : bool
}.

Definition MLVolatilityPredictor_new (modulePath : string) : MLVolatilityPredictor :=
  {| pythonModulePath_ := modulePath; isPythonInitialized_ := false |}.

Definition MLVolatilityPredictor_predict (m : MLVolatilityPredictor)
    (returns : list T) : throws T :=
  if (length returns =? 0)%nat
  then throw (invalid_argument "Returns vector is empty")
  else
    match EWMAVolatility_new (lit 0.94) with
    | inl e => throw e
    | inr ewma => EWMAVolatility_predict ewma returns
    end.

#[export] Instance Historical : VolatilityPredictor HistoricalVolatility := {|
  predict := HistoricalVolatility_predict;
  getModelName := fun _ => "Historical"%string
|}.

#[export] Instance EWMA : VolatilityPredictor EWMAVolatility := {|
  predict := EWMAVolatility_predict;
  getModelName := fun _ => "EWMA"%string
|}.

#[export] Instance MLBased : VolatilityPredictor MLVolatilityPredictor := {|
  predict := MLVolatilityPredictor_predict;
  getModelName := fun _ => "ML-Based"%string
|}.

End Predictors.

(** ** The regression of the specification

    The specification compares the exercise value with the prediction, at the
    spot of the path, of the least-squares fit of a + b S + c S^2 to the
    in-the-money paths.  Its coefficients solve the normal equations

      n a     + sum_x b  + sum_x2 c = sum_y
      sum_x a + sum_x2 b + sum_x3 c = sum_xy
      sum_x2 a + sum_x3 b + sum_x4 c = sum_x2y

    written in the sums the source accumulates; they are solved here by
    Cramer's rule.  The source has no counterpart of these definitions. *)

Section SpecRegression.
Context {T : Type} {arith : Arith T}.
Local Open Scope arith_scope.

Definition det3 (a11 a12 a13 a21 a22 a23 a31 a32 a33 : T) : T :=
  a11 * (a22 * a33 - a23 * a32)
  - a12 * (a21 * a33 - a23 * a31)
  + a13 * (a21 * a32 - a22 * a31).

Definition spec_fittedPrediction (n : T) (s : sums) (x : T) : T :=
  let D := det3 n (sum_x s) (sum_x2 s)
                (sum_x s) (sum_x2 s) (sum_x3 s)
                (sum_x2 s) (sum_x3 s) (sum_x4 s) in
  let a := det3 (sum_y s) (sum_x s) (sum_x2 s)
                (sum_xy s) (sum_x2 s) (sum_x3 s)
                (sum_x2y s) (sum_x3 s) (sum_x4 s) / D in
  let b := det3 n (sum_y s) (sum_x2 s)
                (sum_x s) (sum_xy s) (sum_x3 s)
                (sum_x2 s) (sum_x2y s) (sum_x4 s) / D in
  let c := det3 n (sum_x s) (sum_y s)
                (sum_x s) (sum_x2 s) (sum_xy s)
                (sum_x2 s) (sum_x3 s) (sum_x2y s) / D in
  a + b * x + c * (x * x).

End SpecRegression.

(** ** The statistics of the specification

    The sample mean and the unbiased sample variance of a list of reals, as
    the specification words them. *)

Definition Rsum (l : list R) : R := fold_right Rplus 0%R l.

Definition spec_mean (l : list R) : R := (Rsum l / INR (length l))%R.

Definition spec_unbiasedVariance (l : list R) : R :=
  (Rsum (map (fun p => (p - spec_mean l) * (p - spec_mean l)) l)
   / (INR (length l) - 1))%R.

(** ** Vocabulary of the statements *)

(** Membership in a vector of indices, as the inner loop of the
    out-of-the-money loop searches it. *)
Definition mem (i : nat) (l : list nat) : bool :=
  existsb (fun idx => Nat.eqb idx i) l.

(** *** The rounding of binary64

    The specification of the primitive floats rounds a mantissa [M] at an
    exponent [e] in stages: each stage drops the low bits of [M] that do not
    fit the 53 digits of the format, or lie below its least exponent -1074.
    [scaled M e] is the value M * 2^e in units of 2^-1074, an integer. *)

Notation fexp64 := (SpecFloat.fexp prec emax).

Definition digits (p : positive) : Z := Zpos (digits2_pos p).

Definition scaled (M e : Z) : Z := (M * 2 ^ (e + 1074))%Z.

Definition canonical (m : positive) (e : Z) : Prop :=
  fexp64 (digits m + e)%Z = e.

Definition stage_n (M e : Z) : Z := (fexp64 (Zdigits2 M + e) - e)%Z.
Definition stage_m (M e : Z) : Z :=
  (if 0 <? stage_n M e then M / 2 ^ stage_n M e else M)%Z.
Definition stage_e (M e : Z) : Z :=
  (if 0 <? stage_n M e then e + stage_n M e else e)%Z.

(** A double that is a zero or a finite number, and one that is a zero, a
    positive finite number or plus infinity. *)
Definition sf_finite (x : spec_float) : bool :=
  match x with S754_zero _ | S754_finite _ _ _ => true | _ => false end.

Definition sf_nonneg (x : spec_float) : bool :=
  match x with
  | S754_zero _ | S754_finite false _ _ | S754_infinity false => true
  | _ => false
  end.

(** A double that is a NaN. *)
Definition isnan (x : float) : bool :=
  match Prim2SF x with S754_nan => true | _ => false end.

(** A double that is a NaN, a zero, a positive number or plus infinity, and
    one that is +0, a positive number or plus infinity. *)
Definition sf_nonneg_or_nan (x : spec_float) : bool :=
  match x with S754_nan => true | _ => sf_nonneg x end.

Definition sf_divisor (x : spec_float) : bool :=
  match x with
  | S754_zero false | S754_finite false _ _ | S754_infinity false => true
  | _ => false
  end.

(** A double that is a NaN, +0, a positive number or plus infinity. *)
Definition sf_divisor_or_nan (x : spec_float) : bool :=
  match x with S754_nan => true | _ => sf_divisor x end.

(** The arguments of one call of [price], and the engine after a sequence of
    calls, each made on the engine as the call before it left it. *)
Record PriceCall {T : Type} := {
  call_option : Option_ (T := T);
  call_S0 : T;
  call_r : T;
  call_sigma : T
}.
Arguments PriceCall : clear implicits.

Definition afterCalls {T : Type} {arith : Arith T} {cmath : Cmath T} {G : Type}
    (normal : G -> T * G) (e : MonteCarloEngine) (calls : list (PriceCall T))
    : MonteCarloEngine :=
  fold_left
    (fun e c => snd (MonteCarloEngine_price normal e (call_option c) (call_S0 c)
                                            (call_r c) (call_sigma c)))
    calls e.

(** What the test of the parity compares with 1e-8:
    [std::abs((call - put) - (S - K * std::exp(-r * T)))]. *)
Definition parityResidual {T : Type} {arith : Arith T} {cmath : Cmath T}
    (bs : BlackScholes) : T :=
  fabs ((callPrice bs - putPrice bs)
        - (S_ bs - K_ bs * exp (- r_ bs * T_ bs)))%A.

(** The returns that [HistoricalVolatility::predict] reads: the last
    [windowSize_], or all of them when there are fewer. *)
Definition recentReturns {T : Type} (h : HistoricalVolatility) (returns : list T)
    : list T :=
  skipn (length returns - Z.to_nat (windowSize_ h)) returns.

(** ** Inputs of the examples *)

(** Two paths of a call struck at 100 that are both out of the money at
    step 1, with cash flows 3 and 4 and a one-step discount factor 0.5. *)
Definition otm_option : Option_ :=
  {| strike_ := 100%float; maturity_ := 1%float; type_ := CALL; style_ := AMERICAN |}.
Definition otm_paths : list (list float) :=
  [[100; 90; 103]; [100; 80; 104]]%float.
Definition otm_cashFlows : list float := [3; 4]%float.

(** Eleven paths of a put struck at 100, all in the money at step 1, where
    their spots are 40, 45, ..., 90; each ends at 100 minus that spot, so
    that its cash flow at maturity equals its spot at step 1.  With a
    discount factor 1 the discounted cash flows are the spots themselves and
    the least-squares fit is the identity. *)
Definition lsm_option : Option_ :=
  {| strike_ := 100%float; maturity_ := 1%float; type_ := PUT; style_ := AMERICAN |}.
Definition lsm_paths : list (list float) :=
  [[100; 40; 60]; [100; 45; 55]; [100; 50; 50]; [100; 55; 45];
   [100; 60; 40]; [100; 65; 35]; [100; 70; 30]; [100; 75; 25];
   [100; 80; 20]; [100; 85; 15]; [100; 90; 10]]%float.
Definition lsm_cashFlows : list float :=
  map (fun i => payoff lsm_option (at2 lsm_paths i 2)) (seq 0 11).

(** A generator that draws 0, 1, 2, ... in turn, an engine for one path of
    one step seeded from it, and a European put struck at 100. *)
Definition counter_seed (seed : Z) : nat := 0%nat.
Definition counter_normal (g : nat) : R * nat := (INR g, Datatypes.S g).
Definition counter_engine : MonteCarloEngine :=
  {| numSimulations_ := 1; numSteps_ := 1; seed_ := 42; generator_ := 0%nat |}.
Definition put100 : Option_ :=
  {| strike_ := 100%R; maturity_ := 1%R; type_ := PUT; style_ := EUROPEAN |}.

(** Ten terminal prices of a call struck at 50: nine times 100 and once the
    next double above 100. *)
Definition absorbed_option : Option_ :=
  {| strike_ := 50%float; maturity_ := 1%float; type_ := CALL; style_ := EUROPEAN |}.
Definition absorbed_terminal : list float :=
  [100; 100; 100; 100; 100; 100; 100; 100; 100; 100 + 0x1p-46]%float.

(** Two <cmath> for the examples in binary64: one whose functions are the
    identity, one whose [exp] is the constant 1. *)
Definition identity_cmath : Cmath float :=
  {| exp := fun x => x; log := fun x => x; erfc := fun x => x |}.

Definition constant_cmath : Cmath float :=
  {| exp := fun _ => 1%float; log := fun x => x; erfc := fun x => x |}.

(** A generator that always draws 0.5, and an engine for two paths of one
    step. *)
Definition half_normal (g : Z) : float * Z := (0.5%float, (g + 1)%Z).
Definition half_engine : MonteCarloEngine :=
  {| numSimulations_ := 2; numSteps_ := 1; seed_ := 42; generator_ := 42%Z |}.

(** A generator seeded with the seed itself, and an engine for two paths of
    three steps. *)
Definition half_seed (seed : Z) : Z := seed.
Definition three_step_engine : MonteCarloEngine :=
  {| numSimulations_ := 2; numSteps_ := 3; seed_ := 42; generator_ := 42%Z |}.

(** A <cmath> given by tables: at a tabulated argument a function returns the
    tabulated value, elsewhere a NaN. *)
Definition tabulated (table : list (float * float)) (x : float) : float :=
  match List.find (fun p => PrimFloat.eqb (fst p) x) table with
  | Some p => snd p
  | None => nan
  end.

Definition tabulated_cmath (exp_table log_table erfc_table : list (float * float))
    : Cmath float :=
  {| exp := tabulated exp_table; log := tabulated log_table;
     erfc := tabulated erfc_table |}.

(** The pricer of S = K = 1e10, r = 0.05, T = 1, sigma = 0.2, whose [d1] and
    [d2] are 0.35000000000000003 and 0.15000000000000002, and the arguments
    its two prices pass to <cmath>: exp(-0.05), log(1) and erfc at
    -d1 / sqrt 2, -d2 / sqrt 2, d1 / sqrt 2 and d2 / sqrt 2, each with the
    double nearest to the value of the function.  The last value of erfc is
    left open: the nearest double is 0x1.c2f3946406fbbp-1, and an erfc that
    is accurate to one unit in the last place may as well return
    0x1.c2f3946406fbcp-1. *)
Definition parity_bs : BlackScholes :=
  {| S_ := 1e10; K_ := 1e10; r_ := 0.05; T_ := 1; sigma_ := 0.2 |}%float.
Definition parity_exp : list (float * float) :=
  [(-0x1.999999999999ap-5, 0x1.e7078b0a726a6p-1)]%float.
Definition parity_log : list (float * float) := [(1, 0)]%float.
Definition parity_erfc (last : float) : list (float * float) :=
  [(-0x1.fadaa8f7eed53p-3, 0x1.460eaac7c7829p+0);
   (-0x1.b27247aff1491p-4, 0x1.1e8635cdfc822p+0);
   (0x1.fadaa8f7eed53p-3, 0x1.73e2aa7070faep-1);
   (0x1.b27247aff1491p-4, last)]%float.
Definition parity_cmath (last : float) : Cmath float :=
  tabulated_cmath parity_exp parity_log (parity_erfc last).

(** * Properties *)

(** ** The implied-volatility search, for every arithmetic *)

Section NewtonFacts.
Context {T : Type} {arith : Arith T} {cmath : Cmath T}.
Variables (marketPrice S K r T_mat : T) (type : OptionType) (tolerance : T).

Local Notation new_ := (BlackScholes_new S K r T_mat).
Local Notation enters_ := (enters marketPrice S K r T_mat type tolerance).
Local Notation newton_ := (newton marketPrice S K r T_mat type tolerance).
Local Notation constructed_ := (constructed S K r T_mat).
Local Notation meets_ := (meets_tolerance marketPrice type tolerance).
Local Notation small_ := (vega_too_small).
Local Notation update_ := (newton_update marketPrice type).
Local Notation halts_ := (halts_at marketPrice S K r T_mat type tolerance).

Lemma BlackScholes_new_throws sigma e :
  new_ sigma = inl e -> e = invalid_argument "All parameters must be positive".
Proof.
  unfold BlackScholes_new.
  destruct (_ || _); unfold throw, ret; intros Heq; congruence.
Qed.

Lemma enters_functional k sigma sigma' :
  enters_ k sigma -> enters_ k sigma' -> sigma = sigma'.
Proof.
  intros He. revert sigma'.
  induction He as [|k sigma bs He IH Hc Hm Hv]; intros sigma' He'.
  - inversion He'. reflexivity.
  - inversion He' as [|k' sigma0 bs0 He0 Hc0 Hm0 Hv0]; subst.
    apply IH in He0. subst sigma0.
    unfold constructed in *. congruence.
Qed.

(** Every iteration before one that is entered went through all three tests. *)
Lemma enters_prefix j sigma' :
  enters_ j sigma' ->
  forall k, (k < j)%nat ->
  exists sigma bs, enters_ k sigma /\ constructed_ sigma bs /\
                   meets_ bs = false /\ small_ bs = false.
Proof.
  induction 1 as [|j sigma bs He IH Hc Hm Hv]; intros k Hk; [lia|].
  destruct (Nat.eq_dec k j) as [->|Hne].
  - exists sigma, bs. auto.
  - apply IH. lia.
Qed.

Lemma halts_at_last k out :
  halts_ k out -> forall j sigma, (k < j)%nat -> ~ enters_ j sigma.
Proof.
  intros (sigma & He & Hout) j sigma' Hlt Hj.
  destruct (enters_prefix _ _ Hj k Hlt) as (s & bs & He' & Hc & Hm & Hv).
  rewrite (enters_functional _ _ _ He He') in Hout.
  unfold constructed in Hc. rewrite Hc, Hm in Hout.
  destruct Hout as [Hout _]. congruence.
Qed.

Lemma halts_at_unique k out k' out' :
  halts_ k out -> halts_ k' out' -> k = k' /\ out = out'.
Proof.
  intros Hk Hk'.
  assert (k = k') as <-.
  { destruct (Nat.lt_trichotomy k k') as [Hlt|[Heq|Hlt]]; [|assumption|].
    - destruct Hk' as (s & He & _). destruct (halts_at_last _ _ Hk _ _ Hlt He).
    - destruct Hk as (s & He & _). destruct (halts_at_last _ _ Hk' _ _ Hlt He). }
  split; [reflexivity|].
  destruct Hk as (s & He & Hout), Hk' as (s' & He' & Hout').
  rewrite <- (enters_functional _ _ _ He He') in Hout'.
  destruct (new_ s) as [e|bs]; [congruence|].
  destruct (meets_ bs); [congruence|].
  destruct Hout, Hout'. congruence.
Qed.

(** The loop, started in iteration [k] with [n] iterations left, either halts
    in one of them or runs through all of them and throws. *)
Lemma newton_run n : forall k sigma0,
  enters_ k sigma0 ->
  (exists j, (k <= j < k + n)%nat /\ halts_ j (newton_ n sigma0)) \/
  (newton_ n sigma0 = inl ConvergenceFailure /\
   exists sigma, enters_ (k + n) sigma).
Proof.
  induction n as [|n IH]; intros k sigma0 He; simpl.
  - right. split; [reflexivity|]. exists sigma0. now rewrite Nat.add_0_r.
  - destruct (new_ sigma0) as [e|bs] eqn:Hnew.
    + left. exists k. split; [lia|]. exists sigma0. split; [assumption|].
      now rewrite Hnew.
    + destruct (fabs (BlackScholes_price bs type - marketPrice) <? tolerance)%A
        eqn:Hm.
      * left. exists k. split; [lia|]. exists sigma0. split; [assumption|].
        rewrite Hnew. unfold meets_tolerance. now rewrite Hm.
      * destruct (vega bs <? lit 1e-10)%A eqn:Hv.
        -- left. exists k. split; [lia|]. exists sigma0. split; [assumption|].
           rewrite Hnew. unfold meets_tolerance. rewrite Hm. auto.
        -- assert (Hnext : enters_ (Datatypes.S k) (update_ sigma0 bs))
             by (apply enters_next; assumption).
           destruct (IH _ _ Hnext) as [(j & Hj & Hh)|(Hcf & s & Hs)].
           ++ left. exists j. split; [lia|]. exact Hh.
           ++ right. split; [exact Hcf|]. exists s.
              now replace (k + Datatypes.S n)%nat with (Datatypes.S k + n)%nat by lia.
Qed.

Lemma halts_at_not_ConvergenceFailure k :
  ~ halts_ k (inl ConvergenceFailure).
Proof.
  intros (s & He & Hout).
  destruct (new_ s) as [e|bs] eqn:Hnew.
  - apply BlackScholes_new_throws in Hnew. subst e. discriminate Hout.
  - destruct (meets_ bs); [discriminate Hout|].
    destruct Hout as [_ Hout]. discriminate Hout.
Qed.

(** The call halts in iteration [k] with [out] exactly when it yields [out],
    and it throws [ConvergenceFailure] exactly when iteration
    [maxIterations] would be entered. *)
Lemma impliedVolatility_halts maxIterations k out :
  (k < Z.to_nat maxIterations)%nat -> halts_ k out ->
  impliedVolatility marketPrice S K r T_mat type tolerance maxIterations = out.
Proof.
  intros Hk Hh. unfold impliedVolatility.
  destruct (newton_run (Z.to_nat maxIterations) 0 (lit 0.2))
    as [(j & Hj & Hj')|(_ & s & Hs)]; [constructor| |].
  - destruct (halts_at_unique _ _ _ _ Hh Hj') as [_ ->]. reflexivity.
  - destruct (halts_at_last _ _ Hh _ _ Hk Hs).
Qed.

Lemma impliedVolatility_exhausted maxIterations sigma :
  enters_ (Z.to_nat maxIterations) sigma ->
  impliedVolatility marketPrice S K r T_mat type tolerance maxIterations
  = inl ConvergenceFailure.
Proof.
  intros Hs. unfold impliedVolatility.
  destruct (newton_run (Z.to_nat maxIterations) 0 (lit 0.2))
    as [(j & Hj & Hj')|(Hcf & _)]; [constructor| |assumption].
  destruct (halts_at_last _ _ Hj' _ _ (proj2 Hj) Hs).
Qed.

Lemma impliedVolatility_cases maxIterations :
  let out := impliedVolatility marketPrice S K r T_mat type tolerance maxIterations in
  (exists k, (k < Z.to_nat maxIterations)%nat /\ halts_ k out) \/
  (out = inl ConvergenceFailure /\ exists sigma, enters_ (Z.to_nat maxIterations) sigma).
Proof.
  unfold impliedVolatility.
  destruct (newton_run (Z.to_nat maxIterations) 0 (lit 0.2))
    as [(j & Hj & Hj')|Hr]; [constructor| |right; exact Hr].
  left. exists j. split; [lia|assumption].
Qed.

End NewtonFacts.

(** ** The iterations of the search and the loop that runs them *)

Section NewtonContinues.
Context {T : Type} {arith : Arith T} {cmath : Cmath T}.
Variables (marketPrice S K r T_mat : T) (type : OptionType) (tolerance : T).

(** A call whose budget covers iteration [k] reaches it with the loop holding
    the entered [sigma] and the rest of the budget. *)
Lemma newton_continues k sigma :
  enters marketPrice S K r T_mat type tolerance k sigma ->
  forall n,
    impliedVolatility marketPrice S K r T_mat type tolerance (Z.of_nat (k + n))
    = newton marketPrice S K r T_mat type tolerance n sigma.
Proof.
  unfold impliedVolatility.
  induction 1 as [|k sigma bs He IH Hc Hm Hv]; intros n.
  - now rewrite Nat2Z.id.
  - replace (Datatypes.S k + n)%nat with (k + Datatypes.S n)%nat by lia.
    rewrite IH. cbn [newton]. unfold constructed in Hc. rewrite Hc.
    unfold meets_tolerance in Hm. rewrite Hm.
    unfold vega_too_small in Hv. rewrite Hv. reflexivity.
Qed.

(** A call that throws the convergence error ran through its whole budget. *)
Lemma impliedVolatility_runs_through (k : nat) :
  impliedVolatility marketPrice S K r T_mat type tolerance (Z.of_nat k)
  = inl ConvergenceFailure ->
  exists sigma, enters marketPrice S K r T_mat type tolerance k sigma.
Proof.
  intros Hout.
  destruct (impliedVolatility_cases marketPrice S K r T_mat type tolerance
              (Z.of_nat k)) as [(j & _ & Hh)|(_ & Hs)].
  - rewrite Hout in Hh.
    destruct (halts_at_not_ConvergenceFailure _ _ _ _ _ _ _ _ Hh).
  - now rewrite Nat2Z.id in Hs.
Qed.

End NewtonContinues.

(** C3.  [impliedVolatility] returns [sigma] exactly when an iteration within
    the budget is entered with [sigma] and meets the tolerance; it throws the
    vega error exactly when an iteration within the budget fails the
    tolerance test and finds vega below 1e-10; it throws the convergence
    error exactly when all [maxIterations] iterations are run through, and
    then returns no estimate. *)
Theorem impliedVolatility_outcomes
    {T : Type} {arith : Arith T} {cmath : Cmath T}
    (marketPrice S K r T_mat : T) (type : OptionType) (tolerance : T)
    (maxIterations : Z) :
  let out := impliedVolatility marketPrice S K r T_mat type tolerance maxIterations in
  let iteration := enters marketPrice S K r T_mat type tolerance in
  let N := Z.to_nat maxIterations in
  (forall sigma,
     out = inr sigma <->
     exists k bs, (k < N)%nat /\ iteration k sigma /\
       constructed S K r T_mat sigma bs /\
       meets_tolerance marketPrice type tolerance bs = true)
  /\ (out = inl VegaTooSmall <->
      exists k sigma bs, (k < N)%nat /\ iteration k sigma /\
        constructed S K r T_mat sigma bs /\
        meets_tolerance marketPrice type tolerance bs = false /\
        vega_too_small bs = true)
  /\ (out = inl ConvergenceFailure <-> exists sigma, iteration N sigma).
Proof.
  intros out iteration N.
  pose proof (impliedVolatility_cases marketPrice S K r T_mat type tolerance
                maxIterations) as Hcases.
  fold out in Hcases. fold N in Hcases.
  repeat split.
  - intros Hout.
    destruct Hcases as [(k & Hk & s & He & Hh)|(Hcf & _)]; [|congruence].
    exists k. rewrite Hout in Hh.
    destruct (BlackScholes_new S K r T_mat s) as [e|bs] eqn:Hnew; [discriminate|].
    exists bs. destruct (meets_tolerance marketPrice type tolerance bs) eqn:Hm.
    + injection Hh as ->. auto.
    + destruct Hh as [_ Hh]. discriminate.
  - intros (k & bs & Hk & He & Hc & Hm).
    apply impliedVolatility_halts with (k := k); [assumption|].
    exists sigma. split; [assumption|]. unfold constructed in Hc.
    now rewrite Hc, Hm.
  - intros Hout.
    destruct Hcases as [(k & Hk & s & He & Hh)|(Hcf & _)];
      [|rewrite Hout in Hcf; discriminate].
    exists k, s. rewrite Hout in Hh.
    destruct (BlackScholes_new S K r T_mat s) as [e|bs] eqn:Hnew.
    + apply BlackScholes_new_throws in Hnew. subst e. discriminate.
    + exists bs. destruct (meets_tolerance marketPrice type tolerance bs) eqn:Hm;
        [discriminate|]. destruct Hh as [Hv _]. auto.
  - intros (k & s & bs & Hk & He & Hc & Hm & Hv).
    apply impliedVolatility_halts with (k := k); [assumption|].
    exists s. split; [assumption|]. unfold constructed in Hc.
    now rewrite Hc, Hm.
  - intros Hout.
    destruct Hcases as [(k & Hk & Hh)|(_ & Hs)]; [|exact Hs].
    rewrite Hout in Hh. destruct (halts_at_not_ConvergenceFailure _ _ _ _ _ _ _ _ Hh).
  - intros (s & Hs). exact (impliedVolatility_exhausted _ _ _ _ _ _ _ _ _ Hs).
Qed.

(** ** Order facts of binary64 *)

Lemma SFcompare_antisym x y :
  SFcompare y x = option_map CompOpp (SFcompare x y).
Proof.
  destruct x as [sx|sx| |sx mx ex], y as [sy|sy| |sy my ey]; simpl;
    try reflexivity;
    try (destruct sx; reflexivity); try (destruct sy; reflexivity);
    try (destruct sx, sy; reflexivity).
  destruct sx, sy; simpl; try reflexivity;
    rewrite (Z.compare_antisym ey ex), !Pos.compare_cont_spec,
            (Pos.compare_antisym my mx);
    destruct (ey ?= ex)%Z; simpl; try reflexivity;
    destruct (my ?= mx)%positive; reflexivity.
Qed.

Lemma ltb_leb (x y : float) : PrimFloat.ltb x y = true -> PrimFloat.leb x y = true.
Proof.
  rewrite ltb_spec, leb_spec. unfold SFltb, SFleb.
  destruct (SFcompare _ _) as [[]|]; congruence.
Qed.

Lemma ltb_not_leb (x y : float) : PrimFloat.ltb x y = true -> PrimFloat.leb y x = false.
Proof.
  rewrite ltb_spec, leb_spec. unfold SFltb, SFleb.
  rewrite (SFcompare_antisym (Prim2SF x) (Prim2SF y)).
  destruct (SFcompare _ _) as [[]|]; simpl; congruence.
Qed.

(** For comparable operands, [x <= y] holds when [y < x] does not. *)
Lemma not_ltb_leb (a x y : float) :
  PrimFloat.ltb a x = true -> PrimFloat.leb y y = true ->
  PrimFloat.ltb y x = false -> PrimFloat.leb x y = true.
Proof.
  rewrite !ltb_spec, !leb_spec. unfold SFltb, SFleb.
  rewrite (SFcompare_antisym (Prim2SF y) (Prim2SF x)).
  destruct (Prim2SF x) as [sx|sx| |sx mx ex] eqn:Hx;
    destruct (Prim2SF y) as [sy|sy| |sy my ey] eqn:Hy;
    try (destruct (Prim2SF a); simpl; congruence);
    try (simpl; congruence);
    intros _ _; destruct (SFcompare _ _) as [[]|] eqn:Hc; simpl; try congruence;
    simpl in Hc; congruence.
Qed.

(** The clamp of [impliedVolatility] lands in [0.001, 5.0], also on a NaN. *)
Lemma clamp_bounds (x : float) :
  PrimFloat.leb 0.001 (clamp x) = true /\ PrimFloat.leb (clamp x) 5.0 = true.
Proof.
  unfold clamp, std_min, std_max, lit, ltb; simpl.
  destruct (PrimFloat.ltb 5.0 x) eqn:H5.
  - split; reflexivity.
  - destruct (PrimFloat.ltb 0.001 x) eqn:H1.
    + split; [now apply ltb_leb|].
      apply (not_ltb_leb 0.001); [assumption|reflexivity|assumption].
    + split; reflexivity.
Qed.

Lemma above_0_001_positive (x : float) :
  PrimFloat.leb 0.001 x = true ->
  PrimFloat.ltb 0 x = true /\ PrimFloat.leb x 0 = false.
Proof.
  intros Hx.
  assert (Hlt : PrimFloat.ltb 0 x = true).
  { revert Hx. rewrite leb_spec, ltb_spec. unfold SFleb, SFltb.
    replace (Prim2SF 0.001) with (S754_finite false 4611686018427388 (-62))
      by reflexivity.
    replace (Prim2SF 0) with (S754_zero false) by reflexivity.
    destruct (Prim2SF x) as [sx|sx| |sx mx ex]; simpl;
      try congruence; destruct sx; simpl; congruence. }
  split; [assumption|]. now apply ltb_not_leb.
Qed.

(** ** Rounding in binary64 *)

Section Binary64Rounding.
Local Open Scope Z_scope.

Lemma digits2_size p : digits2_pos p = Pos.size p.
Proof. induction p; simpl; congruence. Qed.

Lemma digits_bounds p : 2 ^ (digits p - 1) <= Zpos p < 2 ^ digits p.
Proof.
  unfold digits. rewrite digits2_size. split.
  - pose proof (Pos.size_le p) as H.
    assert (H2 : (Zpos (2 ^ Pos.size p) <= Zpos p~0)) by exact H.
    rewrite Pos2Z.inj_pow in H2.
    replace (Zpos (Pos.size p)) with (Zpos (Pos.size p) - 1 + 1) in H2 by lia.
    rewrite Z.pow_add_r in H2 by lia. change (2 ^ 1) with 2 in H2. lia.
  - pose proof (Pos.size_gt p) as H.
    assert (H2 : (Zpos p < Zpos (2 ^ Pos.size p))) by exact H.
    now rewrite Pos2Z.inj_pow in H2.
Qed.

Lemma digits_pos p : 0 < digits p.
Proof. unfold digits. lia. Qed.

Lemma fexp64_eq e : fexp64 e = Z.max (e - 53) (-1074).
Proof. reflexivity. Qed.


Lemma shr_1_m mrs : 0 <= shr_m mrs -> shr_m (shr_1 mrs) = Z.div2 (shr_m mrs).
Proof.
  destruct mrs as [m r s]. simpl. destruct m as [|p|p]; try lia; intros _.
  - reflexivity.
  - destruct p; reflexivity.
Qed.

Lemma pow2_xO n : 2 ^ Zpos n~0 = 2 ^ Zpos n * 2 ^ Zpos n.
Proof.
  assert (E : Zpos n~0 = Zpos n + Zpos n) by lia.
  rewrite E. apply Z.pow_add_r; lia.
Qed.

Lemma pow2_xI n : 2 ^ Zpos n~1 = 2 * (2 ^ Zpos n * 2 ^ Zpos n).
Proof.
  assert (E : Zpos n~1 = 1 + (Zpos n + Zpos n)) by lia.
  rewrite E, !Z.pow_add_r by lia. reflexivity.
Qed.

Lemma iter_pos_shr_m n : forall mrs, 0 <= shr_m mrs ->
  shr_m (SpecFloat.iter_pos shr_1 n mrs) = shr_m mrs / 2 ^ Zpos n.
Proof.
  induction n as [n IH|n IH|]; intros mrs Hm; simpl SpecFloat.iter_pos.
  - assert (H1 : 0 <= shr_m (shr_1 mrs)).
    { rewrite shr_1_m by assumption. rewrite Z.div2_div. apply Z.div_pos; lia. }
    assert (H2 : 0 <= shr_m (SpecFloat.iter_pos shr_1 n (shr_1 mrs))).
    { rewrite IH by assumption. apply Z.div_pos; lia. }
    rewrite IH, IH, shr_1_m, Z.div2_div by assumption.
    rewrite !Z.div_div by lia. now rewrite pow2_xI.
  - assert (H2 : 0 <= shr_m (SpecFloat.iter_pos shr_1 n mrs)).
    { rewrite IH by assumption. apply Z.div_pos; lia. }
    rewrite IH, IH by assumption.
    rewrite !Z.div_div by lia. now rewrite pow2_xO.
  - rewrite shr_1_m, Z.div2_div by assumption. reflexivity.
Qed.

Lemma scaled_pos M e : -1074 <= e -> 0 < M -> 0 < scaled M e.
Proof. intros. unfold scaled. apply Z.mul_pos_pos; [lia|]. apply Z.pow_pos_nonneg; lia. Qed.

Lemma scaled_shift M e n : 0 <= n -> -1074 <= e -> scaled M (e + n) = M * 2 ^ n * 2 ^ (e + 1074).
Proof.
  intros Hn He. unfold scaled.
  replace (e + n + 1074) with (n + (e + 1074)) by lia.
  rewrite Z.pow_add_r by lia. ring.
Qed.

Lemma scaled_le_iff M N e : -1074 <= e -> (scaled M e <= scaled N e <-> M <= N).
Proof.
  intros He. unfold scaled.
  assert (0 < 2 ^ (e + 1074)) by (apply Z.pow_pos_nonneg; lia). nia.
Qed.

Lemma scaled_lt_iff M N e : -1074 <= e -> (scaled M e < scaled N e <-> M < N).
Proof.
  intros He. unfold scaled.
  assert (0 < 2 ^ (e + 1074)) by (apply Z.pow_pos_nonneg; lia). nia.
Qed.

(** A smaller value has no more digits above its exponent. *)
Lemma digits_le a ea b eb :
  -1074 <= ea -> -1074 <= eb ->
  scaled (Zpos a) ea <= scaled (Zpos b) eb -> digits a + ea <= digits b + eb.
Proof.
  intros Ha Hb Hle. unfold scaled in Hle.
  destruct (digits_bounds a) as [Hlo _]. destruct (digits_bounds b) as [_ Hhi].
  pose proof (digits_pos a). pose proof (digits_pos b).
  assert (H1 : 2 ^ (digits a - 1 + (ea + 1074)) <= Zpos a * 2 ^ (ea + 1074)).
  { rewrite (Z.pow_add_r 2 (digits a - 1) (ea + 1074)) by lia.
    apply Z.mul_le_mono_nonneg_r; [|assumption].
    apply Z.pow_nonneg; lia. }
  assert (H2 : Zpos b * 2 ^ (eb + 1074) < 2 ^ (digits b + (eb + 1074))).
  { rewrite (Z.pow_add_r 2 (digits b) (eb + 1074)) by lia.
    apply Z.mul_lt_mono_pos_r; [|assumption].
    apply Z.pow_pos_nonneg; lia. }
  assert (H3 : 2 ^ (digits a - 1 + (ea + 1074)) < 2 ^ (digits b + (eb + 1074))) by lia.
  apply Z.pow_lt_mono_r_iff in H3; lia.
Qed.

Lemma fexp64_mono a b : a <= b -> fexp64 a <= fexp64 b.
Proof. rewrite !fexp64_eq. lia. Qed.

Lemma fexp64_ge e : -1074 <= fexp64 e.
Proof. rewrite fexp64_eq. lia. Qed.


Lemma canonical_ge m e : canonical m e -> -1074 <= e.
Proof. unfold canonical. rewrite fexp64_eq. lia. Qed.

Lemma canonical_dg m e : canonical m e -> digits m <= 53.
Proof. unfold canonical. rewrite fexp64_eq. lia. Qed.


Lemma shr_fexp_stage M e l : 0 <= M ->
  shr_m (fst (shr_fexp prec emax M e l)) = stage_m M e /\
  snd (shr_fexp prec emax M e l) = stage_e M e.
Proof.
  intros HM. unfold shr_fexp, stage_m, stage_e, shr. fold (stage_n M e).
  assert (Hrec : shr_m (shr_record_of_loc M l) = M) by (destruct l as [|[]]; reflexivity).
  destruct (stage_n M e) as [|p|p] eqn:Hn; simpl; try (split; [exact Hrec|reflexivity]).
  split; [|reflexivity]. rewrite iter_pos_shr_m by (rewrite Hrec; exact HM).
  now rewrite Hrec.
Qed.

Lemma stage_m_nonneg M e : 0 <= M -> 0 <= stage_m M e.
Proof.
  intros. unfold stage_m. destruct (0 <? stage_n M e) eqn:Hn; [|assumption].
  apply Z.ltb_lt in Hn.
  apply Z.div_pos; [assumption|]. apply Z.pow_pos_nonneg; lia.
Qed.

Lemma stage_e_ge M e : e <= stage_e M e.
Proof.
  unfold stage_e. destruct (0 <? stage_n M e) eqn:H; [|lia].
  apply Z.ltb_lt in H. lia.
Qed.

(** A stage does not increase the value. *)
Lemma stage_le M e : 0 <= M -> -1074 <= e -> scaled (stage_m M e) (stage_e M e) <= scaled M e.
Proof.
  intros HM He. unfold stage_m, stage_e.
  destruct (0 <? stage_n M e) eqn:H; [|lia]. apply Z.ltb_lt in H.
  rewrite scaled_shift by lia. unfold scaled.
  assert (0 < 2 ^ stage_n M e) by (apply Z.pow_pos_nonneg; lia).
  assert (0 < 2 ^ (e + 1074)) by (apply Z.pow_pos_nonneg; lia).
  pose proof (Z.mul_div_le M (2 ^ stage_n M e) ltac:(lia)). nia.
Qed.

(** A stage lowers the value by less than one unit of the new exponent. *)
Lemma stage_gt M e : 0 <= M -> -1074 <= e -> scaled M e < scaled (stage_m M e + 1) (stage_e M e).
Proof.
  intros HM He. unfold stage_m, stage_e.
  destruct (0 <? stage_n M e) eqn:H.
  - apply Z.ltb_lt in H. rewrite scaled_shift by lia. unfold scaled.
    assert (0 < 2 ^ stage_n M e) by (apply Z.pow_pos_nonneg; lia).
    assert (0 < 2 ^ (e + 1074)) by (apply Z.pow_pos_nonneg; lia).
    pose proof (Z.mul_succ_div_gt M (2 ^ stage_n M e) ltac:(lia)). nia.
  - apply scaled_lt_iff; lia.
Qed.

Lemma stage_e_fexp M e : 0 < stage_n M e -> stage_e M e = fexp64 (Zdigits2 M + e).
Proof.
  intros H. unfold stage_e. apply Z.ltb_lt in H. rewrite H. unfold stage_n. lia.
Qed.

Lemma round_nearest_even_bounds mx lx :
  mx <= round_nearest_even mx lx <= mx + 1.
Proof.
  unfold round_nearest_even. destruct lx as [|[]]; try lia.
  destruct (Z.even mx); lia.
Qed.

(** The result of [binary_round_aux] in terms of two stages. *)
Lemma binary_round_aux_stages s M e l : 0 <= M ->
  exists m1, stage_m M e <= m1 <= stage_m M e + 1 /\
    binary_round_aux prec emax s M e l
    = match stage_m m1 (stage_e M e) with
      | Z0 => S754_zero s
      | Zpos m =>
          if stage_e m1 (stage_e M e) <=? emax - prec
          then S754_finite s m (stage_e m1 (stage_e M e))
          else S754_infinity s
      | Zneg _ => S754_nan
      end.
Proof.
  intros HM. unfold binary_round_aux.
  destruct (shr_fexp_stage M e l HM) as [Hm He].
  destruct (shr_fexp prec emax M e l) as [mrs' e'] eqn:H1. simpl in Hm, He.
  set (m1 := round_nearest_even (shr_m mrs') (loc_of_shr_record mrs')).
  assert (Hb : stage_m M e <= m1 <= stage_m M e + 1).
  { rewrite <- Hm. apply round_nearest_even_bounds. }
  exists m1. split; [exact Hb|].
  assert (Hm1 : 0 <= m1) by (pose proof (stage_m_nonneg M e HM); lia).
  destruct (shr_fexp_stage m1 e' loc_Exact Hm1) as [Hm2 He2].
  destruct (shr_fexp prec emax m1 e' loc_Exact) as [mrs'' e''] eqn:H2.
  simpl in Hm2, He2. subst e' e''. rewrite Hm2. reflexivity.
Qed.

(** No NaN and the sign is kept. *)
Lemma binary_round_aux_shape s M e l : 0 <= M ->
  match binary_round_aux prec emax s M e l with
  | S754_zero s' | S754_infinity s' | S754_finite s' _ _ => s' = s
  | S754_nan => False
  end.
Proof.
  intros HM. destruct (binary_round_aux_stages s M e l HM) as (m1 & Hb & ->).
  assert (Hm1 : 0 <= m1) by (pose proof (stage_m_nonneg M e HM); lia).
  pose proof (stage_m_nonneg m1 (stage_e M e) Hm1) as Hq.
  destruct (stage_m m1 (stage_e M e)); try lia; try reflexivity.
  destruct (_ <=? _); reflexivity.
Qed.

(** Rounding a value below a representable one does not exceed it. *)
Lemma binary_round_aux_upper s M e l mp ep :
  0 < M -> -1074 <= e -> canonical mp ep -> ep <= emax - prec -> e <= ep ->
  scaled M e < scaled (Zpos mp) ep ->
  binary_round_aux prec emax s M e l = S754_zero s \/
  exists m' e', binary_round_aux prec emax s M e l = S754_finite s m' e' /\
                -1074 <= e' /\ scaled (Zpos m') e' <= scaled (Zpos mp) ep.
Proof.
  intros HM He Hcan Hep Hle Hlt.
  destruct (binary_round_aux_stages s M e l ltac:(lia)) as (m1 & Hb & ->).
  pose proof (canonical_ge _ _ Hcan) as Hepge.
  set (q := stage_m M e) in *. set (e1 := stage_e M e) in *.
  assert (Hq : 0 <= q) by (apply stage_m_nonneg; lia).
  assert (He1 : e <= e1) by apply stage_e_ge.
  assert (He1le : e1 <= ep).
  { subst e1. unfold stage_e. destruct (0 <? stage_n M e) eqn:Hn; [|assumption].
    apply Z.ltb_lt in Hn. unfold stage_n in *.
    destruct M as [|M|M]; try lia. simpl Zdigits2 in *. fold (digits M) in *.
    assert (digits M + e <= digits mp + ep) by (apply digits_le; lia).
    pose proof (fexp64_mono _ _ H). unfold canonical in Hcan. lia. }
  (* the representable value on the grid of e1 *)
  set (K := Zpos mp * 2 ^ (ep - e1)).
  assert (HK : scaled K e1 = scaled (Zpos mp) ep).
  { unfold scaled, K. rewrite <- Z.mul_assoc, <- Z.pow_add_r by lia. f_equal. f_equal. lia. }
  assert (Hqlt : q < K).
  { apply (scaled_lt_iff q K e1); [lia|]. rewrite HK.
    apply Z.le_lt_trans with (scaled M e); [|assumption]. apply stage_le; lia. }
  assert (Hm1K : scaled m1 e1 <= scaled (Zpos mp) ep).
  { rewrite <- HK. apply scaled_le_iff; lia. }
  assert (Hm1 : 0 <= m1) by lia.
  pose proof (stage_le m1 e1 Hm1 ltac:(lia)) as Hs2.
  pose proof (stage_m_nonneg m1 e1 Hm1) as Hq2.
  pose proof (stage_e_ge m1 e1) as He2.
  destruct (stage_m m1 e1) as [|m'|m'] eqn:Hq2e; [left; reflexivity| |lia].
  right.
  assert (He2le : stage_e m1 e1 <= ep).
  { unfold stage_e. destruct (0 <? stage_n m1 e1) eqn:Hn; [|assumption].
    apply Z.ltb_lt in Hn. unfold stage_n in *.
    destruct m1 as [|m1|m1]; try lia.
    - simpl Zdigits2 in *. unfold stage_m in Hq2e.
      destruct (0 <? stage_n 0 e1); simpl in Hq2e; discriminate.
    - simpl Zdigits2 in *. fold (digits m1) in *.
      assert (digits m1 + e1 <= digits mp + ep) by (apply digits_le; lia).
      pose proof (fexp64_mono _ _ H). unfold canonical in Hcan. lia. }
  exists m', (stage_e m1 e1).
  replace (stage_e m1 e1 <=? emax - prec) with true by (symmetry; apply Z.leb_le; lia).
  split; [reflexivity|]. split; [lia|]. lia.
Qed.

(** A stage keeps the value at or above a representable value below it. *)
Lemma stage_lower M e mp ep :
  0 < M -> -1074 <= e -> canonical mp ep ->
  scaled (Zpos mp) ep <= scaled M e ->
  scaled (Zpos mp) ep <= scaled (stage_m M e) (stage_e M e).
Proof.
  intros HM He Hcan Hle. unfold stage_m, stage_e.
  destruct (0 <? stage_n M e) eqn:Hn; [|assumption].
  apply Z.ltb_lt in Hn.
  pose proof (canonical_ge _ _ Hcan) as Hepge.
  pose proof (canonical_dg _ _ Hcan) as Hdg.
  destruct M as [|M|M]; try lia.
  assert (Hn53 : stage_n (Zpos M) e = digits M - 53).
  { unfold stage_n in *. simpl Zdigits2 in *. fold (digits M) in *.
    rewrite fexp64_eq in *. lia. }
  rewrite Hn53 in *.
  destruct (digits_bounds M) as [HMlo HMhi].
  assert (Hp : 0 < 2 ^ (digits M - 53)) by (apply Z.pow_pos_nonneg; lia).
  destruct (Z_le_gt_dec (e + (digits M - 53)) ep) as [Hgrid|Hgrid].
  - (* the representable value is on the new grid *)
    set (e2 := e + (digits M - 53)) in *.
    set (K := Zpos mp * 2 ^ (ep - e2)).
    assert (HK : scaled K e2 = scaled (Zpos mp) ep).
    { unfold scaled, K. rewrite <- Z.mul_assoc, <- Z.pow_add_r by lia. f_equal. f_equal. lia. }
    rewrite <- HK. apply scaled_le_iff; [lia|].
    apply Z.div_le_lower_bound; [lia|].
    rewrite <- HK in Hle. subst e2. rewrite scaled_shift in Hle by lia.
    unfold scaled in Hle. assert (0 < 2 ^ (e + 1074)) by (apply Z.pow_pos_nonneg; lia).
    nia.
  - (* the new exponent is above: the quotient has 53 digits *)
    assert (Hq : 2 ^ 52 <= Zpos M / 2 ^ (digits M - 53)).
    { apply Z.div_le_lower_bound; [lia|].
      rewrite <- Z.pow_add_r by lia. replace (digits M - 53 + 52) with (digits M - 1) by lia.
      assumption. }
    destruct (digits_bounds mp) as [_ Hmphi].
    assert (Hmp : Zpos mp < 2 ^ 53).
    { apply Z.lt_le_trans with (2 ^ digits mp); [assumption|].
      apply Z.pow_le_mono_r; lia. }
    apply Z.le_trans with (scaled (2 ^ 52) (e + (digits M - 53))).
    + unfold scaled. rewrite <- Z.pow_add_r by lia.
      apply Z.le_trans with (2 ^ 53 * 2 ^ (ep + 1074)).
      * apply Z.mul_le_mono_nonneg_r; [apply Z.pow_nonneg|]; lia.
      * rewrite <- Z.pow_add_r by lia. apply Z.pow_le_mono_r; lia.
    + apply scaled_le_iff; lia.
Qed.

(** Rounding a value above a representable one does not go below it. *)
Lemma binary_round_aux_lower s M e l mp ep :
  0 < M -> -1074 <= e -> canonical mp ep ->
  scaled (Zpos mp) ep <= scaled M e ->
  binary_round_aux prec emax s M e l = S754_infinity s \/
  exists m' e', binary_round_aux prec emax s M e l = S754_finite s m' e' /\
                -1074 <= e' /\ scaled (Zpos mp) ep <= scaled (Zpos m') e'.
Proof.
  intros HM He Hcan Hle.
  destruct (binary_round_aux_stages s M e l ltac:(lia)) as (m1 & Hb & ->).
  pose proof (canonical_ge _ _ Hcan) as Hepge.
  pose proof (stage_lower M e mp ep HM He Hcan Hle) as H1.
  pose proof (stage_e_ge M e) as He1.
  set (q := stage_m M e) in *. set (e1 := stage_e M e) in *.
  assert (Hppos : 0 < scaled (Zpos mp) ep) by (apply scaled_pos; lia).
  assert (Hqpos : 0 < q).
  { destruct (Z_lt_le_dec 0 q); [assumption|].
    assert (scaled q e1 <= 0); [|lia]. unfold scaled.
    assert (0 <= 2 ^ (e1 + 1074)) by (apply Z.pow_nonneg; lia). nia. }
  assert (Hm1 : 0 < m1) by lia.
  assert (H1' : scaled (Zpos mp) ep <= scaled m1 e1).
  { apply Z.le_trans with (scaled q e1); [assumption|]. apply scaled_le_iff; lia. }
  pose proof (stage_lower m1 e1 mp ep Hm1 ltac:(lia) Hcan H1') as H2.
  pose proof (stage_e_ge m1 e1) as He2.
  destruct (stage_m m1 e1) as [|m'|m'] eqn:Hq2e.
  - assert (scaled 0 (stage_e m1 e1) = 0) by reflexivity. lia.
  - destruct (stage_e m1 e1 <=? emax - prec); [right|left; reflexivity].
    exists m', (stage_e m1 e1). split; [reflexivity|]. split; [lia|assumption].
  - exfalso. assert (scaled (Zneg m') (stage_e m1 e1) <= 0); [|lia]. unfold scaled.
    assert (0 <= 2 ^ (stage_e m1 e1 + 1074)) by (apply Z.pow_nonneg; lia). nia.
Qed.

Lemma iter_xO m d : Zpos (Pos.iter xO m d) = Zpos m * 2 ^ Zpos d.
Proof.
  induction d as [|d IH] using Pos.peano_ind.
  - simpl. change (2 ^ 1) with 2. lia.
  - rewrite Pos.iter_succ.
    assert (E : Zpos (Pos.iter xO m d)~0 = 2 * Zpos (Pos.iter xO m d)) by lia.
    rewrite E, IH, Pos2Z.inj_succ, Z.pow_succ_r by lia. ring.
Qed.

Lemma shl_align_value mx ex ex' :
  -1074 <= ex -> -1074 <= ex' ->
  scaled (Zpos (fst (shl_align mx ex ex'))) (snd (shl_align mx ex ex')) = scaled (Zpos mx) ex /\
  snd (shl_align mx ex ex') = Z.min ex ex'.
Proof.
  intros Hex Hex'. unfold shl_align.
  destruct (ex' - ex) as [|d|d] eqn:Hd; cbn [fst snd]; try (split; [reflexivity|lia]).
  split; [|lia]. rewrite iter_xO. unfold scaled.
  rewrite <- Z.mul_assoc, <- Z.pow_add_r by lia. f_equal. f_equal. lia.
Qed.

Lemma binary_round_shape s m e :
  match binary_round prec emax s m e with
  | S754_zero s' | S754_infinity s' | S754_finite s' _ _ => s' = s
  | S754_nan => False
  end.
Proof.
  unfold binary_round. destruct (shl_align _ _ _) as [mz ez].
  apply binary_round_aux_shape. lia.
Qed.

Lemma binary_round_upper s m e mp ep :
  -1074 <= e -> canonical mp ep -> ep <= emax - prec -> e <= ep ->
  scaled (Zpos m) e < scaled (Zpos mp) ep ->
  binary_round prec emax s m e = S754_zero s \/
  exists m' e', binary_round prec emax s m e = S754_finite s m' e' /\
                -1074 <= e' /\ scaled (Zpos m') e' <= scaled (Zpos mp) ep.
Proof.
  intros He Hcan Hep Hle Hlt. unfold binary_round.
  destruct (shl_align_value m e (fexp64 (Zpos (digits2_pos m) + e)) He
              (fexp64_ge _)) as [Hv Hs].
  destruct (shl_align _ _ _) as [mz ez]. cbn [fst snd] in Hv, Hs.
  pose proof (fexp64_ge (Zpos (digits2_pos m) + e)).
  apply binary_round_aux_upper; try assumption; lia.
Qed.

Lemma binary_round_lower s m e mp ep :
  -1074 <= e -> canonical mp ep ->
  scaled (Zpos mp) ep <= scaled (Zpos m) e ->
  binary_round prec emax s m e = S754_infinity s \/
  exists m' e', binary_round prec emax s m e = S754_finite s m' e' /\
                -1074 <= e' /\ scaled (Zpos mp) ep <= scaled (Zpos m') e'.
Proof.
  intros He Hcan Hle. unfold binary_round.
  destruct (shl_align_value m e (fexp64 (Zpos (digits2_pos m) + e)) He
              (fexp64_ge _)) as [Hv Hs].
  destruct (shl_align _ _ _) as [mz ez]. cbn [fst snd] in Hv, Hs.
  pose proof (fexp64_ge (Zpos (digits2_pos m) + e)).
  apply binary_round_aux_lower; try assumption; lia.
Qed.

(** The comparison of canonical numbers is the order of their values. *)
Lemma valid_canonical s m e :
  valid_binary (S754_finite s m e) = true ->
  canonical m e /\ e <= emax - prec.
Proof.
  unfold valid_binary, SpecFloat.valid_binary, bounded, canonical_mantissa. intros H.
  apply andb_prop in H. destruct H as [H1 H2].
  apply Z.eqb_eq in H1. apply Z.leb_le in H2. split; assumption.
Qed.

Lemma canonical_exp_lt m1 e1 m2 e2 :
  canonical m1 e1 -> canonical m2 e2 -> e1 < e2 ->
  scaled (Zpos m1) e1 < scaled (Zpos m2) e2.
Proof.
  intros H1 H2 Hlt.
  pose proof (canonical_ge _ _ H1). pose proof (canonical_dg _ _ H1).
  assert (Hd2 : digits m2 = 53).
  { unfold canonical in H2. rewrite fexp64_eq in H2. lia. }
  destruct (digits_bounds m1) as [_ Hhi1]. destruct (digits_bounds m2) as [Hlo2 _].
  rewrite Hd2 in Hlo2. change (53 - 1) with 52 in Hlo2.
  assert (Hm1 : Zpos m1 < 2 ^ 53).
  { apply Z.lt_le_trans with (2 ^ digits m1); [assumption|].
    apply Z.pow_le_mono_r; lia. }
  unfold scaled.
  apply Z.lt_le_trans with (2 ^ 53 * 2 ^ (e1 + 1074)).
  - apply Z.mul_lt_mono_pos_r; [apply Z.pow_pos_nonneg; lia|assumption].
  - apply Z.le_trans with (2 ^ 52 * 2 ^ (e2 + 1074)).
    + rewrite <- !Z.pow_add_r by lia. apply Z.pow_le_mono_r; lia.
    + apply Z.mul_le_mono_nonneg_r; [apply Z.pow_nonneg; lia|assumption].
Qed.

Lemma SFleb_pos m1 e1 m2 e2 :
  canonical m1 e1 -> canonical m2 e2 ->
  scaled (Zpos m1) e1 <= scaled (Zpos m2) e2 ->
  SFleb (S754_finite false m1 e1) (S754_finite false m2 e2) = true.
Proof.
  intros H1 H2 Hle. unfold SFleb, SFcompare.
  destruct (Z.compare_spec e1 e2) as [Heq|Hlt|Hgt].
  - subst e2. rewrite Pos.compare_cont_spec. simpl.
    pose proof (canonical_ge _ _ H1).
    apply scaled_le_iff in Hle; [|assumption].
    destruct (Pos.compare_spec m1 m2); try reflexivity. lia.
  - reflexivity.
  - pose proof (canonical_exp_lt _ _ _ _ H2 H1 Hgt). lia.
Qed.

Lemma SFleb_neg m1 e1 m2 e2 :
  canonical m1 e1 -> canonical m2 e2 ->
  scaled (Zpos m2) e2 <= scaled (Zpos m1) e1 ->
  SFleb (S754_finite true m1 e1) (S754_finite true m2 e2) = true.
Proof.
  intros H1 H2 Hle. unfold SFleb, SFcompare.
  destruct (Z.compare_spec e1 e2) as [Heq|Hlt|Hgt].
  - subst e2. rewrite Pos.compare_cont_spec. simpl.
    pose proof (canonical_ge _ _ H1).
    apply scaled_le_iff in Hle; [|assumption].
    destruct (Pos.compare_spec m1 m2); try reflexivity. lia.
  - pose proof (canonical_exp_lt _ _ _ _ H1 H2 Hlt). lia.
  - reflexivity.
Qed.



Lemma SFleb_refl_finite s m e :
  SFleb (S754_finite s m e) (S754_finite s m e) = true.
Proof.
  unfold SFleb, SFcompare. rewrite Z.compare_refl, Pos.compare_cont_refl.
  destruct s; reflexivity.
Qed.

Lemma aligned_values mx ex my ey :
  -1074 <= ex -> -1074 <= ey ->
  let ez := Z.min ex ey in
  scaled (Zpos (fst (shl_align mx ex ez))) ez = scaled (Zpos mx) ex /\
  scaled (Zpos (fst (shl_align my ey ez))) ez = scaled (Zpos my) ey /\
  -1074 <= ez /\ ez <= ex /\ ez <= ey.
Proof.
  intros Hex Hey ez.
  destruct (shl_align_value mx ex ez Hex ltac:(lia)) as [Hx Hsx].
  destruct (shl_align_value my ey ez Hey ltac:(lia)) as [Hy Hsy].
  replace (snd (shl_align mx ex ez)) with ez in Hx by lia.
  replace (snd (shl_align my ey ez)) with ez in Hy by lia.
  repeat split; try assumption; lia.
Qed.

Lemma scaled_sub M N e : scaled (M - N) e = scaled M e - scaled N e.
Proof. unfold scaled. ring. Qed.

Lemma scaled_add M N e : scaled (M + N) e = scaled M e + scaled N e.
Proof. unfold scaled. ring. Qed.

(** Subtracting a nonnegative number does not increase a finite one. *)
Lemma SFsub_le x y :
  valid_binary x = true -> valid_binary y = true ->
  valid_binary (SF64sub x y) = true ->
  sf_finite x = true -> sf_nonneg y = true ->
  SFleb (SF64sub x y) x = true.
Proof.
  intros Vx Vy Vr Fx Ny.
  destruct x as [sx|sx| |sx mx ex]; try discriminate;
    destruct y as [sy|sy| |sy my ey]; try discriminate.
  - destruct sx, sy; reflexivity.
  - destruct sy; [discriminate|]. destruct sx; reflexivity.
  - destruct sy; [discriminate|]. reflexivity.
  - apply SFleb_refl_finite.
  - destruct sy; [discriminate|]. destruct sx; reflexivity.
  - destruct sy; [discriminate|].
    destruct (valid_canonical _ _ _ Vx) as [Cx Bx].
    destruct (valid_canonical _ _ _ Vy) as [Cy By].
    pose proof (canonical_ge _ _ Cx) as Hex. pose proof (canonical_ge _ _ Cy) as Hey.
    destruct (aligned_values mx ex my ey Hex Hey) as (HX & HY & Hez & Hezx & Hezy).
    revert Vr. unfold SF64sub, SFsub.
    set (ez := Z.min ex ey) in *.
    set (X := Zpos (fst (shl_align mx ex ez))) in *.
    set (Y := Zpos (fst (shl_align my ey ez))) in *.
    assert (HYpos : 0 < scaled (Zpos my) ey) by (apply scaled_pos; lia).
    destruct sx; cbn [cond_Zopp].
    + (* x negative: the magnitude grows *)
      destruct (- X - Y) as [|m|m] eqn:HM; try lia.
      cbn [binary_normalize]. intros Vr.
      assert (Hval : scaled (Zpos mx) ex <= scaled (Zpos m) ez).
      { replace (Zpos m) with (X + Y) by lia. rewrite scaled_add. lia. }
      destruct (binary_round_lower true m ez mx ex Hez Cx Hval)
        as [->|(m' & e' & Hr & He' & Hb)]; [reflexivity|].
      rewrite Hr in *. destruct (valid_canonical _ _ _ Vr) as [Cr _].
      apply SFleb_neg; assumption.
    + destruct (X - Y) as [|m|m] eqn:HM; cbn [binary_normalize]; intros Vr.
      * reflexivity.
      * assert (Hval : scaled (Zpos m) ez < scaled (Zpos mx) ex).
        { replace (Zpos m) with (X - Y) by lia. rewrite scaled_sub. lia. }
        destruct (binary_round_upper false m ez mx ex Hez Cx Bx Hezx Hval)
          as [->|(m' & e' & Hr & He' & Hb)]; [reflexivity|].
        rewrite Hr in *. destruct (valid_canonical _ _ _ Vr) as [Cr _].
        apply SFleb_pos; assumption.
      * pose proof (binary_round_shape true m ez) as Hs.
        destruct (binary_round prec emax true m ez) as [s'|s'| |s' m' e'];
          try contradiction; subst s'; reflexivity.
Qed.

(** Adding a nonnegative number does not decrease a finite one. *)
Lemma SFadd_ge x y :
  valid_binary x = true -> valid_binary y = true ->
  valid_binary (SF64add x y) = true ->
  sf_finite x = true -> sf_nonneg y = true ->
  SFleb x (SF64add x y) = true.
Proof.
  intros Vx Vy Vr Fx Ny.
  destruct x as [sx|sx| |sx mx ex]; try discriminate;
    destruct y as [sy|sy| |sy my ey]; try discriminate.
  - destruct sx, sy; reflexivity.
  - destruct sy; [discriminate|]. destruct sx; reflexivity.
  - destruct sy; [discriminate|]. reflexivity.
  - apply SFleb_refl_finite.
  - destruct sy; [discriminate|]. destruct sx; reflexivity.
  - destruct sy; [discriminate|].
    destruct (valid_canonical _ _ _ Vx) as [Cx Bx].
    destruct (valid_canonical _ _ _ Vy) as [Cy By].
    pose proof (canonical_ge _ _ Cx) as Hex. pose proof (canonical_ge _ _ Cy) as Hey.
    destruct (aligned_values mx ex my ey Hex Hey) as (HX & HY & Hez & Hezx & Hezy).
    revert Vr. unfold SF64add, SFadd.
    set (ez := Z.min ex ey) in *.
    set (X := Zpos (fst (shl_align mx ex ez))) in *.
    set (Y := Zpos (fst (shl_align my ey ez))) in *.
    assert (HYpos : 0 < scaled (Zpos my) ey) by (apply scaled_pos; lia).
    destruct sx; cbn [cond_Zopp].
    + destruct (- X + Y) as [|m|m] eqn:HM; cbn [binary_normalize]; intros Vr.
      * reflexivity.
      * pose proof (binary_round_shape false m ez) as Hs.
        destruct (binary_round prec emax false m ez) as [s'|s'| |s' m' e'];
          try contradiction; subst s'; reflexivity.
      * assert (Hval : scaled (Zpos m) ez < scaled (Zpos mx) ex).
        { replace (Zpos m) with (X - Y) by lia. rewrite scaled_sub. lia. }
        destruct (binary_round_upper true m ez mx ex Hez Cx Bx Hezx Hval)
          as [->|(m' & e' & Hr & He' & Hb)]; [reflexivity|].
        rewrite Hr in *. destruct (valid_canonical _ _ _ Vr) as [Cr _].
        apply SFleb_neg; assumption.
    + destruct (X + Y) as [|m|m] eqn:HM; try lia.
      cbn [binary_normalize]. intros Vr.
      assert (Hval : scaled (Zpos mx) ex <= scaled (Zpos m) ez).
      { replace (Zpos m) with (X + Y) by lia. rewrite scaled_add. lia. }
      destruct (binary_round_lower false m ez mx ex Hez Cx Hval)
        as [->|(m' & e' & Hr & He' & Hb)]; [reflexivity|].
      rewrite Hr in *. destruct (valid_canonical _ _ _ Vr) as [Cr _].
      apply SFleb_pos; assumption.
Qed.

(** The product of a positive finite number and a positive number. *)
Lemma SFmul_pos_nonneg mc ec y :
  SFltb (S754_zero false) y = true ->
  sf_nonneg (SF64mul (S754_finite false mc ec) y) = true.
Proof.
  destruct y as [sy|sy| |sy my ey]; try discriminate.
  - destruct sy; [discriminate|]. reflexivity.
  - destruct sy; [discriminate|]. intros _.
    unfold SF64mul, SFmul. cbn [xorb].
    pose proof (binary_round_aux_shape false (Zpos (mc * my)) (ec + ey) loc_Exact
                  ltac:(lia)) as Hs.
    destruct (binary_round_aux _ _ _ _ _ _) as [s'|s'| |s' m' e'];
      try contradiction; subst s'; reflexivity.
Qed.

Lemma sub_nonneg_le (p t : float) :
  sf_finite (Prim2SF p) = true -> sf_nonneg (Prim2SF t) = true ->
  PrimFloat.leb (p - t) p = true.
Proof.
  intros Fp Nt. rewrite leb_spec.
  pose proof (Prim2SF_valid (p - t)) as Vr. rewrite sub_spec in *.
  apply SFsub_le; try assumption; apply Prim2SF_valid.
Qed.

Lemma add_nonneg_ge (p t : float) :
  sf_finite (Prim2SF p) = true -> sf_nonneg (Prim2SF t) = true ->
  PrimFloat.leb p (p + t) = true.
Proof.
  intros Fp Nt. rewrite leb_spec.
  pose proof (Prim2SF_valid (p + t)) as Vr. rewrite add_spec in *.
  apply SFadd_ge; try assumption; apply Prim2SF_valid.
Qed.

Lemma mul_1_96_nonneg (se : float) :
  PrimFloat.ltb 0 se = true -> sf_nonneg (Prim2SF (1.96 * se)) = true.
Proof.
  intros Hse. rewrite ltb_spec in Hse. rewrite mul_spec.
  replace (Prim2SF 1.96) with (S754_finite false 8827055269646172 (-52)) by reflexivity.
  apply SFmul_pos_nonneg. exact Hse.
Qed.

Lemma nonfinite_false (x : float) :
  nonfinite x = false -> sf_finite (Prim2SF x) = true.
Proof. unfold nonfinite, sf_finite. destruct (Prim2SF x); congruence. Qed.

End Binary64Rounding.

(** ** The constructor of the analytic pricer *)

(** C7, as the constructor has it.  Construction throws the
    invalid-argument error exactly when spot, strike, maturity or volatility
    is [<= 0]; the rate takes no part in the test, and a pricer that is
    constructed holds the five values it was given. *)
Theorem BlackScholes_new_validates
    {T : Type} {arith : Arith T} (S K r T_mat sigma : T) :
  (BlackScholes_new S K r T_mat sigma
     = inl (invalid_argument "All parameters must be positive")
   <-> (S <=? of_int 0)%A = true \/ (K <=? of_int 0)%A = true \/
       (T_mat <=? of_int 0)%A = true \/ (sigma <=? of_int 0)%A = true)
  /\ (BlackScholes_new S K r T_mat sigma
        = inr {| S_ := S; K_ := K; r_ := r; T_ := T_mat; sigma_ := sigma |}
      <-> (S <=? of_int 0)%A = false /\ (K <=? of_int 0)%A = false /\
          (T_mat <=? of_int 0)%A = false /\ (sigma <=? of_int 0)%A = false)
  /\ (forall r' : T,
        BlackScholes_new S K r' T_mat sigma = inl (invalid_argument "All parameters must be positive")
        <-> BlackScholes_new S K r T_mat sigma = inl (invalid_argument "All parameters must be positive")).
Proof.
  unfold BlackScholes_new, throw, ret.
  destruct (S <=? of_int 0)%A, (K <=? of_int 0)%A, (T_mat <=? of_int 0)%A,
           (sigma <=? of_int 0)%A; simpl;
    repeat split; intros; try tauto; try congruence;
    repeat match goal with H : _ \/ _ |- _ => destruct H end;
    try congruence; intuition congruence.
Qed.

(** A rate that is not strictly positive is accepted: with S = K = 100,
    r = -0.05, T = 1 and sigma = 0.2 the constructor returns the pricer. *)
Lemma BlackScholes_new_negative_rate :
  PrimFloat.leb (-0.05) 0 = true /\
  BlackScholes_new 100%float 100%float (-0.05)%float 1%float 0.2%float
  = inr {| S_ := 100%float; K_ := 100%float; r_ := (-0.05)%float;
           T_ := 1%float; sigma_ := 0.2%float |}.
Proof. split; reflexivity. Qed.

(** ** The implied-volatility search in binary64 *)

Section NewtonBinary64.
Context (cmath : Cmath float).
Variables (marketPrice S K r T_mat : float) (type : OptionType) (tolerance : float).

Lemma enters_bounds k sigma :
  enters marketPrice S K r T_mat type tolerance k sigma ->
  PrimFloat.leb 0.001 sigma = true /\ PrimFloat.leb sigma 5.0 = true.
Proof.
  intros He. destruct He as [|k sigma bs He Hc Hm Hv].
  - split; reflexivity.
  - apply clamp_bounds.
Qed.

End NewtonBinary64.



(** C10.  When spot, strike and maturity are strictly positive, every
    iteration of the search is entered with a strictly positive [sigma] and
    constructs its pricer, and the call never throws the invalid-argument
    error. *)
Theorem impliedVolatility_constructs
    (cmath : Cmath float)
    (marketPrice S K r T_mat : float) (type : OptionType) (tolerance : float) :
  PrimFloat.ltb 0 S = true -> PrimFloat.ltb 0 K = true ->
  PrimFloat.ltb 0 T_mat = true ->
  (forall k sigma,
     enters marketPrice S K r T_mat type tolerance k sigma ->
     PrimFloat.ltb 0 sigma = true /\
     BlackScholes_new S K r T_mat sigma
     = inr {| S_ := S; K_ := K; r_ := r; T_ := T_mat; sigma_ := sigma |})
  /\ (forall maxIterations what,
        impliedVolatility marketPrice S K r T_mat type tolerance maxIterations
        <> inl (invalid_argument what)).
Proof.
  intros HS HK HT.
  assert (Hiter : forall k sigma,
     enters marketPrice S K r T_mat type tolerance k sigma ->
     PrimFloat.ltb 0 sigma = true /\
     BlackScholes_new S K r T_mat sigma
     = inr {| S_ := S; K_ := K; r_ := r; T_ := T_mat; sigma_ := sigma |}).
  { intros k sigma He.
    destruct (enters_bounds cmath _ _ _ _ _ _ _ _ _ He) as [Hlo _].
    destruct (above_0_001_positive _ Hlo) as [Hpos Hle].
    split; [assumption|].
    unfold BlackScholes_new. simpl.
    change (float_of_int 0) with 0%float.
    now rewrite (ltb_not_leb _ _ HS), (ltb_not_leb _ _ HK),
                (ltb_not_leb _ _ HT), Hle. }
  split; [exact Hiter|].
  intros maxIterations what Hout.
  destruct (impliedVolatility_cases marketPrice S K r T_mat type tolerance
              maxIterations) as [(k & _ & s & He & Hh)|(Hcf & _)].
  - destruct (Hiter _ _ He) as [_ Hnew]. rewrite Hnew, Hout in Hh.
    destruct (meets_tolerance _ _ _ _); [discriminate|].
    destruct Hh as [_ Hh]. discriminate.
  - rewrite Hout in Hcf. discriminate.
Qed.

Lemma impliedVolatility_constructs_witness :
  PrimFloat.ltb 0 0.2 = true /\
  BlackScholes_new 100%float 100%float 0.05%float 1%float 0.2%float
  = inr {| S_ := 100%float; K_ := 100%float; r_ := 0.05%float;
           T_ := 1%float; sigma_ := 0.2%float |}.
Proof.
  pose (cm := {| exp := fun x : float => x; log := fun x : float => x;
                 erfc := fun x : float => x |}).
  exact (proj1 (impliedVolatility_constructs cm 10 100 100 0.05 1 CALL 1e-6
                  eq_refl eq_refl eq_refl) 0%nat 0.2%float
               (enters_first _ _ _ _ _ _ _)).
Defined.

(** ** Division by zero in binary64 *)

Lemma nonfinite_div_zero (x : float) : nonfinite (x / 0) = true.
Proof.
  unfold nonfinite. rewrite div_spec.
  replace (Prim2SF 0) with (S754_zero false) by reflexivity.
  destruct (Prim2SF x); reflexivity.
Qed.

Lemma nonfinite_div_l (y z : float) :
  nonfinite y = true -> nonfinite (y / z) = true.
Proof.
  unfold nonfinite. rewrite div_spec.
  destruct (Prim2SF y), (Prim2SF z); simpl; congruence.
Qed.

Lemma nonfinite_sqrt (y : float) :
  nonfinite y = true -> nonfinite (PrimFloat.sqrt y) = true.
Proof.
  unfold nonfinite. rewrite sqrt_spec.
  destruct (Prim2SF y) as [s|s| |s m e]; simpl; try congruence.
  destruct s; reflexivity.
Qed.

Lemma nonfinite_mul_r (d y : float) :
  nonfinite y = true -> nonfinite (d * y) = true.
Proof.
  unfold nonfinite. rewrite mul_spec.
  destruct (Prim2SF y), (Prim2SF d); simpl; congruence.
Qed.

Lemma europeanResult_single_sample (payoffs : list float) (discount : float) :
  nonfinite (standardError (europeanResult 1 payoffs discount)) = true.
Proof.
  unfold europeanResult. cbn [standardError].
  apply nonfinite_mul_r, nonfinite_sqrt, nonfinite_div_l.
  change (of_int (1 - 1)) with 0%float.
  apply nonfinite_div_zero.
Qed.

Lemma americanResult_single_sample (cashFlows : list float) (discount : float) :
  nonfinite (standardError (americanResult 1 cashFlows discount)) = true.
Proof.
  unfold americanResult. cbn [standardError].
  apply nonfinite_mul_r, nonfinite_sqrt, nonfinite_div_l.
  change (of_int (1 - 1)) with 0%float.
  apply nonfinite_div_zero.
Qed.

(** C9.  The constructor throws exactly when a count is not positive, so it
    accepts one simulation with any positive number of steps; the divisor [numSimulations_ - 1] of the sample variance is then
    zero, and the standard error that [priceEuropean] and [priceAmerican]
    return is an infinity or a NaN, for every option, every market data,
    every generator and every <cmath>. *)
Theorem single_sample_standardError_nonfinite
    (cmath : Cmath float) {G : Type}
    (seed_generator : Z -> G) (normal : G -> float * G) (numSteps seed : Z) :
  (0 < numSteps)%Z ->
  (forall n m : Z,
     MonteCarloEngine_new seed_generator n m seed
     = inl (invalid_argument "Number of simulations and steps must be positive")
     <-> (n <= 0)%Z \/ (m <= 0)%Z) /\
  exists e,
    MonteCarloEngine_new seed_generator 1 numSteps seed = inr e /\
    of_int (numSimulations_ e - 1) = 0%float /\
    forall (option : Option_) (S0 r sigma : float),
      nonfinite (standardError (fst (priceEuropean normal e option S0 r sigma))) = true /\
      nonfinite (standardError (fst (priceAmerican normal e option S0 r sigma))) = true.
Proof.
  intros Hsteps. split.
  { intros n m. unfold MonteCarloEngine_new, throw, ret.
    destruct (n <=? 0)%Z eqn:Hn, (m <=? 0)%Z eqn:Hm; simpl;
      split; intros Hx; try reflexivity; try discriminate; lia. }
  exists {| numSimulations_ := 1; numSteps_ := numSteps; seed_ := seed;
            generator_ := seed_generator seed |}.
  split.
  - unfold MonteCarloEngine_new.
    destruct (numSteps <=? 0)%Z eqn:Hle; [lia|reflexivity].
  - split; [reflexivity|]. intros option S0 r sigma. split.
    + unfold priceEuropean. cbn [numSimulations_ numSteps_ generator_].
      destruct (europeanPayoffs _ _ _ _ _ _ _ _) as [payoffs g]. cbn [fst].
      apply europeanResult_single_sample.
    + unfold priceAmerican. cbn [numSimulations_ numSteps_ generator_].
      destruct (generatePaths _ _ _ _ _ _ _ _) as [paths g]. cbn [fst].
      apply americanResult_single_sample.
Qed.

Lemma single_sample_standardError_nonfinite_witness :
  exists e,
    MonteCarloEngine_new (fun seed : Z => seed) 1 252 42 = inr e /\
    of_int (numSimulations_ e - 1) = 0%float.
Proof.
  pose (cm := {| exp := fun x : float => x; log := fun x : float => x;
                 erfc := fun x : float => x |}).
  destruct (single_sample_standardError_nonfinite cm (fun seed : Z => seed)
              (fun g : Z => (0.5%float, (g + 1)%Z)) 252 42 eq_refl)
    as (_ & e & He & Hz & _).
  exists e. split; assumption.
Defined.

(** ** Put-call parity, in exact arithmetic *)

Lemma F2R_half : F2R 0.5 = (/ 2)%R.
Proof.
  unfold F2R. replace (Prim2SF 0.5) with (S754_finite false 4503599627370496 (-53))
    by reflexivity.
  unfold SF2R, cond_Zopp.
  replace (0 <=? -53)%Z with false by reflexivity.
  replace (2 ^ (- -53))%Z with 9007199254740992%Z by reflexivity.
  lra.
Qed.

(** The series of the error function has odd terms only. *)
Lemma Rerfc_reflect (x : R) : (Rerfc (- x) = 2 - Rerfc x)%R.
Proof.
  unfold Rerfc, Rerf. replace (- x * - x)%R with (x * x)%R by ring. ring.
Qed.

Lemma normalCDF_reflect (x : R) : (normalCDF x + normalCDF (- x)%A = 1)%R.
Proof.
  unfold normalCDF, M_SQRT1_2. simpl. rewrite F2R_half.
  set (c := F2R _).
  replace (- - x * c)%R with (- (- x * c))%R by ring.
  rewrite Rerfc_reflect. lra.
Qed.

Lemma parity_exact (bs : BlackScholes (T := R)) :
  (callPrice bs - putPrice bs
   = S_ bs - K_ bs * Rtrigo_def.exp (- r_ bs * T_ bs))%R.
Proof.
  unfold callPrice, putPrice.
  pose proof (normalCDF_reflect (d1 bs)) as H1.
  pose proof (normalCDF_reflect (d2 bs)) as H2.
  cbn [add sub mul opp exp exact exact_cmath] in *.
  set (c1 := normalCDF (d1 bs)) in *. set (c1' := normalCDF (- d1 bs)%R) in *.
  set (c2 := normalCDF (d2 bs)) in *. set (c2' := normalCDF (- d2 bs)%R) in *.
  replace c1 with (1 - c1')%R by lra. replace c2 with (1 - c2')%R by lra.
  ring.
Qed.




(** ** One step of the backward induction, for every arithmetic *)

Section LoopFacts.
Context {A : Type}.

Lemma lookup_map (f : A -> A) (l : list A) (i : nat) :
  map f l !! i = f <$> l !! i.
Proof.
  revert i. induction l as [|a l IH]; intros [|i]; simpl; auto.
Qed.

Lemma map_nth_indices (l : list nat) :
  map (fun j => nth j l 0%nat) (seq 0 (length l)) = l.
Proof.
  induction l as [|a l IH]; [reflexivity|].
  simpl. f_equal. rewrite <- seq_shift, map_map. exact IH.
Qed.

(** A loop over the positions of a vector of indices visits its elements. *)
Lemma fold_left_indices (g : list A -> nat -> list A) (l : list nat) (cf : list A) :
  fold_left (fun acc j => g acc (nth j l 0%nat)) (seq 0 (length l)) cf
  = fold_left g l cf.
Proof.
  transitivity (fold_left g (map (fun j => nth j l 0%nat) (seq 0 (length l))) cf).
  - generalize (seq 0 (length l)) as js. intros js. revert cf.
    induction js as [|j js IH]; intros cf; simpl; [reflexivity|apply IH].
  - now rewrite map_nth_indices.
Qed.

Lemma mem_In i l : mem i l = true <-> List.In i l.
Proof.
  unfold mem. rewrite existsb_exists. split.
  - intros (x & Hx & Heq). apply Nat.eqb_eq in Heq. now subst.
  - intros Hi. exists i. split; [assumption|apply Nat.eqb_refl].
Qed.

(** A loop whose body changes, at most, the element at the index it visits,
    and visits no index twice, changes each visited element once. *)
Lemma fold_left_pointwise (g : list A -> nat -> list A) (h : nat -> A -> A)
    (l : list nat) :
  (forall cf j i,
     g cf j !! i = if Nat.eqb j i then h j <$> cf !! i else cf !! i) ->
  List.NoDup l ->
  forall cf i,
    fold_left g l cf !! i = if mem i l then h i <$> cf !! i else cf !! i.
Proof.
  intros Hg. induction l as [|a l IH]; intros Hnd cf i; [reflexivity|].
  inversion Hnd as [|a' l' Hnotin Hnd']; subst.
  simpl. rewrite (IH Hnd'). rewrite !Hg.
  destruct (Nat.eqb a i) eqn:Hai; simpl.
  - apply Nat.eqb_eq in Hai. subst a.
    destruct (mem i l) eqn:Hm; [|reflexivity].
    apply mem_In in Hm. contradiction.
  - reflexivity.
Qed.

End LoopFacts.

Section BackwardFacts.
Context {T : Type} {arith : Arith T}.
Variables (option : Option_ (T := T)) (paths : list (list T)) (discount : T).
Variable numSims : nat.

Local Notation inTheMoney_ := (inTheMoney option paths).
Local Notation itmPaths_ := (itmPaths option paths numSims).

Lemma collectITM_fold (cashFlows : list T) (t : nat) (l : list nat) :
  forall acc,
  fold_left
    (fun acc i =>
       let spot := at2 paths i t in
       let exerciseValue := payoff option spot in
       if (of_int 0 <? exerciseValue)%A
       then {| itmIndices := itmIndices acc ++ [i];
               X := X acc ++ [spot];
               Y := Y acc ++ [at_ cashFlows i * discount]%A |}
       else acc) l acc
  = {| itmIndices := itmIndices acc ++ List.filter (inTheMoney_ t) l;
       X := X acc ++ map (fun i => at2 paths i t) (List.filter (inTheMoney_ t) l);
       Y := Y acc ++ map (fun i => at_ cashFlows i * discount)%A
                         (List.filter (inTheMoney_ t) l) |}.
Proof.
  induction l as [|i l IH]; intros acc; simpl.
  - destruct acc; simpl. rewrite !app_nil_r. reflexivity.
  - rewrite IH. unfold inTheMoney.
    destruct (of_int 0 <? payoff option (at2 paths i t))%A; simpl.
    + rewrite <- !app_assoc. reflexivity.
    + reflexivity.
Qed.

Lemma collectITM_eq (cashFlows : list T) (t : nat) :
  collectITM option paths discount numSims cashFlows t
  = {| itmIndices := itmPaths_ t;
       X := map (fun i => at2 paths i t) (itmPaths_ t);
       Y := map (fun i => at_ cashFlows i * discount)%A (itmPaths_ t) |}.
Proof. unfold collectITM. now rewrite collectITM_fold. Qed.

Lemma itmPaths_NoDup t : List.NoDup (itmPaths_ t).
Proof. apply List.NoDup_filter, List.seq_NoDup. Qed.

Lemma mem_itmPaths t i :
  mem i (itmPaths_ t) = (i <? numSims)%nat && inTheMoney_ t i.
Proof.
  apply eq_true_iff_eq. rewrite mem_In. unfold itmPaths.
  rewrite List.filter_In, List.in_seq, andb_true_iff, Nat.ltb_lt. split.
  - intros [[_ Hlt] Hp]. auto.
  - intros [Hlt Hp]. split; [lia|assumption].
Qed.

Lemma mem_seq i : mem i (seq 0 numSims) = (i <? numSims)%nat.
Proof.
  apply eq_true_iff_eq. rewrite mem_In, List.in_seq, Nat.ltb_lt. lia.
Qed.

Lemma discountAt_lookup cf j i :
  discountAt discount cf j !! i
  = if Nat.eqb j i then (fun c => c * discount)%A <$> cf !! i else cf !! i.
Proof.
  unfold discountAt. destruct (Nat.eqb j i) eqn:Hji.
  - apply Nat.eqb_eq in Hji. subst. apply list_lookup_alter_eq.
  - apply Nat.eqb_neq in Hji. now apply list_lookup_alter_ne.
Qed.

(** The loop that only discounts the paths of [itmIndices]. *)
Lemma discountITM_lookup t cf i :
  fold_left (discountAt discount) (itmPaths_ t) cf !! i
  = if mem i (itmPaths_ t) then (fun c => c * discount)%A <$> cf !! i
    else cf !! i.
Proof.
  apply (fold_left_pointwise _ (fun _ c => c * discount)%A).
  - apply discountAt_lookup.
  - apply itmPaths_NoDup.
Qed.

(** The exercise loop of the regression branch. *)
Lemma exerciseLoop_lookup meanY t cf i :
  exerciseLoop option paths discount (itmPaths_ t) meanY t cf !! i
  = if mem i (itmPaths_ t)
    then (fun c =>
            if (meanY <? payoff option (at2 paths i t))%A
            then payoff option (at2 paths i t) else (c * discount)%A)
         <$> cf !! i
    else cf !! i.
Proof.
  unfold exerciseLoop.
  rewrite (fold_left_indices
             (fun cashFlows i =>
                if (meanY <? payoff option (at2 paths i t))%A
                then <[ i := payoff option (at2 paths i t) ]> cashFlows
                else discountAt discount cashFlows i)).
  apply (fold_left_pointwise _
           (fun i c => if (meanY <? payoff option (at2 paths i t))%A
                       then payoff option (at2 paths i t) else (c * discount)%A)).
  - intros cf0 j k.
    destruct (meanY <? payoff option (at2 paths j t))%A.
    + rewrite list_insert_alter. destruct (Nat.eqb j k) eqn:Hjk.
      * apply Nat.eqb_eq in Hjk. subst. apply list_lookup_alter_eq.
      * apply Nat.eqb_neq in Hjk. now apply list_lookup_alter_ne.
    + apply discountAt_lookup.
  - apply itmPaths_NoDup.
Qed.

(** The loop over all paths that discounts those not in [itmIndices]. *)
Lemma discountOTM_lookup t cf i :
  discountOTM discount numSims (itmPaths_ t) cf !! i
  = if (i <? numSims)%nat && negb (mem i (itmPaths_ t))
    then (fun c => c * discount)%A <$> cf !! i
    else cf !! i.
Proof.
  unfold discountOTM.
  rewrite (fold_left_pointwise _
             (fun i c => if negb (mem i (itmPaths_ t)) then (c * discount)%A else c)).
  - rewrite mem_seq. destruct (i <? numSims)%nat; simpl; [|reflexivity].
    destruct (mem i (itmPaths_ t)); simpl; [|reflexivity].
    now destruct (cf !! i).
  - intros cf0 j k. fold (mem j (itmPaths_ t)).
    destruct (mem j (itmPaths_ t)); simpl.
    + destruct (Nat.eqb j k); [|reflexivity]. now destruct (cf0 !! k).
    + apply discountAt_lookup.
  - apply List.seq_NoDup.
Qed.

(** The sum [sum_y] of the regression branch is the sum of [Y]. *)
Lemma regressionSums_sum_y (Xs Ys : list T) :
  length Xs = length Ys ->
  sum_y (regressionSums Xs Ys) = fold_left add Ys (of_int 0).
Proof.
  intros Hlen. unfold regressionSums. rewrite Hlen.
  set (s0 := {| sum_x := of_int 0; sum_x2 := _ |}).
  change (of_int 0) with (sum_y s0).
  generalize s0. clear s0.
  assert (Hgen : forall (js : list nat) s a,
    sum_y s = a ->
    sum_y (fold_left
      (fun s i =>
         let x := at_ Xs i in
         let y := at_ Ys i in
         let x2 := (x * x)%A in
         {| sum_x := sum_x s + x; sum_x2 := sum_x2 s + x2;
            sum_x3 := sum_x3 s + x2 * x; sum_x4 := sum_x4 s + x2 * x2;
            sum_y := sum_y s + y; sum_xy := sum_xy s + x * y;
            sum_x2y := sum_x2y s + x2 * y |}%A) js s)
    = fold_left (fun a j => a + at_ Ys j)%A js a).
  { induction js as [|j js IH]; intros s a Hs; simpl; [assumption|].
    apply IH. simpl. now rewrite Hs. }
  intros s0. rewrite (Hgen _ s0 (sum_y s0) eq_refl).
  generalize (sum_y s0) as a.
  assert (Hmap : forall (l : list T) (js : list nat) a,
            fold_left (fun a j => a + at_ l j)%A js a
            = fold_left add (map (at_ l) js) a).
  { intros l js. induction js as [|j js IH]; intros a; simpl; [reflexivity|apply IH]. }
  intros a. rewrite Hmap. f_equal.
  clear. induction Ys as [|y Ys IH]; [reflexivity|].
  simpl. f_equal. rewrite <- seq_shift, map_map. exact IH.
Qed.

End BackwardFacts.

(** C4, as the loop has it.  At a time step with at most ten paths in the
    money, and so also at a step with none, the regression branch is not
    taken and every cash flow is multiplied by the one-step discount factor:
    the paths in the money by the loop over [itmIndices], the others by the
    loop that discounts the out-of-the-money paths. *)
Theorem backwardStep_discounts_only
    {T : Type} {arith : Arith T}
    (option : Option_) (paths : list (list T)) (discount : T)
    (numSims : nat) (cashFlows : list T) (t : nat) :
  length cashFlows = numSims ->
  (length (itmIndices (collectITM option paths discount numSims cashFlows t)) <= 10)%nat ->
  backwardStep option paths discount numSims cashFlows t
  = map (fun cf => cf * discount)%A cashFlows.
Proof.
  intros Hlen Hcount. unfold backwardStep.
  rewrite collectITM_eq in *. cbn [itmIndices X Y] in *.
  destruct (10 <? length (itmPaths option paths numSims t))%nat eqn:Hlt.
  { apply Nat.ltb_lt in Hlt. lia. }
  apply list_eq. intros i.
  rewrite discountOTM_lookup, discountITM_lookup, lookup_map.
  destruct (mem i (itmPaths option paths numSims t)) eqn:Hmem.
  - now rewrite andb_false_r.
  - rewrite andb_true_r. destruct (i <? numSims)%nat eqn:Hi; [reflexivity|].
    apply Nat.ltb_ge in Hi. rewrite lookup_ge_None_2 by lia. reflexivity.
Qed.

(** A step with no path in the money is not a no-op: both cash flows are
    halved. *)
Lemma backwardStep_no_itm_not_noop :
  itmIndices (collectITM otm_option otm_paths 0.5%float 2 otm_cashFlows 1) = []
  /\ backwardStep otm_option otm_paths 0.5%float 2 otm_cashFlows 1
     = [1.5; 2]%float
  /\ backwardStep otm_option otm_paths 0.5%float 2 otm_cashFlows 1
     <> otm_cashFlows.
Proof.
  split; [reflexivity|]. split; [reflexivity|].
  intros Heq.
  apply (f_equal (fun l => PrimFloat.eqb (at_ l 0) 3)) in Heq.
  vm_compute in Heq. discriminate.
Qed.

Lemma backwardStep_discounts_only_witness :
  backwardStep otm_option otm_paths 0.5%float 2 otm_cashFlows 1
  = map (fun cf => cf * 0.5)%float otm_cashFlows.
Proof.
  assert (Hcount : (length (itmIndices (collectITM otm_option otm_paths 0.5%float
                                          2 otm_cashFlows 1)) <= 10)%nat)
    by (vm_compute; lia).
  exact (backwardStep_discounts_only otm_option otm_paths 0.5%float 2
           otm_cashFlows 1 eq_refl Hcount).
Defined.

(** C1, as the loop has it.  At a time step with more than ten paths in the
    money the continuation value is one number for all paths, [meanY]: the
    sum of the discounted cash flows of the in-the-money paths divided by
    their count.  The cash flow of an in-the-money path becomes its exercise
    value exactly when that value exceeds [meanY] and is otherwise
    discounted by one step, as is the cash flow of every other path. *)
Theorem backwardStep_compares_with_mean
    {T : Type} {arith : Arith T}
    (option : Option_) (paths : list (list T)) (discount : T)
    (numSims : nat) (cashFlows : list T) (t : nat) :
  length cashFlows = numSims ->
  let c := collectITM option paths discount numSims cashFlows t in
  (10 < length (itmIndices c))%nat ->
  let meanY :=
    (fold_left add (Y c) (of_int 0) / of_int (Z.of_nat (length (Y c))))%A in
  itmIndices c = List.filter (inTheMoney option paths t) (seq 0 numSims) /\
  Y c = map (fun i => at_ cashFlows i * discount)%A (itmIndices c) /\
  forall i, (i < numSims)%nat ->
    at_ (backwardStep option paths discount numSims cashFlows t) i
    = let exerciseValue := payoff option (at2 paths i t) in
      if (of_int 0 <? exerciseValue)%A
      then if (meanY <? exerciseValue)%A then exerciseValue
           else (at_ cashFlows i * discount)%A
      else (at_ cashFlows i * discount)%A.
Proof.
  intros Hlen c Hcount meanY. subst c meanY. revert Hcount.
  unfold backwardStep. rewrite collectITM_eq. cbn [itmIndices X Y].
  intros Hcount. split; [reflexivity|]. split; [reflexivity|].
  intros i Hi.
  apply Nat.ltb_lt in Hcount. rewrite Hcount.
  rewrite regressionSums_sum_y by now rewrite !length_map.
  rewrite !length_map.
  unfold at_ at 1. rewrite nth_lookup, discountOTM_lookup, exerciseLoop_lookup.
  rewrite mem_itmPaths. apply Nat.ltb_lt in Hi. rewrite Hi. cbn [andb negb].
  unfold inTheMoney.
  assert (Hsome : cashFlows !! i = Some (at_ cashFlows i)).
  { unfold at_. destruct (nth_lookup_or_length cashFlows i (lit 0.0)) as [H|H];
      [exact H|]. apply Nat.ltb_lt in Hi. lia. }
  rewrite Hsome.
  destruct (of_int 0 <? payoff option (at2 paths i t))%A; simpl; [|reflexivity].
  destruct (_ <? _)%A; reflexivity.
Qed.

(** On the first of these paths the exercise value 60 exceeds the fitted
    prediction 40 at its spot, yet the cash flow is not set to the exercise
    value: it is compared with the mean 65 and stays 40. *)
Lemma backwardStep_ignores_fitted_prediction :
  let c := collectITM lsm_option lsm_paths 1%float 11 lsm_cashFlows 1 in
  let s := regressionSums (X c) (Y c) in
  let spot := at2 lsm_paths 0 1 in
  length (itmIndices c) = 11%nat /\
  payoff lsm_option spot = 60%float /\
  spec_fittedPrediction (of_int (Z.of_nat (length (X c)))) s spot = 40%float /\
  (sum_y s / of_int (Z.of_nat (length (X c))))%A = 65%float /\
  at_ (backwardStep lsm_option lsm_paths 1%float 11 lsm_cashFlows 1) 0 = 40%float /\
  at_ (backwardStep lsm_option lsm_paths 1%float 11 lsm_cashFlows 1) 0
  <> (if (spec_fittedPrediction (of_int (Z.of_nat (length (X c)))) s spot
          <? payoff lsm_option spot)%A
      then payoff lsm_option spot
      else (at_ lsm_cashFlows 0 * 1%float)%A).
Proof.
  repeat split; try (vm_compute; reflexivity).
  intros Heq.
  apply (f_equal (fun x => PrimFloat.eqb x 40)) in Heq.
  vm_compute in Heq. discriminate.
Qed.

Lemma backwardStep_compares_with_mean_witness :
  at_ (backwardStep lsm_option lsm_paths 1%float 11 lsm_cashFlows 1) 0
  = 40%float.
Proof.
  assert (Hcount : (10 < length (itmIndices (collectITM lsm_option lsm_paths
                                               1%float 11 lsm_cashFlows 1)))%nat)
    by (vm_compute; lia).
  destruct (backwardStep_compares_with_mean lsm_option lsm_paths 1%float 11
              lsm_cashFlows 1 eq_refl Hcount) as (_ & _ & Hstep).
  rewrite (Hstep 0%nat) by lia. reflexivity.
Defined.

(** ** The generator across valuations, for every arithmetic *)

Section EngineFacts.
Context {T : Type} {arith : Arith T} {cmath : Cmath T}.
Context {G : Type}.
Variable seed_generator : Z -> G.
Variable normal : G -> T * G.

Local Notation advance_ := (advance normal).

Lemma path_steps_generator n : forall drift diffusion prev g,
  snd (path_steps normal n drift diffusion prev g) = Nat.iter n advance_ g.
Proof.
  induction n as [|n IH]; intros drift diffusion prev g; [reflexivity|].
  rewrite Nat.iter_succ_r. simpl. unfold advance_ at 2.
  destruct (normal g) as [z g1]. simpl.
  specialize (IH drift diffusion (prev * exp (drift + diffusion * z))%A g1).
  destruct (path_steps normal n _ _ _ g1) as [rest g2]. exact IH.
Qed.

Lemma generatePath_generator numSteps S0 r sigma T_mat g :
  snd (generatePath normal numSteps S0 r sigma T_mat g)
  = Nat.iter (Z.to_nat numSteps) advance_ g.
Proof.
  unfold generatePath.
  rewrite <- (path_steps_generator (Z.to_nat numSteps)
                ((r - lit 0.5 * sigma * sigma) * (T_mat / of_int numSteps))%A
                (sigma * sqrt (T_mat / of_int numSteps))%A S0 g).
  now destruct (path_steps _ _ _ _ _ _).
Qed.

Lemma generatePaths_generator n : forall numSteps S0 r sigma T_mat g,
  snd (generatePaths normal n numSteps S0 r sigma T_mat g)
  = Nat.iter (n * Z.to_nat numSteps) advance_ g.
Proof.
  induction n as [|n IH]; intros numSteps S0 r sigma T_mat g; [reflexivity|].
  simpl. rewrite Nat.add_comm, Nat.iter_add.
  rewrite <- generatePath_generator with (S0 := S0) (r := r) (sigma := sigma)
                                         (T_mat := T_mat).
  destruct (generatePath _ _ _ _ _ _ g) as [path g1]. simpl.
  specialize (IH numSteps S0 r sigma T_mat g1).
  now destruct (generatePaths _ _ _ _ _ _ _ g1).
Qed.

(** [priceEuropean] draws the paths [priceAmerican] would and keeps the
    payoff of the last point of each. *)
Lemma europeanPayoffs_generatePaths n : forall numSteps option S0 r sigma g,
  europeanPayoffs normal n numSteps option S0 r sigma g
  = (map (fun path => payoff option (at_ path (Z.to_nat numSteps)))
         (fst (generatePaths normal n numSteps S0 r sigma (maturity_ option) g)),
     snd (generatePaths normal n numSteps S0 r sigma (maturity_ option) g)).
Proof.
  induction n as [|n IH]; intros numSteps option S0 r sigma g; [reflexivity|].
  simpl. destruct (generatePath _ _ _ _ _ _ g) as [path g1].
  rewrite IH. now destruct (generatePaths _ _ _ _ _ _ _ g1).
Qed.

Lemma generatePaths_length n : forall numSteps S0 r sigma T_mat g,
  length (fst (generatePaths normal n numSteps S0 r sigma T_mat g)) = n.
Proof.
  induction n as [|n IH]; intros numSteps S0 r sigma T_mat g; [reflexivity|].
  simpl. destruct (generatePath _ _ _ _ _ _ g) as [path g1].
  specialize (IH numSteps S0 r sigma T_mat g1).
  destruct (generatePaths _ _ _ _ _ _ _ g1). simpl in *. now rewrite IH.
Qed.

Lemma price_generator e option S0 r sigma :
  snd (MonteCarloEngine_price normal e option S0 r sigma)
  = with_generator e
      (Nat.iter (Z.to_nat (numSimulations_ e) * Z.to_nat (numSteps_ e))
                advance_ (generator_ e)).
Proof.
  unfold MonteCarloEngine_price, priceEuropean, priceAmerican.
  destruct (style_ option).
  - rewrite europeanPayoffs_generatePaths. simpl.
    now rewrite generatePaths_generator.
  - rewrite <- generatePaths_generator with (S0 := S0) (r := r) (sigma := sigma)
                                            (T_mat := maturity_ option).
    now destruct (generatePaths _ _ _ _ _ _ _ _).
Qed.

End EngineFacts.

(** The engine after a sequence of calls: only the generator has moved, by
    numSimulations * numSteps draws for each call. *)
Lemma afterCalls_generator
    {T : Type} {arith : Arith T} {cmath : Cmath T} {G : Type}
    (normal : G -> T * G) (calls : list (PriceCall T)) : forall e,
  afterCalls normal e calls
  = with_generator e
      (Nat.iter (length calls
                 * (Z.to_nat (numSimulations_ e) * Z.to_nat (numSteps_ e)))
                (advance normal) (generator_ e)).
Proof.
  unfold afterCalls.
  induction calls as [|c calls IH]; intros e.
  - destruct e; reflexivity.
  - cbn [fold_left length]. rewrite IH, price_generator.
    cbn [with_generator numSimulations_ numSteps_ seed_ generator_].
    f_equal. rewrite <- Nat.iter_add. f_equal. lia.
Qed.

(** C2, as the engine has it.  The constructor seeds the generator from the
    seed alone, and a valuation, European or American and whatever its
    option and market data are, leaves the engine with its generator
    advanced by numSimulations * numSteps draws, at least one, and nothing
    else changed.  So the engine after a sequence of calls is the constructed
    engine with its generator that many draws per call later, and a valuation
    returns the same result and leaves the same engine after any two
    sequences of earlier calls of the same length, whatever those calls
    valued. *)
Theorem valuation_reproducibility
    {T : Type} {arith : Arith T} {cmath : Cmath T} {G : Type}
    (seed_generator : Z -> G) (normal : G -> T * G)
    (numSimulations numSteps seed : Z) (e : MonteCarloEngine)
    (earlier earlier' : list (PriceCall T))
    (option : Option_) (S0 r sigma : T) :
  MonteCarloEngine_new seed_generator numSimulations numSteps seed = inr e ->
  length earlier = length earlier' ->
  let draws := (Z.to_nat numSimulations * Z.to_nat numSteps)%nat in
  (0 < draws)%nat /\
  afterCalls normal e earlier
  = with_generator e
      (Nat.iter (length earlier * draws) (advance normal) (seed_generator seed)) /\
  MonteCarloEngine_price normal (afterCalls normal e earlier) option S0 r sigma
  = MonteCarloEngine_price normal (afterCalls normal e earlier') option S0 r sigma.
Proof.
  intros Hnew Hlen draws.
  unfold MonteCarloEngine_new in Hnew.
  destruct (numSimulations <=? 0)%Z eqn:HN; [discriminate|].
  destruct (numSteps <=? 0)%Z eqn:HM; [discriminate|].
  cbn in Hnew. injection Hnew as <-.
  apply Z.leb_gt in HN, HM.
  split; [subst draws; nia|].
  rewrite !afterCalls_generator. cbn [numSimulations_ numSteps_ generator_].
  split; [reflexivity|]. now rewrite Hlen.
Qed.

Lemma F2R_zero : F2R 0 = 0%R.
Proof. reflexivity. Qed.

(** With spot 1, rate 0, volatility 1 and maturity 1 the drift is -1/2 and
    the diffusion 1. *)
Lemma generatePath_counter (g : nat) :
  generatePath counter_normal 1 1%R 0%R 1%R 1%R g
  = ([1%R; Rtrigo_def.exp (- / 2 + INR g)], Datatypes.S g).
Proof.
  unfold generatePath. change (Z.to_nat 1) with 1%nat.
  cbn [path_steps counter_normal lit exact].
  rewrite F2R_half.
  cbn -[Rtrigo_def.exp R_sqrt.sqrt Rmult Rplus Rminus Rdiv INR].
  replace (1 / 1)%R with 1%R by field. rewrite sqrt_1.
  repeat f_equal. rewrite Rmult_1_l. f_equal. ring.
Qed.

Lemma price_counter (g : nat) :
  (Rtrigo_def.exp (- / 2 + INR g) < 100)%R ->
  price (fst (MonteCarloEngine_price counter_normal
                (with_generator counter_engine g) put100 1%R 0%R 1%R))
  = (100 - Rtrigo_def.exp (- / 2 + INR g))%R.
Proof.
  intros Hlt.
  unfold MonteCarloEngine_price, priceEuropean.
  cbn [style_ put100 counter_engine with_generator numSimulations_ numSteps_
       generator_ maturity_].
  change (Z.to_nat 1) with 1%nat. cbn [europeanPayoffs].
  rewrite generatePath_counter. change (Z.to_nat 1) with 1%nat.
  cbn [fst at_ nth].
  unfold europeanResult, accumulate, payoff, std_max.
  cbn [price type_ put100 strike_ fold_left lit exact].
  rewrite F2R_zero.
  cbn -[Rtrigo_def.exp R_sqrt.sqrt Rmult Rplus Rminus Rdiv INR Rlt_dec].
  destruct (Rlt_dec _ 0) as [Hneg|_]; [lra|].
  rewrite Ropp_0, Rmult_0_l, exp_0. field.
Qed.

(** Two successive calls on the same engine, with the same option and market
    data, return different prices: the first is 100 - e^(-1/2), from the
    draw 0, the second 100 - e^(1/2), from the draw 1. *)
Lemma successive_calls_differ :
  MonteCarloEngine_new counter_seed 1 1 42 = inr counter_engine /\
  let first :=
    MonteCarloEngine_price counter_normal counter_engine put100 1%R 0%R 1%R in
  let second :=
    MonteCarloEngine_price counter_normal (snd first) put100 1%R 0%R 1%R in
  price (fst first) = (100 - Rtrigo_def.exp (- / 2))%R /\
  price (fst second) = (100 - Rtrigo_def.exp (/ 2))%R /\
  fst first <> fst second.
Proof.
  split; [reflexivity|]. intros first second. subst first second.
  rewrite price_generator.
  change (with_generator counter_engine _)
    with (with_generator counter_engine 1%nat).
  change counter_engine with (with_generator counter_engine 0%nat) at 1 3.
  assert (H3 : (Rtrigo_def.exp 1 <= 3)%R) by apply exp_le_3.
  assert (Hm : (Rtrigo_def.exp (- / 2 + INR 0) < Rtrigo_def.exp (- / 2 + INR 1))%R)
    by (apply exp_increasing; simpl; lra).
  assert (Hu : (Rtrigo_def.exp (- / 2 + INR 1) < Rtrigo_def.exp 1)%R)
    by (apply exp_increasing; simpl; lra).
  assert (H0 : (- / 2 + INR 0 = - / 2)%R) by (simpl; lra).
  assert (H1 : (- / 2 + INR 1 = / 2)%R) by (simpl; lra).
  assert (P0 : price (fst (MonteCarloEngine_price counter_normal
                  (with_generator counter_engine 0%nat) put100 1%R 0%R 1%R))
               = (100 - Rtrigo_def.exp (- / 2))%R)
    by (rewrite price_counter by lra; now rewrite H0).
  assert (P1 : price (fst (MonteCarloEngine_price counter_normal
                  (with_generator counter_engine 1%nat) put100 1%R 0%R 1%R))
               = (100 - Rtrigo_def.exp (/ 2))%R)
    by (rewrite price_counter by lra; now rewrite H1).
  split; [exact P0|]. split; [exact P1|].
  intros Heq. apply (f_equal price) in Heq.
  rewrite P0, P1 in Heq. rewrite H0, H1 in Hm. lra.
Qed.

(** Two paths of three steps: after one call, American or European, the
    generator is six draws later. *)
Lemma valuation_reproducibility_witness :
  let american :=
    {| call_option := otm_option; call_S0 := 100%float; call_r := 0.05%float;
       call_sigma := 0.2%float |} in
  let european :=
    {| call_option := absorbed_option; call_S0 := 90%float; call_r := 0.01%float;
       call_sigma := 0.3%float |} in
  @afterCalls _ binary64 constant_cmath _ half_normal three_step_engine [american]
  = with_generator three_step_engine
      (Nat.iter (1 * (2 * 3)) (advance half_normal) (half_seed 42)) /\
  @MonteCarloEngine_price _ binary64 constant_cmath _ half_normal
    (@afterCalls _ binary64 constant_cmath _ half_normal three_step_engine [american])
    otm_option 100%float 0.05%float 0.2%float
  = @MonteCarloEngine_price _ binary64 constant_cmath _ half_normal
      (@afterCalls _ binary64 constant_cmath _ half_normal three_step_engine
         [european])
      otm_option 100%float 0.05%float 0.2%float.
Proof.
  intros american european.
  exact (proj2 (@valuation_reproducibility _ binary64 constant_cmath _
                  half_seed half_normal 2 3 42 three_step_engine
                  [american] [european] otm_option 100%float 0.05%float 0.2%float
                  eq_refl eq_refl)).
Defined.

(** ** The European valuation *)

Lemma fold_left_Rplus (l : list R) (a : R) :
  fold_left Rplus l a = (a + Rsum l)%R.
Proof.
  revert a. induction l as [|x l IH]; intros a; simpl; [lra|].
  rewrite IH. lra.
Qed.

Lemma accumulate_Rsum (l : list R) : accumulate l = Rsum l.
Proof.
  unfold accumulate. cbn [add lit exact].
  rewrite F2R_zero, fold_left_Rplus. lra.
Qed.

Lemma sumSquaredDiff_Rsum (l : list R) (m : R) :
  sumSquaredDiff l m = Rsum (map (fun p => (p - m) * (p - m))%R l).
Proof.
  unfold sumSquaredDiff. cbn [add sub mul lit exact]. rewrite F2R_zero.
  assert (Hgen : forall a,
            fold_left (fun sumSquared p => sumSquared + (p - m) * (p - m))%R l a
            = (a + Rsum (map (fun p => (p - m) * (p - m))%R l))%R).
  { induction l as [|x l IH]; intros a; simpl; [lra|]. rewrite IH. lra. }
  rewrite Hgen. lra.
Qed.

Lemma F2R_1_96_pos : (0 < F2R 1.96)%R.
Proof.
  unfold F2R. replace (Prim2SF 1.96) with (S754_finite false 8827055269646172 (-52))
    by reflexivity.
  unfold SF2R, cond_Zopp.
  replace (0 <=? -52)%Z with false by reflexivity.
  replace (2 ^ (- -52))%Z with 4503599627370496%Z by reflexivity.
  lra.
Qed.

(** The result of [priceEuropean], for every arithmetic: the statistics of
    the payoffs of the last points of the paths it draws. *)
Lemma priceEuropean_europeanResult
    {T : Type} {arith : Arith T} {cmath : Cmath T} {G : Type}
    (normal : G -> T * G) (e : MonteCarloEngine)
    (option : Option_) (S0 r sigma : T) :
  let N := numSimulations_ e in
  let paths :=
    fst (generatePaths normal (Z.to_nat N) (numSteps_ e) S0 r sigma
                       (maturity_ option) (generator_ e)) in
  let payoffs :=
    map (fun path => payoff option (at_ path (Z.to_nat (numSteps_ e)))) paths in
  length payoffs = Z.to_nat N /\
  fst (priceEuropean normal e option S0 r sigma)
  = europeanResult N payoffs (exp (- r * maturity_ option))%A.
Proof.
  intros N paths payoffs. split.
  - subst payoffs paths. now rewrite length_map, generatePaths_length.
  - unfold priceEuropean. rewrite europeanPayoffs_generatePaths. reflexivity.
Qed.

(** In binary64 the bounds enclose a finite price when the standard error is
    positive. *)
Lemma europeanResult_bounds_binary64
    (N : Z) (payoffs : list float) (discount : float) :
  let res := europeanResult N payoffs discount in
  PrimFloat.ltb 0 (standardError res) = true ->
  nonfinite (price res) = false ->
  PrimFloat.leb (confidence95Lower res) (price res) = true /\
  PrimFloat.leb (price res) (confidence95Upper res) = true.
Proof.
  intros res Hse Hfin.
  apply nonfinite_false in Hfin. apply mul_1_96_nonneg in Hse.
  split; [now apply sub_nonneg_le|now apply add_nonneg_ge].
Qed.

(** In exact arithmetic the statistics are the sample mean and the unbiased
    sample variance, and the bounds are strictly around the price. *)
Lemma europeanResult_exact (N : Z) (payoffs : list R) (discount : R) :
  length payoffs = Z.to_nat N -> (0 < N)%Z ->
  let res := europeanResult N payoffs discount in
  price res = (discount * spec_mean payoffs)%R /\
  standardError res
  = (discount * R_sqrt.sqrt (spec_unbiasedVariance payoffs / IZR N))%R /\
  ((0 < standardError res)%R ->
   (confidence95Lower res < price res < confidence95Upper res)%R).
Proof.
  intros Hlen HN res.
  assert (HINR : INR (length payoffs) = IZR N).
  { rewrite Hlen, INR_IZR_INZ, Z2Nat.id by lia. reflexivity. }
  assert (Hmean : (accumulate payoffs / of_int N)%A = spec_mean payoffs).
  { unfold spec_mean. rewrite HINR, accumulate_Rsum. reflexivity. }
  subst res. unfold europeanResult.
  cbn [price standardError confidence95Lower confidence95Upper].
  rewrite Hmean, sumSquaredDiff_Rsum.
  cbn [add sub mul div sqrt lit of_int exact].
  split; [reflexivity|]. split.
  { unfold spec_unbiasedVariance. rewrite HINR, minus_IZR. reflexivity. }
  intros Hse. pose proof F2R_1_96_pos as Hc.
  pose proof (Rmult_lt_0_compat _ _ Hc Hse) as Hprod.
  lra.
Qed.

(** C5, as the doubles have it.  For every arithmetic, [priceEuropean]
    returns the statistics of the payoffs of the N terminal prices it draws:
    the discount factor e^(-rT) times their mean as price, e^(-rT) times the
    square root of their sum of squared deviations over N - 1, over N, as
    standard error, price minus and plus 1.96 standard errors as bounds, and
    N.  In binary64 the bounds enclose the price, not strictly, when the
    standard error is positive and the price finite.  In exact arithmetic
    the mean and the variance are the sample mean and the unbiased sample
    variance, and the bounds are strictly around the price when the standard
    error is positive. *)
Theorem priceEuropean_statistics :
  (forall (T : Type) (arith : Arith T) (cmath : Cmath T) (G : Type)
          (normal : G -> T * G) (e : MonteCarloEngine)
          (option : Option_) (S0 r sigma : T),
     let N := numSimulations_ e in
     let paths :=
       fst (generatePaths normal (Z.to_nat N) (numSteps_ e) S0 r sigma
                          (maturity_ option) (generator_ e)) in
     let payoffs :=
       map (fun path => payoff option (at_ path (Z.to_nat (numSteps_ e)))) paths in
     let discount := (exp (- r * maturity_ option))%A in
     let mean := (accumulate payoffs / of_int N)%A in
     let res := fst (priceEuropean normal e option S0 r sigma) in
     length payoffs = Z.to_nat N /\
     res = europeanResult N payoffs discount /\
     price res = (discount * mean)%A /\
     standardError res
     = (discount * sqrt (sumSquaredDiff payoffs mean / of_int (N - 1)
                         / of_int N))%A /\
     confidence95Lower res = (price res - lit 1.96 * standardError res)%A /\
     confidence95Upper res = (price res + lit 1.96 * standardError res)%A /\
     numSimulations res = N)
  /\ (forall (N : Z) (payoffs : list float) (discount : float),
        let res := europeanResult N payoffs discount in
        PrimFloat.ltb 0 (standardError res) = true ->
        nonfinite (price res) = false ->
        PrimFloat.leb (confidence95Lower res) (price res) = true /\
        PrimFloat.leb (price res) (confidence95Upper res) = true)
  /\ (forall (N : Z) (payoffs : list R) (discount : R),
        length payoffs = Z.to_nat N -> (0 < N)%Z ->
        let res := europeanResult N payoffs discount in
        price res = (discount * spec_mean payoffs)%R /\
        standardError res
        = (discount * R_sqrt.sqrt (spec_unbiasedVariance payoffs / IZR N))%R /\
        ((0 < standardError res)%R ->
         (confidence95Lower res < price res < confidence95Upper res)%R)).
Proof.
  split; [|split].
  - intros T arith cmath G normal e option S0 r sigma N paths payoffs discount
           mean res.
    destruct (priceEuropean_europeanResult normal e option S0 r sigma)
      as [Hlen Hres].
    fold N in Hlen, Hres. fold paths in Hlen, Hres. fold payoffs in Hlen, Hres.
    fold discount in Hres. fold res in Hres.
    split; [exact Hlen|]. split; [exact Hres|].
    rewrite Hres. repeat split; reflexivity.
  - exact europeanResult_bounds_binary64.
  - exact europeanResult_exact.
Qed.

(** In binary64 the bounds can coincide with the price although the
    standard error is positive: here the payoffs are 50 nine times and
    50 + 2^-46 once, the price is 50, whose neighbouring doubles are 2^-47
    away, and 1.96 standard errors are about 2.9e-15, less than half of
    that. *)
Lemma confidence_bounds_absorbed :
  let payoffs := map (payoff absorbed_option) absorbed_terminal in
  let res := europeanResult 10 payoffs 1%float in
  payoffs = [50; 50; 50; 50; 50; 50; 50; 50; 50; 50 + 0x1p-46]%float /\
  price res = 50%float /\
  PrimFloat.ltb 0 (standardError res) = true /\
  confidence95Lower res = price res /\
  confidence95Upper res = price res /\
  PrimFloat.ltb (confidence95Lower res) (price res) = false /\
  PrimFloat.ltb (price res) (confidence95Upper res) = false.
Proof. repeat split; vm_compute; reflexivity. Qed.

Lemma priceEuropean_statistics_witness :
  let res := europeanResult 10 (map (payoff absorbed_option) absorbed_terminal)
                            1%float in
  PrimFloat.leb (confidence95Lower res) (price res) = true /\
  PrimFloat.leb (price res) (confidence95Upper res) = true.
Proof.
  exact (proj1 (proj2 priceEuropean_statistics) 10%Z
           (map (payoff absorbed_option) absorbed_terminal) 1%float
           eq_refl eq_refl).
Defined.

(** * Further properties of the sources *)

(** ** More of binary64: results that are exact *)

Section ExactRounding.
Local Open Scope Z_scope.

Lemma iter_pos_nat {A : Type} (f : A -> A) (p : positive) : forall x,
  SpecFloat.iter_pos f p x = Nat.iter (Pos.to_nat p) f x.
Proof.
  induction p as [p IH|p IH|]; intros x; cbn [SpecFloat.iter_pos].
  - rewrite !IH, Pos2Nat.inj_xI, <- Nat.iter_add, <- Nat.iter_succ_r.
    f_equal. lia.
  - rewrite !IH, Pos2Nat.inj_xO, <- Nat.iter_add. f_equal. lia.
  - reflexivity.
Qed.

Lemma shiftl_nat_value (q : positive) (k : nat) :
  Zpos (Pos.shiftl_nat q k) = Zpos q * 2 ^ Z.of_nat k.
Proof.
  induction k as [|k IH]; [simpl; lia|].
  change (Pos.shiftl_nat q (Datatypes.S k)) with (xO (Pos.shiftl_nat q k)).
  rewrite Nat2Z.inj_succ, Z.pow_succ_r by lia.
  assert (E : Zpos (Pos.shiftl_nat q k)~0 = 2 * Zpos (Pos.shiftl_nat q k)) by lia.
  rewrite E, IH. ring.
Qed.

(** Shifting out bits that are zero leaves no remainder. *)
Lemma shr_exact (k : nat) (q : positive) :
  Nat.iter k shr_1 (Build_shr_record (Zpos (Pos.shiftl_nat q k)) false false)
  = Build_shr_record (Zpos q) false false.
Proof.
  induction k as [|k IH]; [reflexivity|].
  rewrite Nat.iter_succ_r. exact IH.
Qed.

Lemma digits_shiftl_nat (q : positive) (k : nat) :
  digits (Pos.shiftl_nat q k) = digits q + Z.of_nat k.
Proof.
  induction k as [|k IH]; [simpl; lia|].
  change (Pos.shiftl_nat q (Datatypes.S k)) with (xO (Pos.shiftl_nat q k)).
  unfold digits in *. cbn [digits2_pos]. rewrite Pos2Z.inj_succ, IH. lia.
Qed.

(** A mantissa that is a representable one shifted left rounds to the
    representable one. *)
Lemma binary_round_aux_exact s m e (k : nat) :
  canonical m e -> e <= emax - prec ->
  binary_round_aux prec emax s (Zpos (Pos.shiftl_nat m k)) (e - Z.of_nat k) loc_Exact
  = S754_finite s m e.
Proof.
  intros Hcan He. unfold binary_round_aux.
  assert (H1 : shr_fexp prec emax (Zpos (Pos.shiftl_nat m k)) (e - Z.of_nat k) loc_Exact
               = (Build_shr_record (Zpos m) false false, e)).
  { unfold shr_fexp, shr. cbn [Zdigits2 shr_record_of_loc].
    fold (digits (Pos.shiftl_nat m k)). rewrite digits_shiftl_nat.
    replace (digits m + Z.of_nat k + (e - Z.of_nat k)) with (digits m + e) by lia.
    unfold canonical in Hcan. rewrite Hcan.
    replace (e - (e - Z.of_nat k)) with (Z.of_nat k) by lia.
    destruct k as [|k]; [cbn; f_equal; lia|].
    change (Z.of_nat (Datatypes.S k)) with (Zpos (Pos.of_succ_nat k)).
    cbv beta iota. rewrite iter_pos_nat, SuccNat2Pos.id_succ, shr_exact.
    f_equal. lia. }
  rewrite H1. cbn [shr_m loc_of_shr_record round_nearest_even].
  assert (H2 : shr_fexp prec emax (Zpos m) e loc_Exact
               = (Build_shr_record (Zpos m) false false, e)).
  { unfold shr_fexp, shr. cbn [Zdigits2 shr_record_of_loc].
    fold (digits m). unfold canonical in Hcan. rewrite Hcan, Z.sub_diag. reflexivity. }
  rewrite H2. cbn [shr_m].
  destruct (e <=? emax - prec) eqn:Hle; [reflexivity|]. apply Z.leb_gt in Hle. lia.
Qed.

Lemma SFdiv_one (x : spec_float) :
  valid_binary x = true ->
  SF64div x (S754_finite false 4503599627370496 (-52)) = x.
Proof.
  intros Vx. destruct x as [sx|sx| |sx mx ex]; cbn [SF64div SFdiv];
    try (destruct sx; reflexivity); try reflexivity.
  destruct (valid_canonical _ _ _ Vx) as [Hcan Hex].
  pose proof (canonical_ge _ _ Hcan) as Hge.
  unfold SFdiv_core_binary.
  change (Zdigits2 (Zpos 4503599627370496)) with 53.
  cbn [Zdigits2]. fold (digits mx).
  set (e' := Z.min (fexp64 (digits mx + ex - (53 + -52))) (ex - -52)).
  assert (He' : e' = fexp64 (digits mx + ex - 1)).
  { subst e'. replace (digits mx + ex - (53 + -52)) with (digits mx + ex - 1) by lia.
    pose proof (fexp64_mono (digits mx + ex - 1) (digits mx + ex) ltac:(lia)) as Hm.
    unfold canonical in Hcan. rewrite Hcan in Hm. lia. }
  assert (Hle : e' <= ex).
  { rewrite He'. pose proof (fexp64_mono (digits mx + ex - 1) (digits mx + ex) ltac:(lia)) as Hm.
    unfold canonical in Hcan. rewrite Hcan in Hm. exact Hm. }
  set (s := ex - -52 - e').
  assert (Hs : 52 <= s) by (subst s; lia).
  destruct s as [|p|p] eqn:Hsp; try lia.
  set (k := Z.to_nat (Zpos p - 52)).
  assert (Hm' : Z.shiftl (Zpos mx) (Zpos p)
                = Zpos (Pos.shiftl_nat mx k) * 4503599627370496).
  { rewrite Z.shiftl_mul_pow2 by lia. rewrite shiftl_nat_value.
    subst k. rewrite Z2Nat.id by lia.
    change 4503599627370496 with (2 ^ 52).
    rewrite <- Z.mul_assoc, <- Z.pow_add_r by lia. f_equal. f_equal. lia. }
  rewrite Hm'.
  assert (Hdiv : Z.div_eucl (Zpos (Pos.shiftl_nat mx k) * 4503599627370496)
                            4503599627370496
                 = (Zpos (Pos.shiftl_nat mx k), 0)).
  { pose proof (Z.div_eucl_eq (Zpos (Pos.shiftl_nat mx k) * 4503599627370496)
                  4503599627370496 ltac:(lia)) as Heq.
    pose proof (Z.mod_pos_bound (Zpos (Pos.shiftl_nat mx k) * 4503599627370496)
                  4503599627370496 ltac:(lia)) as Hb.
    unfold Z.modulo in Hb.
    destruct (Z.div_eucl _ _) as [q r]. f_equal; nia. }
  rewrite Hdiv. change (new_location 4503599627370496 0) with loc_Exact.
  replace e' with (ex - Z.of_nat k) by (subst k; lia).
  rewrite xorb_false_r. apply binary_round_aux_exact; assumption.
Qed.

Lemma div_1 (x : float) : (x / 1)%float = x.
Proof.
  apply Prim2SF_inj. rewrite div_spec.
  replace (Prim2SF 1) with (S754_finite false 4503599627370496 (-52)) by reflexivity.
  apply SFdiv_one, Prim2SF_valid.
Qed.

Lemma SFmul_comm (x y : spec_float) : SF64mul x y = SF64mul y x.
Proof.
  destruct x as [sx|sx| |sx mx ex], y as [sy|sy| |sy my ey]; cbn [SF64mul SFmul];
    try reflexivity; try (now rewrite xorb_comm).
  now rewrite xorb_comm, Pos.mul_comm, Z.add_comm.
Qed.

Lemma mul_comm (x y : float) : (x * y)%float = (y * x)%float.
Proof. apply Prim2SF_inj. rewrite !mul_spec. apply SFmul_comm. Qed.

End ExactRounding.

(** ** More of binary64: opposite differences *)

Section OppositeDifferences.
Local Open Scope Z_scope.

Lemma binary_round_aux_opp s M e l :
  binary_round_aux prec emax (negb s) M e l
  = SFopp (binary_round_aux prec emax s M e l).
Proof.
  unfold binary_round_aux.
  destruct (shr_fexp prec emax M e l) as [mrs' e'].
  destruct (shr_fexp prec emax _ e' loc_Exact) as [mrs'' e''].
  destruct (shr_m mrs''); try reflexivity.
  destruct (e'' <=? emax - prec); reflexivity.
Qed.

Lemma binary_round_opp m e :
  binary_round prec emax true m e = SFopp (binary_round prec emax false m e).
Proof.
  unfold binary_round. destruct (shl_align _ _ _) as [mz ez].
  exact (binary_round_aux_opp false (Zpos mz) ez loc_Exact).
Qed.

(** Rounding a nonzero multiple of 2^-1074 gives no zero and no NaN. *)
Lemma binary_round_nonzero s m e : -1074 <= e ->
  match binary_round prec emax s m e with
  | S754_finite s' _ _ | S754_infinity s' => s' = s
  | _ => False
  end.
Proof.
  intros He.
  assert (Hcan : canonical 1 (-1074)) by reflexivity.
  assert (Hle : scaled 1 (-1074) <= scaled (Zpos m) e).
  { unfold scaled. change (2 ^ (-1074 + 1074)) with 1.
    assert (0 < 2 ^ (e + 1074)) by (apply Z.pow_pos_nonneg; lia). nia. }
  pose proof (binary_round_shape s m e) as Hs.
  destruct (binary_round_lower s m e 1 (-1074) He Hcan Hle) as [H|(m' & e' & H & _)];
    rewrite H in *; [reflexivity|exact Hs].
Qed.

(** The difference the other way round is the opposite, or both are +0. *)
Lemma binary_normalize_opp a b e : -1074 <= e ->
  match binary_normalize prec emax (a - b) e false with
  | S754_zero sz =>
      sz = false /\ binary_normalize prec emax (b - a) e false = S754_zero false
  | S754_nan => False
  | d => binary_normalize prec emax (b - a) e false = SFopp d
  end.
Proof.
  intros He. replace (b - a) with (- (a - b)) by lia.
  destruct (a - b) as [|p|p].
  - split; reflexivity.
  - change (- Zpos p) with (Zneg p). cbn [binary_normalize].
    rewrite binary_round_opp. pose proof (binary_round_nonzero false p e He) as H.
    destruct (binary_round prec emax false p e); try contradiction; reflexivity.
  - change (- Zneg p) with (Zpos p). cbn [binary_normalize].
    rewrite binary_round_opp. pose proof (binary_round_nonzero false p e He) as H.
    destruct (binary_round prec emax false p e) as [s|s| |s m e0];
      try contradiction; subst s; reflexivity.
Qed.

Lemma SFpayoff_parity (x y : spec_float) :
  valid_binary x = true -> valid_binary y = true ->
  let zero := S754_zero false in
  let d := SF64sub x y in
  let d' := SF64sub y x in
  SF64sub (if SFltb d zero then zero else d) (if SFltb d' zero then zero else d') = d.
Proof.
  intros Vx Vy zero d d'. subst zero d d'.
  destruct x as [sx|sx| |sx mx ex], y as [sy|sy| |sy my ey];
    try (destruct sx, sy; reflexivity);
    try (destruct sx; reflexivity); try (destruct sy; reflexivity);
    try reflexivity.
  destruct (valid_canonical _ _ _ Vx) as [Hx _].
  destruct (valid_canonical _ _ _ Vy) as [Hy _].
  pose proof (canonical_ge _ _ Hx) as Hgx. pose proof (canonical_ge _ _ Hy) as Hgy.
  cbn [SF64sub SFsub]. rewrite (Z.min_comm ey ex).
  set (ez := Z.min ex ey).
  set (a := cond_Zopp sx (Zpos (fst (shl_align mx ex ez)))).
  set (b := cond_Zopp sy (Zpos (fst (shl_align my ey ez)))).
  pose proof (binary_normalize_opp a b ez ltac:(subst ez; lia)) as H.
  destruct (binary_normalize prec emax (a - b) ez false) as [s|s| |s m e] eqn:Hd.
  - destruct H as [-> ->]. reflexivity.
  - rewrite H. destruct s; reflexivity.
  - contradiction.
  - rewrite H. destruct s; reflexivity.
Qed.

End OppositeDifferences.

(** ** More of binary64: signs *)

Section Signs.
Local Open Scope Z_scope.

Lemma nonneg_or_nan_spec (p : float) :
  sf_nonneg_or_nan (Prim2SF p) = true
  <-> isnan p = true \/ PrimFloat.leb 0 p = true.
Proof.
  unfold isnan. rewrite leb_spec. unfold SFleb.
  replace (Prim2SF 0) with (S754_zero false) by reflexivity.
  destruct (Prim2SF p) as [s|s| |s m e]; simpl;
    try destruct s; simpl; intuition congruence.
Qed.

Lemma binary_normalize_nonneg M e : 0 <= M ->
  sf_divisor (binary_normalize prec emax M e false) = true.
Proof.
  intros HM. destruct M as [|p|p]; try lia; [reflexivity|].
  cbn [binary_normalize]. pose proof (binary_round_shape false p e) as H.
  destruct (binary_round prec emax false p e) as [s|s| |s m e'];
    try contradiction; subst s; reflexivity.
Qed.

Lemma SFadd_nn x y :
  sf_nonneg_or_nan x = true -> sf_nonneg_or_nan y = true ->
  sf_nonneg_or_nan (SF64add x y) = true.
Proof.
  destruct x as [sx|sx| |sx mx ex], y as [sy|sy| |sy my ey];
    try (destruct sx; try discriminate); try (destruct sy; try discriminate);
    try reflexivity; intros _ _.
  cbn [SF64add SFadd cond_Zopp].
  set (ez := Z.min ex ey).
  pose proof (binary_normalize_nonneg
                (Zpos (fst (shl_align mx ex ez)) + Zpos (fst (shl_align my ey ez)))
                ez ltac:(lia)) as H.
  destruct (binary_normalize _ _ _ _ _) as [s|s| |s m e]; try discriminate;
    destruct s; try discriminate; reflexivity.
Qed.

Lemma SFmul_nn x y :
  sf_nonneg_or_nan x = true -> sf_nonneg_or_nan y = true ->
  sf_nonneg_or_nan (SF64mul x y) = true.
Proof.
  destruct x as [sx|sx| |sx mx ex], y as [sy|sy| |sy my ey];
    try (destruct sx; try discriminate); try (destruct sy; try discriminate);
    try reflexivity; intros _ _.
  cbn [SF64mul SFmul xorb].
  pose proof (binary_round_aux_shape false (Zpos (mx * my)) (ex + ey) loc_Exact
                ltac:(lia)) as H.
  destruct (binary_round_aux _ _ _ _ _ _) as [s|s| |s m e];
    try contradiction; subst s; reflexivity.
Qed.

Lemma SFmul_square x : sf_nonneg_or_nan (SF64mul x x) = true.
Proof.
  destruct x as [sx|sx| |sx mx ex]; cbn [SF64mul SFmul];
    try (destruct sx; reflexivity); try reflexivity.
  rewrite xorb_nilpotent.
  pose proof (binary_round_aux_shape false (Zpos (mx * mx)) (ex + ex) loc_Exact
                ltac:(lia)) as H.
  destruct (binary_round_aux _ _ _ _ _ _) as [s|s| |s m e];
    try contradiction; subst s; reflexivity.
Qed.

Lemma SFdiv_core_nonneg m1 e1 m2 e2 :
  0 <= fst (fst (SFdiv_core_binary prec emax (Zpos m1) e1 (Zpos m2) e2)).
Proof.
  unfold SFdiv_core_binary.
  set (s := _ - _ - _).
  set (m' := match s with Zpos _ => Z.shiftl (Zpos m1) s | Z0 => Zpos m1
                        | Zneg _ => 0 end).
  assert (Hm' : 0 <= m').
  { subst m'. destruct s; try lia. apply Z.shiftl_nonneg. lia. }
  pose proof (Z.div_pos m' (Zpos m2) Hm' ltac:(lia)) as Hq.
  unfold Z.div in Hq. destruct (Z.div_eucl m' (Zpos m2)) as [q r]. exact Hq.
Qed.

Lemma SFdiv_nn x y :
  sf_nonneg_or_nan x = true -> sf_divisor y = true ->
  sf_nonneg_or_nan (SF64div x y) = true.
Proof.
  destruct x as [sx|sx| |sx mx ex], y as [sy|sy| |sy my ey];
    try (destruct sx; try discriminate); try (destruct sy; try discriminate);
    try reflexivity; intros _ _.
  cbn [SF64div SFdiv xorb].
  pose proof (SFdiv_core_nonneg mx ex my ey) as Hq.
  destruct (SFdiv_core_binary prec emax (Zpos mx) ex (Zpos my) ey) as [[mz ez] lz].
  cbn [fst] in Hq.
  pose proof (binary_round_aux_shape false mz ez lz Hq) as H.
  destruct (binary_round_aux _ _ _ _ _ _) as [s|s| |s m e];
    try contradiction; subst s; reflexivity.
Qed.

Lemma SFsqrt_core_nonneg m e :
  0 <= fst (fst (SFsqrt_core_binary prec emax (Zpos m) e)).
Proof.
  unfold SFsqrt_core_binary.
  set (s := _ - _).
  set (m' := match s with Zpos _ => Z.shiftl (Zpos m) s | Z0 => Zpos m
                        | Zneg _ => 0 end).
  assert (Hm' : 0 <= m').
  { subst m'. destruct s; try lia. apply Z.shiftl_nonneg. lia. }
  pose proof (Z.sqrtrem_spec m' Hm') as Hs.
  destruct (Z.sqrtrem m') as [q r]. cbn [fst]. lia.
Qed.

Lemma SFsqrt_nn x :
  sf_nonneg_or_nan x = true -> sf_nonneg_or_nan (SF64sqrt x) = true.
Proof.
  destruct x as [sx|sx| |sx mx ex];
    try (destruct sx; try discriminate); try reflexivity; intros _.
  cbn [SF64sqrt SFsqrt].
  pose proof (SFsqrt_core_nonneg mx ex) as Hq.
  destruct (SFsqrt_core_binary prec emax (Zpos mx) ex) as [[mz ez] lz].
  cbn [fst] in Hq.
  pose proof (binary_round_aux_shape false mz ez lz Hq) as H.
  destruct (binary_round_aux _ _ _ _ _ _) as [s|s| |s m e];
    try contradiction; subst s; reflexivity.
Qed.

Lemma of_int_divisor (z : Z) : 0 <= z -> sf_divisor (Prim2SF (float_of_int z)) = true.
Proof.
  intros Hz. destruct z as [|p|p]; try lia; [reflexivity|].
  cbn [float_of_int]. rewrite of_uint63_spec.
  apply binary_normalize_nonneg. apply Uint63.to_Z_bounded.
Qed.

End Signs.

Lemma leb_0_false (x : float) :
  PrimFloat.leb x 0 = false <-> isnan x = true \/ PrimFloat.ltb 0 x = true.
Proof.
  unfold isnan. rewrite leb_spec, ltb_spec. unfold SFleb, SFltb.
  replace (Prim2SF 0) with (S754_zero false) by reflexivity.
  destruct (Prim2SF x) as [s|s| |s m e]; simpl;
    try destruct s; simpl; intuition congruence.
Qed.

Lemma SFcompare_None (x y : spec_float) :
  SFcompare x y = None <-> x = S754_nan \/ y = S754_nan.
Proof.
  destruct x as [sx|sx| |sx mx ex], y as [sy|sy| |sy my ey]; simpl;
    try (intuition congruence);
    try (destruct sx; intuition congruence);
    try (destruct sy; intuition congruence);
    try (destruct sx, sy; intuition congruence);
    destruct sx, sy; try (intuition congruence);
    destruct (ex ?= ey)%Z; intuition congruence.
Qed.

Lemma leb_1_false (x : float) :
  PrimFloat.leb 1 x = false <-> isnan x = true \/ PrimFloat.ltb x 1 = true.
Proof.
  unfold isnan. rewrite leb_spec, ltb_spec. unfold SFleb, SFltb.
  rewrite (SFcompare_antisym (Prim2SF x) (Prim2SF 1)).
  pose proof (SFcompare_None (Prim2SF x) (Prim2SF 1)) as HN.
  replace (Prim2SF 1) with (S754_finite false 4503599627370496 (-52)) in *
    by reflexivity.
  destruct (SFcompare (Prim2SF x) _) as [[]|] eqn:Hc; simpl.
  - split; [discriminate|]. intros [H|H]; [|discriminate].
    destruct (Prim2SF x); discriminate.
  - split; auto.
  - split; [discriminate|]. intros [H|H]; [|discriminate].
    destruct (Prim2SF x); discriminate.
  - split; [|reflexivity]. intros _. left.
    destruct (proj1 HN eq_refl) as [->|H]; [reflexivity|discriminate].
Qed.

Lemma isnan_mul_l (x y : float) : isnan x = true -> isnan (x * y) = true.
Proof.
  unfold isnan. rewrite mul_spec. destruct (Prim2SF x); try discriminate.
  reflexivity.
Qed.

Lemma isnan_mul_r (x y : float) : isnan y = true -> isnan (x * y) = true.
Proof.
  unfold isnan. rewrite mul_spec. destruct (Prim2SF y); try discriminate.
  destruct (Prim2SF x); reflexivity.
Qed.

Lemma isnan_sqrt (x : float) : isnan x = true -> isnan (PrimFloat.sqrt x) = true.
Proof.
  unfold isnan. rewrite sqrt_spec. destruct (Prim2SF x); try discriminate.
  reflexivity.
Qed.

Lemma SFsub_self (x : spec_float) :
  match SF64sub x x with S754_zero _ | S754_nan => True | _ => False end.
Proof.
  destruct x as [s|s| |s m e]; cbn [SF64sub SFsub]; try (destruct s; exact I);
    try exact I.
  rewrite Z.min_id, Z.sub_diag. exact I.
Qed.

Lemma sub_self_square (r : float) :
  isnan (((0 + (r - (0 + r)) * (r - (0 + r))) / 0)%float) = true.
Proof.
  unfold isnan.
  rewrite div_spec, add_spec, mul_spec, sub_spec, add_spec.
  replace (Prim2SF 0) with (S754_zero false) by reflexivity.
  pose proof (SFsub_self (Prim2SF r)) as Hs.
  destruct (Prim2SF r) as [s|s| |s m e].
  - destruct s; reflexivity.
  - destruct s; reflexivity.
  - reflexivity.
  - cbn [SF64add SFadd]. destruct (SF64sub _ _) as [s'|s'| |s' m' e'];
      try contradiction; [destruct s'|]; reflexivity.
Qed.

Section VolatilitySigns.
Local Open Scope Z_scope.

Lemma SFltb_value m1 e1 m2 e2 :
  canonical m1 e1 -> canonical m2 e2 ->
  SFltb (S754_finite false m1 e1) (S754_finite false m2 e2) = true ->
  scaled (Zpos m1) e1 < scaled (Zpos m2) e2.
Proof.
  intros H1 H2 Hlt.
  destruct (Z.lt_ge_cases (scaled (Zpos m1) e1) (scaled (Zpos m2) e2)) as [H|H];
    [exact H|].
  pose proof (SFleb_pos _ _ _ _ H2 H1 H) as Hle.
  unfold SFltb in Hlt. unfold SFleb in Hle.
  rewrite (SFcompare_antisym (S754_finite false m1 e1) (S754_finite false m2 e2)) in Hle.
  destruct (SFcompare (S754_finite false m1 e1) (S754_finite false m2 e2)) as [[]|];
    discriminate.
Qed.

(** [1.0 - lambda] of a lambda that the constructor accepts. *)
Lemma SFsub_one_nn (y : spec_float) :
  valid_binary y = true ->
  y = S754_nan \/
  (SFltb (S754_zero false) y = true /\
   SFltb y (S754_finite false 4503599627370496 (-52)) = true) ->
  sf_nonneg_or_nan (SF64sub (S754_finite false 4503599627370496 (-52)) y) = true.
Proof.
  intros Vy [->|[H0 H1]]; [reflexivity|].
  destruct y as [sy|sy| |sy my ey]; try discriminate;
    try (destruct sy; discriminate).
  destruct sy; [discriminate|].
  destruct (valid_canonical _ _ _ Vy) as [Hy _].
  assert (Hone : canonical 4503599627370496 (-52)) by reflexivity.
  pose proof (SFltb_value _ _ _ _ Hy Hone H1) as Hv.
  pose proof (canonical_ge _ _ Hy) as Hgy.
  cbn [SF64sub SFsub cond_Zopp].
  destruct (aligned_values 4503599627370496 (-52) my ey ltac:(lia) Hgy)
    as (Ha & Hb & Hez & _ & _).
  set (ez := Z.min (-52) ey) in *.
  set (a := Zpos (fst (shl_align 4503599627370496 (-52) ez))) in *.
  set (b := Zpos (fst (shl_align my ey ez))) in *.
  assert (Hab : 0 <= a - b).
  { rewrite <- Ha, <- Hb in Hv. apply scaled_lt_iff in Hv; lia. }
  pose proof (binary_normalize_nonneg (a - b) ez Hab) as H.
  destruct (binary_normalize _ _ _ _ _) as [s|s| |s m e]; try discriminate;
    destruct s; try discriminate; reflexivity.
Qed.

(** The sign of (x * r) * r is that of x. *)
Lemma SFmul_twice_nn (x r : spec_float) :
  sf_nonneg_or_nan x = true ->
  sf_nonneg_or_nan (SF64mul (SF64mul x r) r) = true.
Proof.
  intros Hx.
  destruct r as [sr|sr| |sr mr er].
  - destruct x as [sx|sx| |sx mx ex]; try (destruct sx; try discriminate);
      destruct sr; reflexivity.
  - destruct x as [sx|sx| |sx mx ex]; try (destruct sx; try discriminate);
      destruct sr; reflexivity.
  - destruct x; reflexivity.
  - destruct x as [sx|sx| |sx mx ex]; try (destruct sx; try discriminate);
      try (destruct sr; reflexivity); try reflexivity.
    cbn [SF64mul SFmul xorb].
    pose proof (binary_round_aux_shape sr (Zpos (mx * mr)) (ex + er) loc_Exact
                  ltac:(lia)) as H.
    destruct (binary_round_aux prec emax sr _ _ _) as [s|s| |s m e];
      try contradiction; subst s.
    + destruct sr; reflexivity.
    + destruct sr; reflexivity.
    + cbn [SF64mul SFmul]. rewrite xorb_nilpotent.
      pose proof (binary_round_aux_shape false (Zpos (m * mr)) (e + er) loc_Exact
                    ltac:(lia)) as H'.
      destruct (binary_round_aux prec emax false _ _ _) as [s'|s'| |s' m' e'];
        try contradiction; subst s'; reflexivity.
Qed.

End VolatilitySigns.

(** ** The payoff *)

Lemma SFsub_nan (x y : spec_float) :
  SF64sub x y = S754_nan <->
  x = S754_nan \/ y = S754_nan \/
  exists s, x = S754_infinity s /\ y = S754_infinity s.
Proof.
  destruct x as [sx|sx| |sx mx ex], y as [sy|sy| |sy my ey];
    cbn [SF64sub SFsub];
    try (split; [discriminate|intros [H|[H|(s & H1 & H2)]]; discriminate]);
    try (split; [intros _|reflexivity]; auto; fail).
  - destruct sx, sy; cbn; split; try discriminate; try (intros [H|[H|(s & H1 & H2)]]; discriminate);
      try (intros [H|[H|(s & H1 & H2)]]; try discriminate; congruence).
  - destruct sx, sy; cbn;
      (split; [try discriminate; intros _; right; right; eauto
              |try reflexivity; intros [H|[H|(s & H1 & H2)]]; try discriminate; congruence]).
  - split; [|intros [H|[H|(s & H1 & H2)]]; discriminate].
    set (e := Z.min ex ey).
    set (M := (_ - _)%Z).
    destruct M as [|p|p]; cbn [binary_normalize]; [discriminate| |].
    + pose proof (binary_round_shape false p e) as H.
      destruct (binary_round _ _ _ _ _); try contradiction; discriminate.
    + pose proof (binary_round_shape true p e) as H.
      destruct (binary_round _ _ _ _ _); try contradiction; discriminate.
Qed.

(** X1.  In binary64 a payoff is never negative.  It is a NaN exactly when
    the difference it is computed from is one, spot - strike for a call and
    strike - spot for a put, which is the case exactly when the spot is a
    NaN, the strike is a NaN, or both are the same infinity; otherwise the
    payoff is at least zero. *)
Theorem payoff_nonnegative (o : Option_) (spot : float) :
  let d := match type_ o with
           | CALL => (spot - strike_ o)%float
           | PUT => (strike_ o - spot)%float
           end in
  isnan (payoff o spot) = isnan d /\
  (isnan d = false -> PrimFloat.leb 0 (payoff o spot) = true) /\
  (isnan d = true <->
   isnan spot = true \/ isnan (strike_ o) = true \/
   exists s, Prim2SF spot = S754_infinity s /\
             Prim2SF (strike_ o) = S754_infinity s).
Proof.
  intros d.
  assert (Hmax : payoff o spot = if PrimFloat.ltb d 0 then 0%float else d).
  { unfold payoff, std_max, d. cbn [ltb sub lit binary64]. now destruct (type_ o). }
  assert (Hd : isnan (if PrimFloat.ltb d 0 then 0%float else d) = isnan d /\
               (isnan d = false ->
                PrimFloat.leb 0 (if PrimFloat.ltb d 0 then 0%float else d) = true)).
  { unfold isnan. rewrite ltb_spec.
    destruct (SFltb (Prim2SF d) (Prim2SF 0)) eqn:Hlt.
    - split; [|reflexivity]. revert Hlt. unfold SFltb.
      destruct (Prim2SF d); try discriminate; reflexivity.
    - split; [reflexivity|]. revert Hlt. rewrite leb_spec. unfold SFltb, SFleb.
      rewrite (SFcompare_antisym (Prim2SF d) (Prim2SF 0)).
      replace (Prim2SF 0) with (S754_zero false) by reflexivity.
      destruct (Prim2SF d) as [s|s| |s m e]; simpl; auto; destruct s; simpl; auto;
        discriminate. }
  rewrite Hmax. split; [apply Hd|]. split; [apply Hd|].
  assert (Hn : forall x : float, isnan x = true <-> Prim2SF x = S754_nan).
  { intros x. unfold isnan. destruct (Prim2SF x); split; congruence. }
  rewrite !Hn. unfold d. destruct (type_ o); rewrite sub_spec, SFsub_nan.
  - tauto.
  - split.
    + intros [H|[H|(s & H1 & H2)]]; eauto 6.
    + intros [H|[H|(s & H1 & H2)]]; eauto 6.
Qed.

(** X2.  The payoff of a call minus the payoff of the put with the same
    strike is the difference spot - strike as the arithmetic computes it: in
    binary64 the same double, whatever the two doubles are, and in exact
    arithmetic the same real. *)
Theorem payoff_parity :
  (forall (strike maturity : float) (style : ExerciseStyle) (spot : float),
     let call := {| strike_ := strike; maturity_ := maturity; type_ := CALL;
                    style_ := style |} in
     let put := {| strike_ := strike; maturity_ := maturity; type_ := PUT;
                   style_ := style |} in
     (payoff call spot - payoff put spot = spot - strike)%float) /\
  (forall (strike maturity : R) (style : ExerciseStyle) (spot : R),
     let call := {| strike_ := strike; maturity_ := maturity; type_ := CALL;
                    style_ := style |} in
     let put := {| strike_ := strike; maturity_ := maturity; type_ := PUT;
                   style_ := style |} in
     (payoff call spot - payoff put spot = spot - strike)%R).
Proof.
  split.
  - intros strike maturity style spot call put.
    unfold payoff, std_max. cbn [type_ strike_ call put ltb sub lit binary64].
    assert (Hif : forall (b : bool) (u v : float),
              Prim2SF (if b then u else v) = if b then Prim2SF u else Prim2SF v)
      by (intros []; reflexivity).
    apply Prim2SF_inj. rewrite sub_spec, !Hif, !ltb_spec, !sub_spec.
    exact (SFpayoff_parity (Prim2SF spot) (Prim2SF strike)
             (Prim2SF_valid _) (Prim2SF_valid _)).
  - intros strike maturity style spot call put.
    unfold payoff, std_max. cbn [type_ strike_ call put ltb sub lit exact].
    rewrite F2R_zero.
    destruct (Rlt_dec (spot - strike) 0), (Rlt_dec (strike - spot) 0); lra.
Qed.

(** X17.  In binary64 a payoff does not exceed what the holder gives up at
    best: for a spot that is at least zero, the payoff of a put with a
    finite strike that is at least zero is at most the strike, and for a
    finite spot that is at least zero, the payoff of a call with a strike
    that is at least zero is at most the spot. *)
Theorem payoff_bounded_binary64 (o : Option_) (spot : float) :
  PrimFloat.leb 0 spot = true -> PrimFloat.leb 0 (strike_ o) = true ->
  match type_ o with
  | PUT => nonfinite (strike_ o) = false ->
           PrimFloat.leb (payoff o spot) (strike_ o) = true
  | CALL => nonfinite spot = false ->
            PrimFloat.leb (payoff o spot) spot = true
  end.
Proof.
  intros Hspot Hstrike.
  assert (Hnn : forall x : float,
            PrimFloat.leb 0 x = true -> sf_nonneg (Prim2SF x) = true).
  { intros x. rewrite leb_spec. unfold SFleb.
    replace (Prim2SF 0) with (S754_zero false) by reflexivity.
    destruct (Prim2SF x) as [s|s| |s m e]; simpl; try destruct s; simpl;
      congruence. }
  assert (Hmax : forall p t : float,
            PrimFloat.leb 0 p = true -> PrimFloat.leb 0 t = true ->
            nonfinite p = false ->
            PrimFloat.leb (if PrimFloat.ltb (p - t) 0 then 0%float else (p - t)%float)
                          p = true).
  { intros p t Hp Ht Hfin. destruct (PrimFloat.ltb (p - t) 0); [exact Hp|].
    apply sub_nonneg_le; [now apply nonfinite_false|now apply Hnn]. }
  unfold payoff, std_max. cbn [ltb sub lit binary64].
  destruct (type_ o); intros Hfin; now apply Hmax.
Qed.

Lemma payoff_bounded_binary64_witness :
  PrimFloat.leb (payoff lsm_option 40%float) (strike_ lsm_option) = true.
Proof.
  apply (payoff_bounded_binary64 lsm_option 40%float); reflexivity.
Defined.

(** ** What the validating constructors accept in binary64 *)

(** X3.  The constructor of [Option] returns the option exactly when the
    strike and the maturity are each a NaN or greater than zero: a NaN
    passes both tests.  It throws the strike error exactly when the strike
    is [<= 0], whatever the maturity, and the maturity error exactly when
    the strike passes and the maturity is [<= 0]. *)
Theorem Option_new_accepts
    (strike maturity : float) (type : OptionType) (style : ExerciseStyle) :
  (Option_new strike maturity type style
   = inr {| strike_ := strike; maturity_ := maturity; type_ := type; style_ := style |}
   <-> (isnan strike = true \/ PrimFloat.ltb 0 strike = true) /\
       (isnan maturity = true \/ PrimFloat.ltb 0 maturity = true))
  /\ (Option_new strike maturity type style
      = inl (invalid_argument "Strike price must be positive")
      <-> PrimFloat.leb strike 0 = true)
  /\ (Option_new strike maturity type style
      = inl (invalid_argument "Maturity must be positive")
      <-> PrimFloat.leb strike 0 = false /\ PrimFloat.leb maturity 0 = true).
Proof.
  rewrite <- !leb_0_false. unfold Option_new, throw, ret.
  cbn [leb of_int binary64]. change (float_of_int 0) with 0%float.
  destruct (PrimFloat.leb strike 0), (PrimFloat.leb maturity 0);
    repeat split; intros; try tauto; try congruence; intuition congruence.
Qed.

(** X4.  The constructor of [BlackScholes] returns the pricer exactly when
    spot, strike, maturity and volatility are each a NaN or greater than
    zero: a NaN passes the test [<= 0] as a positive number does. *)
Theorem BlackScholes_new_accepts (S K r T_mat sigma : float) :
  BlackScholes_new S K r T_mat sigma
  = inr {| S_ := S; K_ := K; r_ := r; T_ := T_mat; sigma_ := sigma |}
  <-> (isnan S = true \/ PrimFloat.ltb 0 S = true) /\
      (isnan K = true \/ PrimFloat.ltb 0 K = true) /\
      (isnan T_mat = true \/ PrimFloat.ltb 0 T_mat = true) /\
      (isnan sigma = true \/ PrimFloat.ltb 0 sigma = true).
Proof.
  rewrite <- !leb_0_false. unfold BlackScholes_new, throw, ret.
  cbn [leb of_int binary64]. change (float_of_int 0) with 0%float.
  destruct (PrimFloat.leb S 0), (PrimFloat.leb K 0), (PrimFloat.leb T_mat 0),
           (PrimFloat.leb sigma 0);
    simpl; split; intros; try tauto; try congruence; intuition congruence.
Qed.

(** X5.  The constructor of [EWMAVolatility] returns the estimator exactly
    when lambda is a NaN or lies strictly between zero and one. *)
Theorem EWMAVolatility_new_accepts (lambda : float) :
  EWMAVolatility_new lambda = inr {| lambda_ := lambda |}
  <-> isnan lambda = true \/
      (PrimFloat.ltb 0 lambda = true /\ PrimFloat.ltb lambda 1 = true).
Proof.
  unfold EWMAVolatility_new, throw, ret.
  cbn [leb of_int binary64]. change (float_of_int 0) with 0%float.
  change (float_of_int 1) with 1%float.
  pose proof (leb_0_false lambda) as H0. pose proof (leb_1_false lambda) as H1.
  destruct (PrimFloat.leb lambda 0), (PrimFloat.leb 1 lambda); simpl;
    split; intros H; try discriminate; try reflexivity.
  - exfalso. destruct H0 as [_ H0].
    destruct H as [H|[Ha Hb]]; [specialize (H0 (or_introl H))
                               |specialize (H0 (or_intror Ha))]; discriminate.
  - exfalso. destruct H0 as [_ H0].
    destruct H as [H|[Ha Hb]]; [specialize (H0 (or_introl H))
                               |specialize (H0 (or_intror Ha))]; discriminate.
  - exfalso. destruct H1 as [_ H1].
    destruct H as [H|[Ha Hb]]; [specialize (H1 (or_introl H))
                               |specialize (H1 (or_intror Hb))]; discriminate.
  - destruct H0 as [H0 _], H1 as [H1 _].
    destruct (H0 eq_refl) as [Hx|Hx]; [now left|].
    destruct (H1 eq_refl) as [Hy|Hy]; [now left|]. right. split; assumption.
Qed.

Lemma EWMAVolatility_accepted (lambda : float) (w : EWMAVolatility) :
  EWMAVolatility_new lambda = inr w ->
  w = {| lambda_ := lambda |} /\
  (isnan lambda = true \/
   (PrimFloat.ltb 0 lambda = true /\ PrimFloat.ltb lambda 1 = true)).
Proof.
  unfold EWMAVolatility_new, throw, ret.
  cbn [leb of_int binary64]. change (float_of_int 0) with 0%float.
  change (float_of_int 1) with 1%float.
  destruct (PrimFloat.leb lambda 0) eqn:H0; [discriminate|].
  destruct (PrimFloat.leb 1 lambda) eqn:H1; [discriminate|].
  cbn. intros H. injection H as <-. split; [reflexivity|].
  apply leb_0_false in H0. apply leb_1_false in H1.
  destruct H0 as [H0|H0]; [now left|]. destruct H1 as [H1|H1]; [now left|].
  right. split; assumption.
Qed.

(** ** The signs of the Greeks in binary64 *)

Section Divisors.
Local Open Scope Z_scope.

Lemma positive_or_nan_divisor (p : float) :
  isnan p = true \/ PrimFloat.ltb 0 p = true ->
  sf_divisor_or_nan (Prim2SF p) = true.
Proof.
  unfold isnan. rewrite ltb_spec. unfold SFltb.
  replace (Prim2SF 0) with (S754_zero false) by reflexivity.
  destruct (Prim2SF p) as [s|s| |s m e]; simpl; try destruct s; simpl;
    intros [H|H]; congruence.
Qed.

Lemma divisor_nonneg x :
  sf_divisor_or_nan x = true -> sf_nonneg_or_nan x = true.
Proof. destruct x as [s|s| |s m e]; try destruct s; simpl; congruence. Qed.

Lemma SFmul_divisor x y :
  sf_divisor_or_nan x = true -> sf_divisor_or_nan y = true ->
  sf_divisor_or_nan (SF64mul x y) = true.
Proof.
  destruct x as [sx|sx| |sx mx ex], y as [sy|sy| |sy my ey];
    try (destruct sx; try discriminate); try (destruct sy; try discriminate);
    try reflexivity; intros _ _.
  cbn [SF64mul SFmul xorb].
  pose proof (binary_round_aux_shape false (Zpos (mx * my)) (ex + ey) loc_Exact
                ltac:(lia)) as H.
  destruct (binary_round_aux _ _ _ _ _ _) as [s|s| |s m e];
    try contradiction; subst s; reflexivity.
Qed.

Lemma SFsqrt_divisor x :
  sf_divisor_or_nan x = true -> sf_divisor_or_nan (SF64sqrt x) = true.
Proof.
  destruct x as [sx|sx| |sx mx ex];
    try (destruct sx; try discriminate); try reflexivity; intros _.
  cbn [SF64sqrt SFsqrt].
  pose proof (SFsqrt_core_nonneg mx ex) as Hq.
  destruct (SFsqrt_core_binary prec emax (Zpos mx) ex) as [[mz ez] lz].
  cbn [fst] in Hq.
  pose proof (binary_round_aux_shape false mz ez lz Hq) as H.
  destruct (binary_round_aux _ _ _ _ _ _) as [s|s| |s m e];
    try contradiction; subst s; reflexivity.
Qed.

Lemma SFdiv_nn_or_nan x y :
  sf_nonneg_or_nan x = true -> sf_divisor_or_nan y = true ->
  sf_nonneg_or_nan (SF64div x y) = true.
Proof.
  intros Hx Hy. destruct y as [sy|sy| |sy my ey] eqn:Ey.
  - apply SFdiv_nn; assumption.
  - apply SFdiv_nn; assumption.
  - destruct x; reflexivity.
  - apply SFdiv_nn; assumption.
Qed.

End Divisors.

Lemma normalPDF_nn (cmath : Cmath float) (x : float) :
  (forall y : float, isnan (exp y) = true \/ PrimFloat.leb 0 (exp y) = true) ->
  sf_nonneg_or_nan (Prim2SF (normalPDF x)) = true.
Proof.
  intros Hexp.
  unfold normalPDF, M_PI. cbn [div mul sqrt lit binary64]. rewrite div_spec.
  apply SFdiv_nn; [apply nonneg_or_nan_spec, Hexp|].
  vm_compute. reflexivity.
Qed.

(** X7.  In binary64, for every <cmath> whose [exp] returns a NaN or a value
    that is at least zero, gamma and vega of a constructed pricer are each a
    NaN or at least zero: the density is not negative and the divisor
    S * sigma * sqrt(T) of gamma is a NaN, +0, positive or plus infinity. *)
Theorem gamma_vega_nonnegative_binary64
    (cmath : Cmath float) (S K r T_mat sigma : float) (bs : BlackScholes) :
  (forall x : float, isnan (exp x) = true \/ PrimFloat.leb 0 (exp x) = true) ->
  BlackScholes_new S K r T_mat sigma = inr bs ->
  (isnan (gamma bs) = true \/ PrimFloat.leb 0 (gamma bs) = true) /\
  (isnan (vega bs) = true \/ PrimFloat.leb 0 (vega bs) = true).
Proof.
  intros Hexp Hnew.
  assert (Hacc : bs = {| S_ := S; K_ := K; r_ := r; T_ := T_mat; sigma_ := sigma |}
                 /\ (isnan S = true \/ PrimFloat.ltb 0 S = true)
                 /\ (isnan T_mat = true \/ PrimFloat.ltb 0 T_mat = true)
                 /\ (isnan sigma = true \/ PrimFloat.ltb 0 sigma = true)).
  { revert Hnew. rewrite <- !leb_0_false. unfold BlackScholes_new, throw, ret.
    cbn [leb of_int binary64]. change (float_of_int 0) with 0%float.
    destruct (PrimFloat.leb S 0), (PrimFloat.leb K 0), (PrimFloat.leb T_mat 0),
             (PrimFloat.leb sigma 0); cbn; intros H; try discriminate.
    injection H as <-. auto. }
  destruct Hacc as (-> & HS & HT & Hsig).
  apply positive_or_nan_divisor in HS, HT, Hsig.
  pose proof (fun x => normalPDF_nn cmath x Hexp) as Hpdf.
  rewrite <- !nonneg_or_nan_spec. unfold gamma, vega. cbn [S_ T_ sigma_].
  cbn [div mul sqrt binary64]. split.
  - rewrite div_spec, !mul_spec, sqrt_spec.
    apply SFdiv_nn_or_nan; [apply Hpdf|].
    apply SFmul_divisor; [apply SFmul_divisor; assumption|].
    now apply SFsqrt_divisor.
  - rewrite !mul_spec, sqrt_spec.
    apply SFmul_nn; [apply SFmul_nn; [now apply divisor_nonneg|apply Hpdf]|].
    apply SFsqrt_nn. now apply divisor_nonneg.
Qed.

Lemma gamma_vega_nonnegative_binary64_witness :
  let bs := {| S_ := 100%float; K_ := 100%float; r_ := 0.05%float;
               T_ := 1%float; sigma_ := 0.001%float |} in
  (isnan (@gamma _ binary64 constant_cmath bs) = true
   \/ PrimFloat.leb 0 (@gamma _ binary64 constant_cmath bs) = true) /\
  (isnan (@vega _ binary64 constant_cmath bs) = true
   \/ PrimFloat.leb 0 (@vega _ binary64 constant_cmath bs) = true).
Proof.
  apply (gamma_vega_nonnegative_binary64 constant_cmath
           100%float 100%float 0.05%float 1%float 0.001%float).
  - intros x. right. reflexivity.
  - reflexivity.
Defined.

(** ** The budget and the inputs of the search *)

(** X8.  A result of the search other than the convergence error does not
    depend on the budget: with a larger [maxIterations] the call yields the
    same volatility or the same error. *)
Theorem impliedVolatility_more_iterations
    {T : Type} {arith : Arith T} {cmath : Cmath T}
    (marketPrice S K r T_mat : T) (type : OptionType) (tolerance : T)
    (n m : Z) :
  (n <= m)%Z ->
  impliedVolatility marketPrice S K r T_mat type tolerance n
    <> inl ConvergenceFailure ->
  impliedVolatility marketPrice S K r T_mat type tolerance m
  = impliedVolatility marketPrice S K r T_mat type tolerance n.
Proof.
  intros Hnm Hout.
  destruct (impliedVolatility_cases marketPrice S K r T_mat type tolerance n)
    as [(k & Hk & Hh)|(Hcf & _)]; [|contradiction].
  apply impliedVolatility_halts with (k := k); [lia|exact Hh].
Qed.

Lemma impliedVolatility_more_iterations_witness :
  @impliedVolatility _ binary64 identity_cmath
     10%float 100%float 100%float 0.05%float 1%float CALL 1e300%float 100%Z
  = @impliedVolatility _ binary64 identity_cmath
      10%float 100%float 100%float 0.05%float 1%float CALL 1e300%float 1%Z.
Proof.
  apply (@impliedVolatility_more_iterations _ binary64 identity_cmath
           10 100 100 0.05 1 CALL 1e300 1%Z 100%Z)%float.
  - lia.
  - vm_compute. discriminate.
Defined.

(** X9.  The order of the errors of the search.  With [maxIterations <= 0]
    the loop body never runs and the call throws the convergence error,
    also for inputs no pricer accepts.  With at least one iteration and a
    spot, strike or maturity that is [<= 0], the constructor of the first
    iteration throws and the call fails with the invalid-argument error. *)
Theorem impliedVolatility_invalid_inputs
    {T : Type} {arith : Arith T} {cmath : Cmath T}
    (marketPrice S K r T_mat : T) (type : OptionType) (tolerance : T)
    (maxIterations : Z) :
  ((maxIterations <= 0)%Z ->
   impliedVolatility marketPrice S K r T_mat type tolerance maxIterations
   = inl ConvergenceFailure) /\
  ((1 <= maxIterations)%Z ->
   (S <=? of_int 0)%A = true \/ (K <=? of_int 0)%A = true \/
   (T_mat <=? of_int 0)%A = true ->
   impliedVolatility marketPrice S K r T_mat type tolerance maxIterations
   = inl (invalid_argument "All parameters must be positive")).
Proof.
  unfold impliedVolatility. split.
  - intros Hle. replace (Z.to_nat maxIterations) with 0%nat by lia. reflexivity.
  - intros Hge Hbad.
    destruct (Z.to_nat maxIterations) as [|n] eqn:Hn; [lia|].
    cbn [newton]. unfold BlackScholes_new.
    replace ((S <=? of_int 0)%A || (K <=? of_int 0)%A || (T_mat <=? of_int 0)%A
             || (lit 0.2 <=? of_int 0)%A) with true; [reflexivity|].
    destruct Hbad as [ -> | [ -> | -> ] ]; simpl;
      rewrite ?orb_true_r; reflexivity.
Qed.

Lemma impliedVolatility_invalid_inputs_witness :
  @impliedVolatility _ binary64 identity_cmath
     10%float (-1)%float 100%float 0.05%float 1%float CALL 1e-6%float 0%Z
  = inl ConvergenceFailure /\
  @impliedVolatility _ binary64 identity_cmath
     10%float (-1)%float 100%float 0.05%float 1%float CALL 1e-6%float 100%Z
  = inl (invalid_argument "All parameters must be positive").
Proof.
  split.
  - apply (proj1 (@impliedVolatility_invalid_inputs _ binary64 identity_cmath
                    10 (-1) 100 0.05 1 CALL 1e-6 0%Z)%float). lia.
  - apply (proj2 (@impliedVolatility_invalid_inputs _ binary64 identity_cmath
                    10 (-1) 100 0.05 1 CALL 1e-6 100%Z)%float); [lia|].
    left. reflexivity.
Defined.

Lemma SFltb_abs_pos (d t : spec_float) :
  SFltb (SFabs d) t = true -> SFltb (S754_zero false) t = true.
Proof.
  unfold SFltb.
  destruct d as [sd|sd| |sd md ed], t as [st|st| |st mt et]; simpl;
    try congruence; try (destruct st; simpl; congruence).
Qed.

Lemma impliedVolatility_returns
    {T : Type} {arith : Arith T} {cmath : Cmath T}
    (marketPrice S K r T_mat : T) (type : OptionType) (tolerance : T)
    (maxIterations : Z) (sigma : T) :
  impliedVolatility marketPrice S K r T_mat type tolerance maxIterations
  = inr sigma ->
  exists k bs,
    (k < Z.to_nat maxIterations)%nat /\
    enters marketPrice S K r T_mat type tolerance k sigma /\
    constructed S K r T_mat sigma bs /\
    meets_tolerance marketPrice type tolerance bs = true.
Proof.
  intros Hout.
  destruct (impliedVolatility_cases marketPrice S K r T_mat type tolerance
              maxIterations) as [(k & Hk & s & He & Hh)|(Hcf & _)]; [|congruence].
  rewrite Hout in Hh.
  destruct (BlackScholes_new S K r T_mat s) as [e|bs] eqn:Hnew; [discriminate|].
  destruct (meets_tolerance marketPrice type tolerance bs) eqn:Hm.
  - injection Hh as ->. exists k, bs. auto.
  - destruct Hh as [_ Hh]. discriminate.
Qed.

(** X10.  In binary64 a volatility that the search returns lies in
    [0.001, 5.0], whatever the inputs and the <cmath>; and the search
    returns a volatility only when the tolerance is greater than zero and
    the market price is not a NaN. *)
Theorem impliedVolatility_result_bounds
    (cmath : Cmath float)
    (marketPrice S K r T_mat : float) (type : OptionType) (tolerance : float)
    (maxIterations : Z) (sigma : float) :
  impliedVolatility marketPrice S K r T_mat type tolerance maxIterations
  = inr sigma ->
  PrimFloat.leb 0.001 sigma = true /\ PrimFloat.leb sigma 5.0 = true /\
  PrimFloat.ltb 0 tolerance = true /\ isnan marketPrice = false.
Proof.
  intros Hout.
  destruct (impliedVolatility_returns _ _ _ _ _ _ _ _ _ Hout)
    as (k & bs & _ & He & _ & Hm).
  destruct (enters_bounds cmath _ _ _ _ _ _ _ _ _ He) as [Hlo Hhi].
  split; [exact Hlo|]. split; [exact Hhi|].
  unfold meets_tolerance in Hm. cbn [ltb fabs sub binary64] in Hm.
  rewrite ltb_spec, abs_spec, sub_spec in Hm. split.
  - rewrite ltb_spec. replace (Prim2SF 0) with (S754_zero false) by reflexivity.
    exact (SFltb_abs_pos _ _ Hm).
  - unfold isnan. destruct (Prim2SF marketPrice); try reflexivity.
    destruct (Prim2SF (BlackScholes_price bs type)); discriminate.
Qed.

Lemma impliedVolatility_result_bounds_witness :
  PrimFloat.leb 0.001 0.2 = true /\ PrimFloat.leb 0.2 5.0 = true /\
  PrimFloat.ltb 0 1e300 = true /\ isnan 10 = false.
Proof.
  apply (impliedVolatility_result_bounds identity_cmath
           10 100 100 0.05 1 CALL 1e300 100%Z 0.2)%float.
  vm_compute. reflexivity.
Defined.

(** ** The paths of the engine *)

Section PathFacts.
Context {T : Type} {arith : Arith T} {cmath : Cmath T}.
Context {G : Type}.
Variable normal : G -> T * G.

Lemma path_steps_length n : forall drift diffusion prev g,
  length (fst (path_steps normal n drift diffusion prev g)) = n.
Proof.
  induction n as [|n IH]; intros drift diffusion prev g; [reflexivity|].
  simpl. destruct (normal g) as [z g1].
  specialize (IH drift diffusion (prev * exp (drift + diffusion * z))%A g1).
  destruct (path_steps normal n _ _ _ g1) as [rest g2]. simpl in *. now rewrite IH.
Qed.

Lemma path_steps_nth n : forall drift diffusion prev g i,
  (i < n)%nat ->
  at_ (prev :: fst (path_steps normal n drift diffusion prev g)) (Datatypes.S i)
  = (at_ (prev :: fst (path_steps normal n drift diffusion prev g)) i
     * exp (drift + diffusion * fst (normal (Nat.iter i (advance normal) g))))%A.
Proof.
  induction n as [|n IH]; intros drift diffusion prev g i Hi; [lia|].
  cbn [path_steps].
  assert (Hadv : advance normal g = snd (normal g)) by reflexivity.
  destruct (normal g) as [z g1] eqn:Hg. cbn [snd] in Hadv.
  specialize (IH drift diffusion (prev * exp (drift + diffusion * z))%A g1).
  destruct (path_steps normal n _ _ _ g1) as [rest g2]. cbn [fst] in *.
  destruct i as [|i].
  - unfold at_. cbn [nth Nat.iter nat_rect]. now rewrite Hg.
  - specialize (IH i ltac:(lia)). rewrite Nat.iter_succ_r, Hadv.
    unfold at_ in *. cbn [nth] in *. exact IH.
Qed.

Lemma generatePath_length numSteps S0 r sigma T_mat g :
  length (fst (generatePath normal numSteps S0 r sigma T_mat g))
  = Datatypes.S (Z.to_nat numSteps).
Proof.
  unfold generatePath.
  pose proof (path_steps_length (Z.to_nat numSteps)
                ((r - lit 0.5 * sigma * sigma) * (T_mat / of_int numSteps))%A
                (sigma * sqrt (T_mat / of_int numSteps))%A S0 g) as H.
  destruct (path_steps _ _ _ _ _ _) as [rest g']. cbn [fst length] in *.
  now rewrite H.
Qed.

End PathFacts.

(** X11.  For a number of steps that is not negative, the path of
    [generatePath] has numSteps + 1 points, starts at the spot, and each
    later point is its predecessor times exp(drift + diffusion * z), where z
    is the next draw of the generator; the call leaves the generator
    numSteps draws later. *)
Theorem generatePath_shape
    {T : Type} {arith : Arith T} {cmath : Cmath T} {G : Type}
    (normal : G -> T * G) (numSteps : Z) (S0 r sigma T_mat : T) (g : G) :
  (0 <= numSteps)%Z ->
  let path := fst (generatePath normal numSteps S0 r sigma T_mat g) in
  let dt := (T_mat / of_int numSteps)%A in
  let drift := ((r - lit 0.5 * sigma * sigma) * dt)%A in
  let diffusion := (sigma * sqrt dt)%A in
  let z i := fst (normal (Nat.iter i (advance normal) g)) in
  Z.of_nat (length path) = (numSteps + 1)%Z /\
  at_ path 0 = S0 /\
  (forall i, (i < Z.to_nat numSteps)%nat ->
     at_ path (Datatypes.S i) = (at_ path i * exp (drift + diffusion * z i))%A) /\
  snd (generatePath normal numSteps S0 r sigma T_mat g)
  = Nat.iter (Z.to_nat numSteps) (advance normal) g.
Proof.
  intros Hsteps path dt drift diffusion z.
  pose proof (generatePath_length normal numSteps S0 r sigma T_mat g) as Hlen.
  pose proof (path_steps_nth normal (Z.to_nat numSteps) drift diffusion S0 g) as Hnth.
  pose proof (generatePath_generator normal numSteps S0 r sigma T_mat g) as Hgen.
  subst path. unfold generatePath in *. fold dt in Hlen, Hgen |- *.
  fold drift in Hlen, Hgen |- *. fold diffusion in Hlen, Hgen |- *.
  destruct (path_steps normal _ drift diffusion S0 g) as [rest g'].
  cbn [fst snd] in *. split; [rewrite Hlen; lia|].
  split; [reflexivity|]. split; [exact Hnth|exact Hgen].
Qed.

Lemma generatePath_shape_witness :
  let path :=
    fst (@generatePath _ binary64 constant_cmath _ half_normal 3
           100%float 0.05%float 0.2%float 1%float 42%Z) in
  Z.of_nat (length path) = (3 + 1)%Z /\ at_ path 0 = 100%float /\
  snd (@generatePath _ binary64 constant_cmath _ half_normal 3
         100%float 0.05%float 0.2%float 1%float 42%Z)
  = Nat.iter (Z.to_nat 3) (advance half_normal) 42%Z.
Proof.
  intros path.
  destruct (@generatePath_shape _ binary64 constant_cmath _ half_normal 3
              100%float 0.05%float 0.2%float 1%float 42%Z ltac:(lia))
    as (Hlen & Hfirst & _ & Hgen).
  split; [exact Hlen|]. split; [exact Hfirst|exact Hgen].
Defined.

Section NonnegativePaths.
Context (cmath : Cmath float) {G : Type}.
Variable normal : G -> float * G.
Hypothesis exp_nn :
  forall x : float, isnan (exp x) = true \/ PrimFloat.leb 0 (exp x) = true.

Lemma path_steps_nn n : forall drift diffusion prev g,
  sf_nonneg_or_nan (Prim2SF prev) = true ->
  Forall (fun p => sf_nonneg_or_nan (Prim2SF p) = true)
         (fst (path_steps normal n drift diffusion prev g)).
Proof.
  induction n as [|n IH]; intros drift diffusion prev g Hprev; [constructor|].
  cbn [path_steps]. destruct (normal g) as [z g1].
  assert (Hnext : sf_nonneg_or_nan
                    (Prim2SF (prev * exp (drift + diffusion * z))%A) = true).
  { cbn [mul binary64]. rewrite mul_spec.
    apply SFmul_nn; [assumption|apply nonneg_or_nan_spec, exp_nn]. }
  specialize (IH drift diffusion _ g1 Hnext).
  destruct (path_steps normal n _ _ _ g1) as [rest g2]. cbn [fst] in *.
  constructor; assumption.
Qed.

End NonnegativePaths.

(** X12.  In binary64, for every <cmath> whose [exp] returns a NaN or a value
    that is at least zero, and for a number of steps that is not negative,
    no point of a path that starts at a spot that is at least zero is
    negative: every point is a NaN or at least zero, whatever the rate, the
    volatility, the maturity and the draws are. *)
Theorem generatePath_nonnegative_binary64
    (cmath : Cmath float) {G : Type} (normal : G -> float * G)
    (numSteps : Z) (S0 r sigma T_mat : float) (g : G) :
  (forall x : float, isnan (exp x) = true \/ PrimFloat.leb 0 (exp x) = true) ->
  (0 <= numSteps)%Z ->
  PrimFloat.leb 0 S0 = true ->
  Forall (fun p => isnan p = true \/ PrimFloat.leb 0 p = true)
         (fst (generatePath normal numSteps S0 r sigma T_mat g)).
Proof.
  intros Hexp _ HS0.
  assert (H0 : sf_nonneg_or_nan (Prim2SF S0) = true)
    by (apply nonneg_or_nan_spec; now right).
  unfold generatePath.
  pose proof (path_steps_nn cmath normal Hexp (Z.to_nat numSteps)
                ((r - lit 0.5 * sigma * sigma) * (T_mat / of_int numSteps))%A
                (sigma * sqrt (T_mat / of_int numSteps))%A S0 g H0) as H.
  destruct (path_steps _ _ _ _ _ _) as [rest g']. cbn [fst] in *.
  apply List.Forall_forall. intros p Hp. apply nonneg_or_nan_spec.
  revert p Hp. apply List.Forall_forall. constructor; assumption.
Qed.

Lemma generatePath_nonnegative_binary64_witness :
  Forall (fun p => isnan p = true \/ PrimFloat.leb 0 p = true)
         (fst (@generatePath _ binary64 constant_cmath _ half_normal 3
                 100%float 0.05%float 0.2%float 1%float 42%Z)).
Proof.
  apply (generatePath_nonnegative_binary64 constant_cmath half_normal 3
           100%float 0.05%float 0.2%float 1%float 42%Z).
  - intros x. right. reflexivity.
  - lia.
  - reflexivity.
Defined.

(** ** The backward induction without exercise *)

(** A property that every pass of a loop keeps holds after the loop. *)
Lemma fold_left_invariant {A B : Type} (P : A -> Prop) (g : A -> B -> A) (l : list B) :
  (forall a b, P a -> P (g a b)) -> forall a, P a -> P (fold_left g l a).
Proof.
  intros Hg. induction l as [|b l IH]; intros a Ha; [assumption|].
  simpl. apply IH, Hg, Ha.
Qed.

Section NoExercise.
Context {T : Type} {arith : Arith T}.
Variables (option : Option_ (T := T)) (paths : list (list T)) (discount : T).
Variable numSims : nat.

Lemma backwardStep_few_itm (cashFlows : list T) (t : nat) :
  length cashFlows = numSims ->
  (length (itmPaths option paths numSims t) <= 10)%nat ->
  backwardStep option paths discount numSims cashFlows t
  = map (fun cf => cf * discount)%A cashFlows.
Proof.
  intros Hlen Hcount. unfold backwardStep.
  rewrite collectITM_eq. cbn [itmIndices X Y].
  destruct (10 <? length (itmPaths option paths numSims t))%nat eqn:Hlt.
  { apply Nat.ltb_lt in Hlt. lia. }
  apply list_eq. intros i.
  rewrite discountOTM_lookup, discountITM_lookup, lookup_map.
  destruct (mem i (itmPaths option paths numSims t)) eqn:Hmem.
  - now rewrite andb_false_r.
  - rewrite andb_true_r. destruct (i <? numSims)%nat eqn:Hi; [reflexivity|].
    apply Nat.ltb_ge in Hi. rewrite lookup_ge_None_2 by lia. reflexivity.
Qed.

Lemma itmPaths_length t : (length (itmPaths option paths numSims t) <= numSims)%nat.
Proof.
  unfold itmPaths. etransitivity; [apply List.filter_length_le|].
  now rewrite length_seq.
Qed.

Lemma backward_few_itm (ts : list nat) : forall cashFlows,
  length cashFlows = numSims ->
  (forall t, List.In t ts -> (length (itmPaths option paths numSims t) <= 10)%nat) ->
  fold_left (backwardStep option paths discount numSims) ts cashFlows
  = map (fun cf => Nat.iter (length ts) (fun c => c * discount)%A cf) cashFlows.
Proof.
  induction ts as [|t ts IH]; intros cashFlows Hlen Hcount.
  - simpl. now rewrite map_id.
  - cbn [fold_left]. rewrite backwardStep_few_itm; [|assumption|apply Hcount; now left].
    rewrite IH; [|now rewrite length_map|intros; apply Hcount; now right].
    rewrite map_map. apply map_ext. intros cf. cbn [length].
    now rewrite Nat.iter_succ_r.
Qed.

End NoExercise.

Lemma terminal_payoffs {T : Type} {arith : Arith T}
    (option : Option_) (paths : list (list T)) (k : nat) :
  map (fun i => payoff option (at2 paths i k)) (seq 0 (length paths))
  = map (fun path => payoff option (at_ path k)) paths.
Proof.
  unfold at2.
  induction paths as [|p paths IH]; [reflexivity|].
  cbn [length seq map]. f_equal. rewrite <- seq_shift, map_map. exact IH.
Qed.

(** X13.  With counts that are not negative: when no time step of the
    backward induction has more than ten paths in the money, as with ten
    simulations or fewer, [priceAmerican] exercises nowhere before maturity:
    each cash flow is the payoff at maturity multiplied numSteps - 1 times by
    the one-step discount factor, and the result is the statistics of these
    cash flows. *)
Theorem priceAmerican_without_exercise
    {T : Type} {arith : Arith T} {cmath : Cmath T} {G : Type}
    (normal : G -> T * G) (e : MonteCarloEngine)
    (option : Option_) (S0 r sigma : T) :
  let N := numSimulations_ e in
  let paths :=
    fst (generatePaths normal (Z.to_nat N) (numSteps_ e) S0 r sigma
                       (maturity_ option) (generator_ e)) in
  let discount := (exp (- r * (maturity_ option / of_int (numSteps_ e))))%A in
  (0 <= N)%Z -> (0 <= numSteps_ e)%Z ->
  (N <= 10)%Z \/
  (forall t, (1 <= t < Z.to_nat (numSteps_ e))%nat ->
     (length (itmPaths option paths (Z.to_nat N) t) <= 10)%nat) ->
  fst (priceAmerican normal e option S0 r sigma)
  = americanResult N
      (map (fun path =>
              Nat.iter (Z.to_nat (numSteps_ e - 1)) (fun c => c * discount)%A
                       (payoff option (at_ path (Z.to_nat (numSteps_ e)))))
           paths)
      discount.
Proof.
  intros N paths discount _ _ Hfew.
  assert (Hcount : forall t, List.In t (backwardTimes (numSteps_ e)) ->
            (length (itmPaths option paths (Z.to_nat N) t) <= 10)%nat).
  { intros t Ht. destruct Hfew as [HN|Hall].
    - pose proof (itmPaths_length option paths (Z.to_nat N) t). lia.
    - apply Hall. unfold backwardTimes in Ht.
      apply List.in_rev, List.in_seq in Ht. lia. }
  assert (Hlen : length paths = Z.to_nat N) by apply generatePaths_length.
  assert (Hgp : generatePaths normal (Z.to_nat N) (numSteps_ e) S0 r sigma
                  (maturity_ option) (generator_ e)
                = (paths, snd (generatePaths normal (Z.to_nat N) (numSteps_ e) S0 r
                                 sigma (maturity_ option) (generator_ e))))
    by apply surjective_pairing.
  clearbody paths. unfold priceAmerican. fold N. fold discount.
  rewrite Hgp. cbn [fst]. f_equal.
  rewrite backward_few_itm; [| |exact Hcount].
  - rewrite <- Hlen, terminal_payoffs, map_map.
    unfold backwardTimes. now rewrite length_rev, length_seq.
  - now rewrite length_map, length_seq.
Qed.

(** Two paths of three steps: the backward induction visits the steps 2
    and 1, and each cash flow is discounted twice. *)
Lemma priceAmerican_without_exercise_witness :
  let N := numSimulations_ three_step_engine in
  let paths :=
    fst (@generatePaths _ binary64 constant_cmath _ half_normal (Z.to_nat N)
           (numSteps_ three_step_engine) 100%float 0.05%float 0.2%float
           (maturity_ otm_option) (generator_ three_step_engine)) in
  let discount :=
    (@exp _ constant_cmath
       (- 0.05%float * (maturity_ otm_option / of_int (numSteps_ three_step_engine))))%A in
  fst (@priceAmerican _ binary64 constant_cmath _ half_normal three_step_engine
         otm_option 100%float 0.05%float 0.2%float)
  = americanResult N
      (map (fun path =>
              Nat.iter (Z.to_nat (numSteps_ three_step_engine - 1))
                       (fun c => c * discount)%A
                       (payoff otm_option
                               (at_ path (Z.to_nat (numSteps_ three_step_engine)))))
           paths)
      discount.
Proof.
  apply (@priceAmerican_without_exercise _ binary64 constant_cmath _ half_normal
           three_step_engine otm_option 100%float 0.05%float 0.2%float).
  - simpl. lia.
  - simpl. lia.
  - left. simpl. lia.
Defined.

(** X15.  With a single time step [priceAmerican] returns what
    [priceEuropean] returns, in binary64 and bit for bit, whatever the
    <cmath> and the generator are: the backward induction visits no step,
    T / 1 is T, and the two orders of the product in the standard error give
    the same double. *)
Theorem american_single_step_binary64
    (cmath : Cmath float) {G : Type} (normal : G -> float * G)
    (e : MonteCarloEngine) (option : Option_) (S0 r sigma : float) :
  numSteps_ e = 1%Z ->
  priceAmerican normal e option S0 r sigma
  = priceEuropean normal e option S0 r sigma.
Proof.
  intros Hsteps. unfold priceAmerican, priceEuropean. rewrite Hsteps.
  rewrite europeanPayoffs_generatePaths.
  pose proof (generatePaths_length normal (Z.to_nat (numSimulations_ e)) 1 S0 r sigma
                (maturity_ option) (generator_ e)) as Hlen.
  destruct (generatePaths _ _ _ _ _ _ _ _) as [paths g]. cbn [fst snd] in *.
  change (backwardTimes 1) with (@nil nat). cbn [fold_left].
  rewrite <- Hlen, terminal_payoffs.
  cbn [div of_int binary64]. change (float_of_int 1) with 1%float. rewrite div_1.
  f_equal. unfold americanResult, europeanResult. cbn [mul binary64].
  now rewrite (mul_comm (_ / _)%A).
Qed.

Lemma american_single_step_binary64_witness :
  @priceAmerican _ binary64 constant_cmath _ half_normal half_engine otm_option
    100%float 0.05%float 0.2%float
  = @priceEuropean _ binary64 constant_cmath _ half_normal half_engine otm_option
      100%float 0.05%float 0.2%float.
Proof.
  apply (american_single_step_binary64 constant_cmath half_normal half_engine
           otm_option 100%float 0.05%float 0.2%float).
  reflexivity.
Defined.

(** ** Bounds of the valuations *)

Section NonnegativeBinary64.

Local Notation nn := (fun p : float => sf_nonneg_or_nan (Prim2SF p) = true).

Lemma payoff_nn (o : Option_) (spot : float) : nn (payoff o spot).
Proof.
  cbv beta. unfold payoff, std_max. cbn [ltb sub lit binary64].
  assert (H : forall d : float, nn (if PrimFloat.ltb d 0 then 0%float else d)).
  { intros d. cbv beta. destruct (PrimFloat.ltb d 0) eqn:Hd; [reflexivity|].
    revert Hd. rewrite ltb_spec. unfold SFltb.
    replace (Prim2SF 0) with (S754_zero false) by reflexivity.
    destruct (Prim2SF d) as [s|s| |s m e]; simpl; auto; destruct s; simpl; auto;
      discriminate. }
  destruct (type_ o); apply H.
Qed.

Lemma accumulate_nn (l : list float) : Forall nn l -> nn (accumulate l).
Proof.
  unfold accumulate. cbn [add lit binary64].
  assert (Hgen : forall a, nn a -> Forall nn l -> nn (fold_left PrimFloat.add l a)).
  { induction l as [|x l IH]; intros a Ha Hl; [exact Ha|].
    inversion Hl as [|x' l' Hx Hl']; subst. cbn [fold_left].
    apply IH; [|assumption]. cbv beta. rewrite add_spec. now apply SFadd_nn. }
  intros Hl. now apply Hgen.
Qed.

Lemma sumSquaredDiff_nn (l : list float) (m : float) : nn (sumSquaredDiff l m).
Proof.
  unfold sumSquaredDiff. cbn [add sub mul lit binary64].
  assert (Hgen : forall a, nn a ->
            nn (fold_left (fun s p => s + (p - m) * (p - m))%float l a)).
  { induction l as [|x l IH]; intros a Ha; [exact Ha|].
    cbn [fold_left]. apply IH. cbv beta. rewrite add_spec, mul_spec.
    apply SFadd_nn; [assumption|apply SFmul_square]. }
  now apply Hgen.
Qed.

Lemma standardError_nn (N : Z) (l : list float) (m d : float) :
  (0 < N)%Z -> nn d ->
  nn (d * PrimFloat.sqrt (sumSquaredDiff l m / float_of_int (N - 1)
                          / float_of_int N))%float.
Proof.
  intros HN Hd. cbv beta. rewrite mul_spec, sqrt_spec, !div_spec.
  apply SFmul_nn; [assumption|]. apply SFsqrt_nn.
  apply SFdiv_nn; [|apply of_int_divisor; lia].
  apply SFdiv_nn; [apply sumSquaredDiff_nn|apply of_int_divisor; lia].
Qed.

Lemma mean_nn (N : Z) (l : list float) :
  (0 < N)%Z -> Forall nn l -> nn (accumulate l / float_of_int N)%float.
Proof.
  intros HN Hl. cbv beta. rewrite div_spec.
  apply SFdiv_nn; [now apply accumulate_nn|apply of_int_divisor; lia].
Qed.

Lemma mul_1_96_nn (se : float) :
  nn se -> isnan se = false -> sf_nonneg (Prim2SF (1.96 * se)) = true.
Proof.
  cbv beta. unfold isnan. rewrite mul_spec.
  replace (Prim2SF 1.96) with (S754_finite false 8827055269646172 (-52)) by reflexivity.
  destruct (Prim2SF se) as [s|s| |s m e]; try discriminate;
    try (destruct s; try discriminate; reflexivity).
  destruct s; [discriminate|]. intros _ _. cbn [SF64mul SFmul xorb].
  pose proof (binary_round_aux_shape false (Zpos (8827055269646172 * m)) (-52 + e)
                loc_Exact ltac:(lia)) as H.
  destruct (binary_round_aux _ _ _ _ _ _) as [s'|s'| |s' m' e'];
    try contradiction; subst s'; reflexivity.
Qed.

Variables (option : Option_ (T := float)) (paths : list (list float)).
Variable discount : float.
Variable numSims : nat.
Hypothesis discount_nn : nn discount.

Lemma discountAt_nn cf i : Forall nn cf -> Forall nn (discountAt discount cf i).
Proof.
  intros Hcf. unfold discountAt. apply Forall_alter; [assumption|].
  intros c _ Hc. cbn [mul binary64]. cbv beta. rewrite mul_spec.
  now apply SFmul_nn.
Qed.

Lemma backwardStep_nn cf t :
  Forall nn cf -> Forall nn (backwardStep option paths discount numSims cf t).
Proof.
  intros Hcf. unfold backwardStep, discountOTM, exerciseLoop.
  apply fold_left_invariant.
  { intros a i Ha. destruct (negb _); [now apply discountAt_nn|assumption]. }
  destruct (10 <? _)%nat.
  - apply fold_left_invariant; [|assumption].
    intros a j Ha. cbv zeta. destruct (_ <? _)%A.
    + apply Forall_insert; [assumption|apply payoff_nn].
    + now apply discountAt_nn.
  - apply fold_left_invariant; [|assumption].
    intros a i Ha. now apply discountAt_nn.
Qed.

Lemma backward_nn ts : forall cf,
  Forall nn cf ->
  Forall nn (fold_left (backwardStep option paths discount numSims) ts cf).
Proof. apply fold_left_invariant. intros a t. apply backwardStep_nn. Qed.

End NonnegativeBinary64.

(** X16.  In binary64, for every <cmath> whose [exp] returns a NaN or a
    value that is at least zero, with at least one simulation and a number
    of steps that is not negative, the price
    and the standard error that [price] returns, European or American, are
    each a NaN or at least zero; and when the standard error is no NaN and
    the price is finite, the 95% bounds enclose the price. *)
Theorem price_nonnegative_binary64
    (cmath : Cmath float) {G : Type} (normal : G -> float * G)
    (e : MonteCarloEngine) (option : Option_) (S0 r sigma : float) :
  (forall x : float, isnan (exp x) = true \/ PrimFloat.leb 0 (exp x) = true) ->
  (0 < numSimulations_ e)%Z -> (0 <= numSteps_ e)%Z ->
  let res := fst (MonteCarloEngine_price normal e option S0 r sigma) in
  (isnan (price res) = true \/ PrimFloat.leb 0 (price res) = true) /\
  (isnan (standardError res) = true \/ PrimFloat.leb 0 (standardError res) = true) /\
  (isnan (standardError res) = false -> nonfinite (price res) = false ->
   PrimFloat.leb (confidence95Lower res) (price res) = true /\
   PrimFloat.leb (price res) (confidence95Upper res) = true).
Proof.
  intros Hexp HN _ res.
  assert (Hexp' : forall x : float, sf_nonneg_or_nan (Prim2SF (exp x)) = true)
    by (intros x; apply nonneg_or_nan_spec, Hexp).
  rewrite <- !nonneg_or_nan_spec.
  assert (Hres : exists (l : list float) (d : float) (american : bool),
            sf_nonneg_or_nan (Prim2SF d) = true /\
            Forall (fun p => sf_nonneg_or_nan (Prim2SF p) = true) l /\
            res = if american then americanResult (numSimulations_ e) l d
                  else europeanResult (numSimulations_ e) l d).
  { subst res. unfold MonteCarloEngine_price. destruct (style_ option).
    - destruct (priceEuropean_europeanResult normal e option S0 r sigma)
        as [_ Hres].
      eexists _, _, false. split; [|split; [|exact Hres]].
      + apply Hexp'.
      + apply List.Forall_map, List.Forall_forall. intros p _. apply payoff_nn.
    - unfold priceAmerican.
      destruct (generatePaths _ _ _ _ _ _ _ _) as [paths g]. cbn [fst].
      eexists _, _, true. split; [|split; [|reflexivity]].
      + apply Hexp'.
      + apply backward_nn; [apply Hexp'|].
        apply List.Forall_map, List.Forall_forall. intros p _. apply payoff_nn. }
  destruct Hres as (l & d & american & Hd & Hall & ->).
  pose proof (mean_nn _ l HN Hall) as Hmean. cbv beta in Hmean.
  assert (Hse : forall m : float,
            sf_nonneg_or_nan
              (Prim2SF (d * PrimFloat.sqrt
                              (sumSquaredDiff l m / float_of_int (numSimulations_ e - 1)
                               / float_of_int (numSimulations_ e)))%float) = true)
    by (intros m; now apply standardError_nn).
  destruct american; unfold americanResult, europeanResult;
    cbn [price standardError confidence95Lower confidence95Upper
         add sub mul div sqrt lit of_int binary64];
    (split; [rewrite mul_spec; now apply SFmul_nn|]);
    (split; [apply Hse|]);
    intros Hnan Hfin; apply nonfinite_false in Hfin;
    pose proof (mul_1_96_nn _ (Hse _) Hnan) as Ht;
    (split; [now apply sub_nonneg_le|now apply add_nonneg_ge]).
Qed.

Lemma price_nonnegative_binary64_witness :
  let res := fst (@MonteCarloEngine_price _ binary64 constant_cmath _
                    half_normal three_step_engine otm_option
                    100%float 0.05%float 0.2%float) in
  (isnan (price res) = true \/ PrimFloat.leb 0 (price res) = true) /\
  (isnan (standardError res) = true \/ PrimFloat.leb 0 (standardError res) = true) /\
  (isnan (standardError res) = false -> nonfinite (price res) = false ->
   PrimFloat.leb (confidence95Lower res) (price res) = true /\
   PrimFloat.leb (price res) (confidence95Upper res) = true).
Proof.
  apply (price_nonnegative_binary64 constant_cmath half_normal three_step_engine
           otm_option 100%float 0.05%float 0.2%float).
  - intros x. right. reflexivity.
  - simpl. lia.
  - simpl. lia.
Defined.

(** ** Counts that the setters allow *)

Lemma backward_no_paths {T : Type} {arith : Arith T}
    (option : Option_) (paths : list (list T)) (discount : T) (ts : list nat) :
  fold_left (backwardStep option paths discount 0) ts [] = [].
Proof. induction ts as [|t ts IH]; [reflexivity|]. simpl. exact IH. Qed.

(** X19.  [setNumSimulations] does not repeat the test of the constructor.
    After [setNumSimulations(0)] a valuation of either style throws
    nothing, draws nothing and returns NaN as price, standard error and
    confidence bounds, for every option, market data and <cmath>: the mean
    is 0.0 / 0. *)
Theorem zero_simulations_nan
    (cmath : Cmath float) {G : Type} (normal : G -> float * G)
    (e : MonteCarloEngine) (option : Option_) (S0 r sigma : float) :
  let e0 := setNumSimulations e 0 in
  let res := fst (MonteCarloEngine_price normal e0 option S0 r sigma) in
  getNumSimulations e0 = 0%Z /\
  isnan (price res) = true /\ isnan (standardError res) = true /\
  isnan (confidence95Lower res) = true /\ isnan (confidence95Upper res) = true /\
  numSimulations res = 0%Z /\
  snd (MonteCarloEngine_price normal e0 option S0 r sigma) = e0.
Proof.
  intros e0 res.
  assert (Hres : exists d, res = europeanResult 0 [] d \/ res = americanResult 0 [] d).
  { subst res e0. unfold MonteCarloEngine_price, priceEuropean, priceAmerican.
    cbn [setNumSimulations numSimulations_ numSteps_ generator_].
    change (Z.to_nat 0) with 0%nat. cbn [europeanPayoffs generatePaths fst seq map].
    destruct (style_ option); cbn [fst].
    - eexists. left. reflexivity.
    - eexists. right. rewrite backward_no_paths. reflexivity. }
  split; [reflexivity|].
  assert (Hp : isnan (price res) = true /\ isnan (standardError res) = true).
  { destruct Hres as (d & [-> | ->]); unfold europeanResult, americanResult;
      cbn [price standardError]; split.
    - apply isnan_mul_r. reflexivity.
    - apply isnan_mul_r, isnan_sqrt. reflexivity.
    - apply isnan_mul_l. reflexivity.
    - apply isnan_mul_r, isnan_sqrt. reflexivity. }
  destruct Hp as [Hprice Hse]. split; [exact Hprice|]. split; [exact Hse|].
  assert (Hb : isnan (confidence95Lower res) = true /\
               isnan (confidence95Upper res) = true /\ numSimulations res = 0%Z).
  { destruct Hres as (d & [-> | ->]); unfold europeanResult, americanResult in *;
      cbn [price standardError confidence95Lower confidence95Upper numSimulations] in *;
      cbn [add sub binary64];
      unfold isnan in *; rewrite sub_spec, add_spec;
      (destruct (Prim2SF _) eqn:E in Hprice; try discriminate);
      rewrite E; repeat split; reflexivity. }
  destruct Hb as (Hlo & Hhi & Hn). repeat split; try assumption.
  subst e0. unfold MonteCarloEngine_price, priceEuropean, priceAmerican.
  destruct e as [n s sd g]. now destruct (style_ option).
Qed.

(** ** The volatility estimates *)

Lemma F2R_0_94_bounds : (0 < F2R 0.94 < 1)%R.
Proof.
  unfold F2R. replace (Prim2SF 0.94) with (S754_finite false 8466767299456532 (-53))
    by reflexivity.
  unfold SF2R, cond_Zopp.
  replace (0 <=? -53)%Z with false by reflexivity.
  replace (2 ^ (- -53))%Z with 9007199254740992%Z by reflexivity.
  lra.
Qed.

Section WindowFacts.
Context {A B : Type}.

Lemma skipn_nth (d : B) (l : list B) : forall a,
  (a < length l)%nat -> skipn a l = nth a l d :: skipn (Datatypes.S a) l.
Proof.
  induction l as [|x l IH]; intros a Ha; [simpl in Ha; lia|].
  destruct a as [|a]; [reflexivity|]. simpl in Ha.
  cbn [skipn nth]. rewrite (IH a) by lia. reflexivity.
Qed.

(** A loop over the indices a, ..., a + n - 1 of a vector visits the [n]
    elements after the first [a]. *)
Lemma fold_left_seq_skipn (F : A -> B -> A) (d : B) (l : list B) (n : nat) :
  forall a x, (a + n <= length l)%nat ->
  fold_left (fun acc i => F acc (nth i l d)) (seq a n) x
  = fold_left F (firstn n (skipn a l)) x.
Proof.
  induction n as [|n IH]; intros a x Hle; [reflexivity|].
  rewrite (skipn_nth d l a) by lia. cbn [seq firstn fold_left].
  apply IH. lia.
Qed.

End WindowFacts.

Section HistoricalFacts.
Context {T : Type} {arith : Arith T}.

Lemma recentReturns_length h (returns : list T) :
  (0 <= windowSize_ h)%Z ->
  Z.of_nat (length (recentReturns h returns))
  = Z.min (windowSize_ h) (Z.of_nat (length returns)).
Proof. intros Hw. unfold recentReturns. rewrite length_skipn. lia. Qed.

(** The two loops of [predict] are the sum and the sum of squared
    deviations of the recent returns. *)
Lemma HistoricalVolatility_predict_recent h (returns : list T) :
  (1 < windowSize_ h)%Z -> returns <> [] ->
  let recent := recentReturns h returns in
  let n := Z.of_nat (length recent) in
  HistoricalVolatility_predict h returns
  = inr (sqrt (sumSquaredDiff recent (accumulate recent / of_int n)
               / of_int (n - 1) * lit 252.0))%A.
Proof.
  intros Hw Hne recent n.
  assert (Hn : n = Z.min (windowSize_ h) (Z.of_nat (length returns)))
    by (apply recentReturns_length; lia).
  unfold HistoricalVolatility_predict.
  destruct (length returns =? 0)%nat eqn:Hlen.
  { apply Nat.eqb_eq in Hlen. destruct returns; [congruence|discriminate]. }
  apply Nat.eqb_neq in Hlen.
  replace (if (Z.of_nat (length returns) <? windowSize_ h)%Z
           then Z.of_nat (length returns) else windowSize_ h) with n.
  2:{ rewrite Hn. destruct (_ <? _)%Z eqn:Hlt;
        [apply Z.ltb_lt in Hlt|apply Z.ltb_ge in Hlt]; lia. }
  assert (Hwin : forall (F : T -> T -> T) x,
            fold_left (fun acc i => F acc (at_ returns i))
                      (window (Z.of_nat (length returns)) n) x
            = fold_left F recent x).
  { intros F x. unfold window, at_.
    rewrite fold_left_seq_skipn by lia.
    replace (Z.to_nat (Z.of_nat (length returns) - n))
      with (length returns - Z.to_nat (windowSize_ h))%nat by lia.
    fold (recentReturns h returns). fold recent.
    rewrite firstn_all2; [reflexivity|]. subst n. lia. }
  unfold ret. f_equal. f_equal. f_equal. f_equal.
  rewrite (Hwin (fun sum x => sum + x)%A).
  change (fold_left (fun sum x => sum + x)%A recent (lit 0.0)) with (accumulate recent).
  exact (Hwin (fun variance x =>
                 variance + (x - accumulate recent / of_int n)
                            * (x - accumulate recent / of_int n))%A (lit 0.0)).
Qed.

End HistoricalFacts.

(** X20.  The historical estimate reads the last [windowSize_] returns
    only: returns older than the window do not change what [predict]
    returns. *)
Theorem HistoricalVolatility_window
    {T : Type} {arith : Arith T}
    (h : HistoricalVolatility) (old recent : list T) :
  (1 < windowSize_ h)%Z -> (windowSize_ h <= Z.of_nat (length recent))%Z ->
  HistoricalVolatility_predict h (old ++ recent)
  = HistoricalVolatility_predict h recent.
Proof.
  intros Hw Hlen.
  assert (Hne : recent <> []) by (intros ->; simpl in Hlen; lia).
  rewrite !HistoricalVolatility_predict_recent; try assumption.
  2:{ intros H. apply app_eq_nil in H. tauto. }
  replace (recentReturns h (old ++ recent)) with (recentReturns h recent);
    [reflexivity|].
  unfold recentReturns. rewrite length_app.
  replace (length old + length recent - Z.to_nat (windowSize_ h))%nat
    with (length old + (length recent - Z.to_nat (windowSize_ h)))%nat by lia.
  rewrite skipn_app, (skipn_all2 old) by lia. cbn [app]. f_equal. lia.
Qed.

Lemma HistoricalVolatility_window_witness :
  HistoricalVolatility_predict {| windowSize_ := 2 |} ([0.5] ++ [0.01; 0.02])%float
  = HistoricalVolatility_predict {| windowSize_ := 2 |} [0.01; 0.02]%float.
Proof.
  apply (HistoricalVolatility_window {| windowSize_ := 2 |}
           [0.5]%float [0.01; 0.02]%float); simpl; lia.
Defined.

(** X22.  In binary64 the historical estimate of a single return is a NaN,
    whatever the return and the window are: the sample variance divides a
    sum that is a zero or a NaN by n - 1 = 0. *)
Theorem HistoricalVolatility_single_return
    (windowSize : Z) (h : HistoricalVolatility) (r : float) :
  HistoricalVolatility_new windowSize = inr h ->
  exists v, HistoricalVolatility_predict h [r] = inr v /\ isnan v = true.
Proof.
  unfold HistoricalVolatility_new.
  destruct (windowSize <=? 1)%Z eqn:Hw; [discriminate|].
  intros Hh. injection Hh as <-. apply Z.leb_gt in Hw.
  unfold HistoricalVolatility_predict.
  cbn [length Nat.eqb windowSize_]. change (Z.of_nat 1) with 1%Z.
  destruct (1 <? windowSize)%Z eqn:Hlt; [|apply Z.ltb_ge in Hlt; lia].
  eexists. split; [reflexivity|].
  unfold window. change (Z.to_nat (1 - 1)) with 0%nat. change (Z.to_nat 1) with 1%nat.
  cbn [seq fold_left at_ nth sqrt mul div add sub lit of_int binary64].
  change (float_of_int (1 - 1)) with 0%float. change (float_of_int 1) with 1%float.
  rewrite div_1. apply isnan_sqrt, isnan_mul_l, sub_self_square.
Qed.

Lemma HistoricalVolatility_single_return_witness :
  exists v, HistoricalVolatility_predict {| windowSize_ := 30 |} [0.01%float] = inr v
            /\ isnan v = true.
Proof.
  apply (HistoricalVolatility_single_return 30 {| windowSize_ := 30 |} 0.01%float).
  reflexivity.
Defined.

Section EstimateSigns.

Local Notation nn := (fun p : float => sf_nonneg_or_nan (Prim2SF p) = true).

Lemma annualized_nn (variance : float) :
  nn variance -> nn (PrimFloat.sqrt (variance * 252)).
Proof.
  intros Hv. cbv beta. rewrite sqrt_spec, mul_spec.
  apply SFsqrt_nn, SFmul_nn; [exact Hv|reflexivity].
Qed.

Lemma ewmaVariance_nn (lambda : float) (returns : list float) :
  isnan lambda = true \/
  (PrimFloat.ltb 0 lambda = true /\ PrimFloat.ltb lambda 1 = true) ->
  nn (ewmaVariance lambda returns).
Proof.
  intros Hl. unfold ewmaVariance. cbn [add sub mul lit binary64].
  assert (Hlam : nn lambda).
  { cbv beta. apply nonneg_or_nan_spec. destruct Hl as [H|[H _]]; [now left|].
    right. now apply ltb_leb. }
  assert (Hone : nn (1 - lambda)%float).
  { cbv beta. rewrite sub_spec.
    replace (Prim2SF 1) with (S754_finite false 4503599627370496 (-52)) by reflexivity.
    apply SFsub_one_nn; [apply Prim2SF_valid|].
    destruct Hl as [H|[H0 H1]].
    - left. unfold isnan in H. destruct (Prim2SF lambda); try discriminate.
      reflexivity.
    - right. rewrite !ltb_spec in *. split; assumption. }
  apply (fold_left_invariant (fun v : float => sf_nonneg_or_nan (Prim2SF v) = true)).
  - intros v i Hv. rewrite add_spec, !mul_spec.
    apply SFadd_nn; [now apply SFmul_nn|now apply SFmul_twice_nn].
  - rewrite mul_spec. apply SFmul_square.
Qed.

End EstimateSigns.

(** X23.  In binary64 no estimator returns a negative volatility: for a
    non-empty vector of returns, whatever doubles it holds, every
    constructed historical estimator, every constructed weighted estimator
    and the ML predictor return a value that is a NaN or at least zero. *)
Theorem volatility_nonnegative_binary64 (returns : list float) :
  returns <> [] ->
  (forall windowSize h,
     HistoricalVolatility_new windowSize = inr h ->
     exists v, HistoricalVolatility_predict h returns = inr v /\
               (isnan v = true \/ PrimFloat.leb 0 v = true)) /\
  (forall lambda w,
     EWMAVolatility_new lambda = inr w ->
     exists v, EWMAVolatility_predict w returns = inr v /\
               (isnan v = true \/ PrimFloat.leb 0 v = true)) /\
  (forall m,
     exists v, MLVolatilityPredictor_predict m returns = inr v /\
               (isnan v = true \/ PrimFloat.leb 0 v = true)).
Proof.
  intros Hne.
  assert (Hlen : (length returns =? 0)%nat = false).
  { apply Nat.eqb_neq. destruct returns; [congruence|discriminate]. }
  split; [|split].
  - intros windowSize h Hh. unfold HistoricalVolatility_new in Hh.
    destruct (windowSize <=? 1)%Z eqn:Hw; [discriminate|].
    injection Hh as <-. apply Z.leb_gt in Hw.
    rewrite HistoricalVolatility_predict_recent by assumption.
    eexists. split; [reflexivity|].
    apply nonneg_or_nan_spec. cbn [sqrt mul div lit of_int binary64].
    apply annualized_nn. rewrite div_spec.
    apply SFdiv_nn; [apply sumSquaredDiff_nn|].
    apply of_int_divisor.
    pose proof (recentReturns_length {| windowSize_ := windowSize |} returns
                  ltac:(cbn; lia)) as Hn.
    cbn [windowSize_] in Hn.
    assert (0 < length returns)%nat by (destruct returns; [congruence|simpl; lia]).
    lia.
  - intros lambda w Hw.
    destruct (EWMAVolatility_accepted _ _ Hw) as [-> Hacc].
    unfold EWMAVolatility_predict. rewrite Hlen. cbn [lambda_].
    eexists. split; [reflexivity|].
    apply nonneg_or_nan_spec. cbn [sqrt mul lit binary64].
    apply annualized_nn. now apply ewmaVariance_nn.
  - intros m. unfold MLVolatilityPredictor_predict. rewrite Hlen.
    change (EWMAVolatility_new (lit 0.94)) with
      (@inr exn EWMAVolatility {| lambda_ := 0.94%float |}).
    unfold EWMAVolatility_predict. rewrite Hlen. cbn [lambda_].
    eexists. split; [reflexivity|].
    apply nonneg_or_nan_spec. cbn [sqrt mul lit binary64].
    apply annualized_nn. apply ewmaVariance_nn. right. split; reflexivity.
Qed.

Lemma volatility_nonnegative_binary64_witness :
  exists v,
    MLVolatilityPredictor_predict (MLVolatilityPredictor_new "ewma")
      [0.01; -0.02]%float = inr v /\
    (isnan v = true \/ PrimFloat.leb 0 v = true).
Proof.
  apply (proj2 (proj2 (volatility_nonnegative_binary64 [0.01; -0.02]%float
                         ltac:(discriminate)))).
Defined.

Lemma EWMAVolatility_new_exact (lambda : R) (w : EWMAVolatility) :
  EWMAVolatility_new lambda = inr w <->
  (0 < lambda < 1)%R /\ w = {| lambda_ := lambda |}.
Proof.
  unfold EWMAVolatility_new. cbn [leb of_int exact].
  destruct (Rle_dec lambda 0), (Rle_dec 1 lambda); cbn; split;
    try discriminate; try (intros [? ?]; lra).
  - intros H. injection H as <-. split; [lra|reflexivity].
  - intros [_ ->]. reflexivity.
Qed.

(** X25.  [MLVolatilityPredictor::predict] is the weighted estimate with
    lambda 0.94: the estimator it constructs is accepted, in binary64 and in
    exact arithmetic, and it returns or throws what that estimator's
    [predict] does. *)
Theorem MLVolatilityPredictor_is_EWMA :
  (forall (m : MLVolatilityPredictor) (returns : list float),
     EWMAVolatility_new 0.94%float = inr {| lambda_ := 0.94%float |} /\
     MLVolatilityPredictor_predict m returns
     = EWMAVolatility_predict {| lambda_ := 0.94%float |} returns) /\
  (forall (m : MLVolatilityPredictor) (returns : list R),
     EWMAVolatility_new (F2R 0.94) = inr {| lambda_ := F2R 0.94 |} /\
     MLVolatilityPredictor_predict m returns
     = EWMAVolatility_predict {| lambda_ := F2R 0.94 |} returns).
Proof.
  split.
  - intros m returns. split; [reflexivity|].
    unfold MLVolatilityPredictor_predict, EWMAVolatility_predict.
    destruct (length returns =? 0)%nat; reflexivity.
  - intros m returns.
    assert (Hnew : EWMAVolatility_new (F2R 0.94) = inr {| lambda_ := F2R 0.94 |}).
    { apply EWMAVolatility_new_exact. split; [apply F2R_0_94_bounds|reflexivity]. }
    split; [exact Hnew|].
    unfold MLVolatilityPredictor_predict. cbn [lit exact]. rewrite Hnew.
    unfold EWMAVolatility_predict.
    destruct (length returns =? 0)%nat; reflexivity.
Qed.
